(** * StatsSection: the counter interpolator, the entrance trigger and the
      hover state of [src/components/home/StatsSection.jsx]

    The component is embedded shallowly:

    - The counter interpolator ([animateCounter] and its [animate]) is
      embedded twice.  The module [B64] computes as JavaScript does, in IEEE
      754 binary64 arithmetic: every operation rounds to the nearest value
      of 53 significant bits, overflows to an infinity, underflows
      gradually, and zero carries a sign.  The properties of the
      interpolator as a function of its arguments (the emitted sequence,
      a duration that is not positive, a step before the start) are proved
      there.
    - The type [num] outside [B64] is exact: rationals extended with
      [+Infinity], [-Infinity] and [NaN], no rounding and no sign of zero.
      The state machine of the mounted component computes with it; a value
      it displays can differ from the binary64 one (180 against 179 in
      [binary64_rounding_changes_a_displayed_value]).
    - The host (timers, animation frames, scroll trigger, pointer events,
      unmount) is an event-driven state machine over the record [state];
      closures are defunctionalised ([task], [animation]).  The clock shows
      the scheduled time: a timer callback runs exactly when it is due, and
      a frame carries a timestamp that is not before the clock.
    - The rendered class names and the rules of the [<style jsx>] block are
      functions of the hover state and of the media environment. *)

From Stdlib Require Import ZArith QArith Qround Qabs Qpower Bool List String Ascii.
From Stdlib Require Import Lia Lqa Psatz Sorted DecimalString.
Import ListNotations.

Set Implicit Arguments.
Local Open Scope string_scope.
Local Open Scope list_scope.

(** ** JavaScript numbers, in exact arithmetic *)

Inductive num : Type :=
| Fin (q : Q)
| PosInf
| NegInf
| NaN.

Definition of_Z (z : Z) : num := Fin (inject_Z z).

Definition Qlt_bool (a b : Q) : bool := negb (Qle_bool b a).

Definition num_neg (x : num) : num :=
  match x with
  | Fin q => Fin (- q)
  | PosInf => NegInf
  | NegInf => PosInf
  | NaN => NaN
  end.

(** [x + y] *)
Definition num_add (x y : num) : num :=
  match x, y with
  | NaN, _ | _, NaN => NaN
  | Fin a, Fin b => Fin (a + b)
  | PosInf, NegInf | NegInf, PosInf => NaN
  | PosInf, _ | _, PosInf => PosInf
  | NegInf, _ | _, NegInf => NegInf
  end.

(** [x - y] *)
Definition num_sub (x y : num) : num := num_add x (num_neg y).

(** The sign of an infinity multiplied or divided by the finite [q]
    (a zero counts as [+0]). *)
Definition signed_inf (positive : bool) : num :=
  if positive then PosInf else NegInf.

(** [x * y] *)
Definition num_mul (x y : num) : num :=
  match x, y with
  | NaN, _ | _, NaN => NaN
  | Fin a, Fin b => Fin (a * b)
  | Fin a, PosInf | PosInf, Fin a =>
      if Qeq_bool a 0 then NaN else signed_inf (Qlt_bool 0 a)
  | Fin a, NegInf | NegInf, Fin a =>
      if Qeq_bool a 0 then NaN else signed_inf (Qlt_bool a 0)
  | PosInf, PosInf | NegInf, NegInf => PosInf
  | PosInf, NegInf | NegInf, PosInf => NegInf
  end.

(** [x / y] *)
Definition num_div (x y : num) : num :=
  match x, y with
  | NaN, _ | _, NaN => NaN
  | Fin a, Fin b =>
      if Qeq_bool b 0
      then (if Qeq_bool a 0 then NaN else signed_inf (Qlt_bool 0 a))
      else Fin (a / b)
  | Fin _, PosInf | Fin _, NegInf => Fin 0
  | PosInf, Fin b => signed_inf (Qle_bool 0 b)
  | NegInf, Fin b => signed_inf (Qlt_bool b 0)
  | _, _ => NaN
  end.

(** [x < y]: false as soon as an operand is [NaN]. *)
Definition num_lt (x y : num) : bool :=
  match x, y with
  | NaN, _ | _, NaN => false
  | Fin a, Fin b => Qlt_bool a b
  | PosInf, _ | _, NegInf => false
  | NegInf, _ | _, PosInf => true
  end.

(** [Math.min(x, y)] *)
Definition Math_min (x y : num) : num :=
  match x, y with
  | NaN, _ | _, NaN => NaN
  | NegInf, _ | _, NegInf => NegInf
  | PosInf, z | z, PosInf => z
  | Fin a, Fin b => Fin (if Qle_bool a b then a else b)
  end.

Fixpoint Qpow (q : Q) (n : nat) : Q :=
  match n with
  | O => 1
  | S k => q * Qpow q k
  end.

(** [Math.pow(x, n)] for a literal exponent [n] that is a natural number
    (the component only uses the exponent 2). *)
Definition Math_pow (x : num) (n : nat) : num :=
  match n with
  | O => Fin 1
  | S _ =>
      match x with
      | Fin q => Fin (Qpow q n)
      | PosInf => PosInf
      | NegInf => signed_inf (Nat.even n)
      | NaN => NaN
      end
  end.

(** [Math.floor(x)] *)
Definition Math_floor (x : num) : num :=
  match x with
  | Fin q => of_Z (Qfloor q)
  | other => other
  end.

(** *** [Number.prototype.toLocaleString]

    The host formats with its locale; the model takes the [en-US] grouping of
    the integer digits.  The interpolator only formats results of
    [Math.floor], so the fraction digits of a finite value are not produced
    here. *)

Fixpoint group_thousands (rev_digits : list ascii) : list ascii :=
  match rev_digits with
  | a :: b :: c :: ((_ :: _) as rest) =>
      a :: b :: c :: ","%char :: group_thousands rest
  | short => short
  end.

Definition digits_of_N (n : N) : list ascii :=
  list_ascii_of_string (NilZero.string_of_uint (N.to_uint n)).

Definition grouped_string_of_N (n : N) : string :=
  string_of_list_ascii (rev (group_thousands (rev (digits_of_N n)))).

Definition toLocaleString (x : num) : string :=
  match x with
  | NaN => "NaN"
  | PosInf => "∞"
  | NegInf => "-∞"
  | Fin q =>
      let z := Qfloor q in
      if (z <? 0)%Z
      then String "-"%char (grouped_string_of_N (Z.to_N (- z)))
      else grouped_string_of_N (Z.to_N z)
  end.

(** ** The static stat records ([statsData]) *)

Record stat : Type := {
  number : Z;
  suffix : string;
  label : string;
  icon : string;
  color : string;
  glowColor : string
}.

Definition statsData : list stat :=
  [ {| number := 500; suffix := "+";
       label := "Wedding projects completed"; icon := "⚘";
       color := "from-[#D3FD50] to-[#b8e03e]";
       glowColor := "rgba(211, 253, 80, 0.3)" |};
    {| number := 97; suffix := "%";
       label := "Happy Clients"; icon := "◉";
       color := "from-[#D3FD50] to-[#a3d139]";
       glowColor := "rgba(211, 253, 80, 0.4)" |};
    {| number := 8; suffix := "";
       label := "Editors in our team"; icon := "✎";
       color := "from-[#b8e03e] to-[#D3FD50]";
       glowColor := "rgba(184, 224, 62, 0.3)" |};
    {| number := 7; suffix := " years";
       label := "Post-production experience"; icon := "⚝";
       color := "from-[#a3d139] to-[#D3FD50]";
       glowColor := "rgba(163, 209, 57, 0.35)" |} ].

(** ** The counter interpolator ([animateCounter] and its [animate]) *)

(** The closure [animate] built by one call of [animateCounter]: the element
    it writes to and the values it captured. *)
Record animation : Type := {
  element : nat;
  finalNumber : num;
  duration : num;
  startTime : num
}.

Definition startValue : num := of_Z 0.

(** [animateCounter(element, finalNumber, duration = 1500)]: an omitted
    third argument ([None]) takes the default; [now] is what
    [performance.now()] returns at the call. *)
Definition default_duration : num := of_Z 1500.

Definition animateCounter (now : num) (el : nat) (final : num)
    (dur : option num) : animation :=
  {| element := el;
     finalNumber := final;
     duration := match dur with Some d => d | None => default_duration end;
     startTime := now |}.

Definition progress_at (a : animation) (currentTime : num) : num :=
  let elapsed := num_sub currentTime (startTime a) in
  Math_min (num_div elapsed (duration a)) (of_Z 1).

Definition currentValue_at (a : animation) (currentTime : num) : num :=
  let progress := progress_at a currentTime in
  let easedProgress := num_sub (of_Z 1) (Math_pow (num_sub (of_Z 1) progress) 2) in
  Math_floor
    (num_add startValue
       (num_mul (num_sub (finalNumber a) startValue) easedProgress)).

(** One invocation of [animate(currentTime)]: the value written to
    [element.textContent] (before formatting) and whether the next step is
    requested ([progress < 1]). *)
Definition animate (a : animation) (currentTime : num) : num * bool :=
  (currentValue_at a currentTime, num_lt (progress_at a currentTime) (of_Z 1)).

(** The values one interpolator emits when the host runs its steps at the
    given frame times: it stops at the first step that does not reschedule. *)
Fixpoint emitted (a : animation) (times : list num) : list num :=
  match times with
  | [] => []
  | t :: rest =>
      let (v, again) := animate a t in
      v :: (if again then emitted a rest else [])
  end.

(** ** The media environment and the rendered presentation *)

(** What the host answers to the media queries of the style block. *)
Record environment : Type := {
  prefers_reduced_motion : bool;   (* (prefers-reduced-motion: reduce) *)
  hover_hover : bool;              (* (hover: hover) *)
  pointer_fine : bool;             (* (pointer: fine) *)
  viewport_width : Z               (* in CSS pixels, for (max-width: 768px) *)
}.

(** [classList]: the class tokens of a [className] string, split at spaces. *)
Fixpoint split_spaces (cur : string) (s : string) : list string :=
  match s with
  | EmptyString => if String.eqb cur "" then [] else [cur]
  | String c rest =>
      if Ascii.eqb c " "%char
      then (if String.eqb cur "" then [] else [cur]) ++ split_spaces "" rest
      else split_spaces (cur ++ String c "") rest
  end.

Definition classList (className : string) : list string :=
  split_spaces "" className.

Definition has_class (cls : string) (className : string) : bool :=
  existsb (String.eqb cls) (classList className).

(** [const isHovered = hoveredCard === index] *)
Definition isHovered (hoveredCard : option nat) (index : nat) : bool :=
  match hoveredCard with
  | Some h => Nat.eqb h index
  | None => false
  end.

(** The [className] and [willChange] expressions of one card, as the JSX
    computes them from [isHovered]. *)
Definition card_className : string := "stat-card group relative text-center".

Definition inner_className (hovered : bool) : string :=
  "relative h-full bg-gradient-to-br from-black/40 via-black/30 to-black/40 backdrop-blur-xl border rounded-[32px] p-8 sm:p-10 lg:p-12 transition-all duration-300 ease-out "
  ++ (if hovered then "stat-card-hover" else "border-white/[0.08]").

Definition glow_className (hovered : bool) : string :=
  "absolute inset-0 rounded-[32px] transition-opacity duration-300 pointer-events-none "
  ++ (if hovered then "opacity-100" else "opacity-0").

Definition icon_className (st : stat) (hovered : bool) : string :=
  "inline-block bg-gradient-to-br " ++ color st
  ++ " bg-clip-text text-transparent transition-transform duration-200 "
  ++ (if hovered then "scale-105" else "scale-100").

Definition counter_className (st : stat) (hovered : bool) : string :=
  "counter-number font-[font2] text-5xl sm:text-6xl lg:text-7xl bg-gradient-to-br "
  ++ color st
  ++ " bg-clip-text text-transparent inline-block transition-transform duration-200 "
  ++ (if hovered then "scale-105" else "scale-100").

Definition accent_className (hovered : bool) : string :=
  "accent-line absolute inset-0 bg-gradient-to-r from-transparent via-[#D3FD50] to-transparent transition-all duration-200 "
  ++ (if hovered then "opacity-100 scale-x-105" else "opacity-60 scale-x-100").

Definition willChange (hovered : bool) : string :=
  if hovered then "transform" else "auto".

(** The utility classes of the component that set a transform scale, with
    the factor in percent. *)
Definition utility_scale (cls : string) : option Z :=
  if String.eqb cls "scale-100" then Some 100%Z
  else if String.eqb cls "scale-105" then Some 105%Z
  else if String.eqb cls "scale-x-100" then Some 100%Z
  else if String.eqb cls "scale-x-105" then Some 105%Z
  else None.

(** A [className] enlarges its element when one of its tokens scales above
    100 percent. *)
Definition scales_up (className : string) : bool :=
  existsb (fun cls => match utility_scale cls with
                      | Some pct => (100 <? pct)%Z
                      | None => false
                      end) (classList className).

(** What the JSX computes for one card from [isHovered]. *)
Record card_view : Type := {
  inner_class : string;
  glow_class : string;
  icon_class : string;
  counter_class : string;
  counter_willChange : string;
  accent_class : string;
  accent_willChange : string
}.

Definition render_card (hovered_card : option nat) (index : nat) (st : stat)
  : card_view :=
  let hovered := isHovered hovered_card index in
  {| inner_class := inner_className hovered;
     glow_class := glow_className hovered;
     icon_class := icon_className st hovered;
     counter_class := counter_className st hovered;
     counter_willChange := willChange hovered;
     accent_class := accent_className hovered;
     accent_willChange := willChange hovered |}.

(** [statsData.map((stat, index) => ...)] *)
Definition render_cards (hovered_card : option nat) : list card_view :=
  map (fun p => render_card hovered_card (fst p) (snd p))
      (combine (seq 0 (List.length statsData)) statsData).

(** The rules of the [<style jsx>] block. *)

(** [@media (prefers-reduced-motion: reduce)]: the [animation] and
    [transition] declared for an element carrying class [cls]
    ([None]: the block declares nothing). *)
Definition reduced_motion_classes : list string :=
  ["stat-card"; "stat-icon"; "counter-number"; "accent-line"].

Definition style_transition (e : environment) (cls : string) : option string :=
  if prefers_reduced_motion e && existsb (String.eqb cls) reduced_motion_classes
  then Some "none" else None.

(** The [transform] the block declares for [.stat-card:hover]: the rule under
    [(hover: hover) and (pointer: fine)], overridden by the later rule under
    [(max-width: 768px)]. *)
Definition stat_card_hover_transform (e : environment) : option string :=
  if (viewport_width e <=? 768)%Z then Some "none"
  else if hover_hover e && pointer_fine e
       then Some "translateY(-6px) scale(1.01)"
       else None.

(** ** The mounted component as a state machine *)

(** The callbacks handed to [setTimeout]. *)
Inductive task : Type :=
| StartCounters                 (* the 200ms callback of [onEnter] *)
| StartCounter (index : nat).   (* the staggered callback of counter [index] *)

(** What an observer of the component records. *)
Inductive action : Type :=
| CardTriggerEnter                              (* [onEnter] of the card group was called *)
| CounterSchedule                               (* the 200ms callback ran *)
| TextWrite (el : nat) (value : num) (text : string)  (* [element.textContent = ...] *)
| Unmounted.

Record state : Type := {
  env : environment;
  now : Q;                                   (* the clock of [performance.now()] *)
  mounted : bool;
  hasAnimated : bool;
  hoveredCard : option nat;
  animationFrameRef : option nat;            (* [animationFrameRef.current] *)
  cardTrigger : option bool;                 (* the live card-group ScrollTrigger and the
                                                [hasAnimated] its [onEnter] closed over *)
  timers : list (Q * task);                  (* pending [setTimeout] callbacks, with due time *)
  frameCallbacks : list (nat * animation);   (* pending [requestAnimationFrame] callbacks *)
  nextHandle : nat;
  textContent : list string;                 (* of the [.counter-number] elements *)
  log : list (Q * action)
}.

Definition init (e : environment) : state :=
  {| env := e; now := 0; mounted := true; hasAnimated := false;
     hoveredCard := None; animationFrameRef := None;
     cardTrigger := Some false; timers := []; frameCallbacks := [];
     nextHandle := 1; textContent := map (fun _ => "0"%string) statsData;
     log := [] |}.

Definition set_env (e : environment) (s : state) : state :=
  {| env := e; now := now s; mounted := mounted s; hasAnimated := hasAnimated s;
     hoveredCard := hoveredCard s; animationFrameRef := animationFrameRef s;
     cardTrigger := cardTrigger s; timers := timers s;
     frameCallbacks := frameCallbacks s; nextHandle := nextHandle s;
     textContent := textContent s; log := log s |}.

Definition set_now (t : Q) (s : state) : state :=
  {| env := env s; now := t; mounted := mounted s; hasAnimated := hasAnimated s;
     hoveredCard := hoveredCard s; animationFrameRef := animationFrameRef s;
     cardTrigger := cardTrigger s; timers := timers s;
     frameCallbacks := frameCallbacks s; nextHandle := nextHandle s;
     textContent := textContent s; log := log s |}.

Definition set_mounted (b : bool) (s : state) : state :=
  {| env := env s; now := now s; mounted := b; hasAnimated := hasAnimated s;
     hoveredCard := hoveredCard s; animationFrameRef := animationFrameRef s;
     cardTrigger := cardTrigger s; timers := timers s;
     frameCallbacks := frameCallbacks s; nextHandle := nextHandle s;
     textContent := textContent s; log := log s |}.

Definition set_hasAnimated (b : bool) (s : state) : state :=
  {| env := env s; now := now s; mounted := mounted s; hasAnimated := b;
     hoveredCard := hoveredCard s; animationFrameRef := animationFrameRef s;
     cardTrigger := cardTrigger s; timers := timers s;
     frameCallbacks := frameCallbacks s; nextHandle := nextHandle s;
     textContent := textContent s; log := log s |}.

(** [setHoveredCard] *)
Definition setHoveredCard (h : option nat) (s : state) : state :=
  {| env := env s; now := now s; mounted := mounted s; hasAnimated := hasAnimated s;
     hoveredCard := h; animationFrameRef := animationFrameRef s;
     cardTrigger := cardTrigger s; timers := timers s;
     frameCallbacks := frameCallbacks s; nextHandle := nextHandle s;
     textContent := textContent s; log := log s |}.

Definition set_animationFrameRef (r : option nat) (s : state) : state :=
  {| env := env s; now := now s; mounted := mounted s; hasAnimated := hasAnimated s;
     hoveredCard := hoveredCard s; animationFrameRef := r;
     cardTrigger := cardTrigger s; timers := timers s;
     frameCallbacks := frameCallbacks s; nextHandle := nextHandle s;
     textContent := textContent s; log := log s |}.

Definition set_cardTrigger (c : option bool) (s : state) : state :=
  {| env := env s; now := now s; mounted := mounted s; hasAnimated := hasAnimated s;
     hoveredCard := hoveredCard s; animationFrameRef := animationFrameRef s;
     cardTrigger := c; timers := timers s;
     frameCallbacks := frameCallbacks s; nextHandle := nextHandle s;
     textContent := textContent s; log := log s |}.

Definition set_timers (ts : list (Q * task)) (s : state) : state :=
  {| env := env s; now := now s; mounted := mounted s; hasAnimated := hasAnimated s;
     hoveredCard := hoveredCard s; animationFrameRef := animationFrameRef s;
     cardTrigger := cardTrigger s; timers := ts;
     frameCallbacks := frameCallbacks s; nextHandle := nextHandle s;
     textContent := textContent s; log := log s |}.

Definition set_frames (fs : list (nat * animation)) (next : nat) (s : state) : state :=
  {| env := env s; now := now s; mounted := mounted s; hasAnimated := hasAnimated s;
     hoveredCard := hoveredCard s; animationFrameRef := animationFrameRef s;
     cardTrigger := cardTrigger s; timers := timers s;
     frameCallbacks := fs; nextHandle := next;
     textContent := textContent s; log := log s |}.

Definition set_textContent (txt : list string) (s : state) : state :=
  {| env := env s; now := now s; mounted := mounted s; hasAnimated := hasAnimated s;
     hoveredCard := hoveredCard s; animationFrameRef := animationFrameRef s;
     cardTrigger := cardTrigger s; timers := timers s;
     frameCallbacks := frameCallbacks s; nextHandle := nextHandle s;
     textContent := txt; log := log s |}.

Definition record (a : action) (s : state) : state :=
  {| env := env s; now := now s; mounted := mounted s; hasAnimated := hasAnimated s;
     hoveredCard := hoveredCard s; animationFrameRef := animationFrameRef s;
     cardTrigger := cardTrigger s; timers := timers s;
     frameCallbacks := frameCallbacks s; nextHandle := nextHandle s;
     textContent := textContent s; log := log s ++ [(now s, a)] |}.

(** *** Host primitives *)

(** [setTimeout(task, delay)] *)
Definition setTimeout (tk : task) (delay : Q) (s : state) : state :=
  set_timers (timers s ++ [(now s + delay, tk)]) s.

(** [requestAnimationFrame(animate)]: the callback joins the list of the
    next frame; the handle is returned. *)
Definition requestAnimationFrame (a : animation) (s : state) : nat * state :=
  (nextHandle s,
   set_frames (frameCallbacks s ++ [(nextHandle s, a)]) (S (nextHandle s)) s).

(** [cancelAnimationFrame(handle)] *)
Definition cancelAnimationFrame (h : nat) (s : state) : state :=
  set_frames (filter (fun cb => negb (Nat.eqb (fst cb) h)) (frameCallbacks s))
             (nextHandle s) s.

(** The timer the host runs next: the earliest due time, the oldest among
    equal ones; with the timers that stay pending. *)
Fixpoint pop_earliest (ts : list (Q * task))
  : option ((Q * task) * list (Q * task)) :=
  match ts with
  | [] => None
  | x :: rest =>
      match pop_earliest rest with
      | None => Some (x, [])
      | Some (y, rest') =>
          if Qle_bool (fst x) (fst y) then Some (x, rest)
          else Some (y, x :: rest')
      end
  end.

Fixpoint set_nth (i : nat) (x : string) (l : list string) : list string :=
  match l, i with
  | [], _ => []
  | _ :: tl, O => x :: tl
  | y :: tl, S k => y :: set_nth k x tl
  end.

(** *** The component's own code *)

(** [if (animationFrameRef.current) cancelAnimationFrame(animationFrameRef.current)],
    the body shared by both cleanups. *)
Definition cancel_current_frame (s : state) : state :=
  match animationFrameRef s with
  | Some h => cancelAnimationFrame h s
  | None => s
  end.

(** [animationFrameRef.current = requestAnimationFrame(animate)] *)
Definition schedule_frame (a : animation) (s : state) : state :=
  let (h, s') := requestAnimationFrame a s in
  set_animationFrameRef (Some h) s'.

(** A call [animateCounter(element, finalNumber, duration)] in state [s]. *)
Definition call_animateCounter (el : nat) (final : num) (dur : option num)
    (s : state) : state :=
  schedule_frame (animateCounter (Fin (now s)) el final dur) s.

(** The host calls [animate(currentTime)] of the closure [a]. *)
Definition call_animate (currentTime : Q) (s : state) (a : animation) : state :=
  let (v, again) := animate a (Fin currentTime) in
  let txt := toLocaleString v in
  let s1 := record (TextWrite (element a) v txt)
                   (set_textContent (set_nth (element a) txt (textContent s)) s) in
  if again then schedule_frame a s1 else s1.

(** The body of the [useGSAP] callback, as far as the card group goes: it
    creates the card-group trigger, whose [onEnter] closes over the
    [hasAnimated] of the current render. *)
Definition gsap_setup (s : state) : state :=
  set_cardTrigger (Some (hasAnimated s)) s.

(** The function the [useGSAP] callback returns: [ctx.revert()] removes the
    trigger, then the current frame handle is cancelled. *)
Definition gsap_cleanup (s : state) : state :=
  cancel_current_frame (set_cardTrigger None s).

(** The cleanup of the [useEffect] with no dependencies. *)
Definition unmount_cleanup (s : state) : state :=
  cancel_current_frame s.

(** [setHasAnimated(v)]: ignored after unmount and when the value does not
    change; otherwise the component renders again and, [hasAnimated] being a
    dependency of [useGSAP], the callback runs again.  [useGSAP] is given
    dependencies and no [revertOnUpdate], so it keeps the function the
    callback returned for the unmount and does not call it here. *)
Definition setHasAnimated (v : bool) (s : state) : state :=
  if mounted s then
    if Bool.eqb (hasAnimated s) v then s
    else gsap_setup (set_hasAnimated v s)
  else s.

(** [document.querySelectorAll('.counter-number')]: one element per stat
    while the component is in the document. *)
Definition querySelectorAll_counter_number (s : state) : list nat :=
  if mounted s then seq 0 (List.length statsData) else [].

(** [onEnter] of the card-group trigger; [captured] is the [hasAnimated] of
    its closure. *)
Definition onEnter (captured : bool) (s : state) : state :=
  let s1 := record CardTriggerEnter s in
  if negb captured then setTimeout StartCounters 200 s1 else s1.

Definition run_task (tk : task) (s : state) : state :=
  match tk with
  | StartCounters =>
      let s1 := record CounterSchedule s in
      let counters := querySelectorAll_counter_number s1 in
      let s2 := fold_left
                  (fun st index =>
                     setTimeout (StartCounter index) (inject_Z (Z.of_nat index) * 80) st)
                  counters s1 in
      setHasAnimated true s2
  | StartCounter index =>
      match nth_error statsData index with
      | Some st => call_animateCounter index (of_Z (number st)) (Some (of_Z 1200)) s
      | None => s
      end
  end.

(** [handleMouseEnter(index)] and [handleMouseLeave()] *)
Definition handleMouseEnter (index : nat) (s : state) : state :=
  setHoveredCard (Some index) s.

Definition handleMouseLeave (s : state) : state :=
  setHoveredCard None s.

(** The handlers bound on card [index]:
    [onMouseEnter={() => handleMouseEnter(index)}] and
    [onMouseLeave={handleMouseLeave}]. *)
Definition card_onMouseEnter (index : nat) (s : state) : state :=
  handleMouseEnter index s.

Definition card_onMouseLeave (index : nat) (s : state) : state :=
  handleMouseLeave s.

(** Unmount: both cleanups run, in the order of the hooks. *)
Definition unmount (s : state) : state :=
  record Unmounted (set_mounted false (unmount_cleanup (gsap_cleanup s))).

(** *** Events of the host *)

Inductive event : Type :=
| ScrollEnter                 (* the grid crosses the 75% line *)
| TimerFire                   (* the next pending timer comes due *)
| AnimationFrame (t : Q)      (* the display refreshes at time [t] *)
| MouseEnter (index : nat)
| MouseLeave (index : nat)
| Unmount.

(** One event.  [None]: the host cannot produce the event in this state (a
    frame in the past or beyond a pending timer, [TimerFire] without a timer,
    a pointer event on no card or after unmount, a second unmount).

    - [ScrollEnter] calls [onEnter] of the live card-group trigger, which
      [once: true] then removes; without a live trigger nothing happens.
    - [TimerFire] moves the clock to the due time of the next timer and runs
      its callback: timers run at the time they were scheduled for.
    - [AnimationFrame t] moves the clock to [t] and runs the callbacks that
      were pending when the frame began, in the order of their requests,
      each with [currentTime = t]; callbacks requested meanwhile wait for the
      next frame. *)
Definition step (s : state) (ev : event) : option state :=
  match ev with
  | ScrollEnter =>
      match cardTrigger s with
      | Some captured => Some (onEnter captured (set_cardTrigger None s))  (* [once: true] *)
      | None => Some s
      end
  | TimerFire =>
      match pop_earliest (timers s) with
      | Some ((due, tk), rest) => Some (run_task tk (set_timers rest (set_now due s)))
      | None => None
      end
  | AnimationFrame t =>
      if Qle_bool (now s) t && forallb (fun tm => Qle_bool t (fst tm)) (timers s)
      then
        let callbacks := frameCallbacks s in
        Some (fold_left (fun st cb => call_animate t st (snd cb)) callbacks
                        (set_frames [] (nextHandle s) (set_now t s)))
      else None
  | MouseEnter index =>
      if mounted s && (index <? List.length statsData)%nat
      then Some (card_onMouseEnter index s) else None
  | MouseLeave index =>
      if mounted s && (index <? List.length statsData)%nat
      then Some (card_onMouseLeave index s) else None
  | Unmount =>
      if mounted s then Some (unmount s) else None
  end.

Fixpoint run (s : state) (evs : list event) : option state :=
  match evs with
  | [] => Some s
  | ev :: rest =>
      match step s ev with
      | Some s' => run s' rest
      | None => None
      end
  end.

(** *** Readings of the log *)

Definition is_write (a : action) : bool :=
  match a with TextWrite _ _ _ => true | _ => false end.

(** The entries recorded after the component was unmounted. *)
Fixpoint after_unmount (l : list (Q * action)) : list (Q * action) :=
  match l with
  | [] => []
  | (_, Unmounted) :: rest => rest
  | _ :: rest => after_unmount rest
  end.

Definition writes_after_unmount (s : state) : list (Q * action) :=
  filter (fun e => is_write (snd e)) (after_unmount (log s)).

(** The times at which the counter-start schedule ran. *)
Fixpoint schedule_times (l : list (Q * action)) : list Q :=
  match l with
  | [] => []
  | (t, CounterSchedule) :: rest => t :: schedule_times rest
  | _ :: rest => schedule_times rest
  end.

(** The times at which [onEnter] of the card group was called. *)
Fixpoint enter_times (l : list (Q * action)) : list Q :=
  match l with
  | [] => []
  | (t, CardTriggerEnter) :: rest => t :: enter_times rest
  | _ :: rest => enter_times rest
  end.

(** The events of the pointer. *)
Definition is_hover_event (ev : event) : bool :=
  match ev with
  | MouseEnter _ | MouseLeave _ => true
  | _ => false
  end.

Definition without_hover (evs : list event) : list event :=
  filter (fun ev => negb (is_hover_event ev)) evs.

(** ** The interpolation formula, as the specification words it *)

Definition clamp (x lo hi : Q) : Q :=
  if Qle_bool x lo then lo else if Qle_bool hi x then hi else x.

(** [value(t) = floor(finalValue * (1 - (1 - clamp((t - t0) / D, 0, 1))^2))] *)
Definition spec_value (finalValue : Z) (D t0 t : Q) : Z :=
  Qfloor (inject_Z finalValue * (1 - (1 - clamp ((t - t0) / D) 0 1) ^ 2)).

(** The progress the code computes on finite operands with [D <> 0]. *)
Definition code_progress (D t0 t : Q) : Q :=
  let q := (t + - t0) / D in if Qle_bool q 1 then q else 1.

(** The eased progress [1 - Math.pow(1 - progress, 2)] on a finite progress. *)
Definition eased (p : Q) : Q := 1 + - Qpow (1 + - p) 2.

(** The integer the code writes at time [t] on finite operands with [D <> 0]. *)
Definition code_value (finalValue : Z) (D t0 t : Q) : Z :=
  Qfloor (0 + (inject_Z finalValue + - 0) * eased (code_progress D t0 t)).

(** The frame times at which an interpolator started at [t0] with duration
    [D] runs a step: all of them up to the first one at or after [t0 + D]. *)
Fixpoint steps_until_done (D t0 : Q) (times : list Q) : list Q :=
  match times with
  | [] => []
  | t :: rest =>
      t :: (if Qle_bool (t0 + D) t then [] else steps_until_done D t0 rest)
  end.

(** The pending timers that will run the counter-start schedule. *)
Definition is_StartCounters (tk : task) : bool :=
  match tk with StartCounters => true | StartCounter _ => false end.

Definition pending_schedules (ts : list (Q * task)) : nat :=
  List.length (filter (fun tm => is_StartCounters (snd tm)) ts).

(** What links the card-group trigger, the pending timers and the log:
    before the first [onEnter] nothing is scheduled and no trigger closed
    over [hasAnimated = true]; after it no live trigger closed over
    [hasAnimated = false], and the schedule either is pending once, due 200ms
    after that first [onEnter], or ran once, at that time. *)
Definition schedule_ok (trig : option bool) (ts : list (Q * task))
    (enters schedules : list Q) : Prop :=
  match enters with
  | [] => schedules = [] /\ pending_schedules ts = O /\ trig <> Some true
  | t0 :: _ =>
      trig <> Some false
      /\ (List.length schedules + pending_schedules ts = 1)%nat
      /\ (forall t, In t schedules -> t = t0 + 200)
      /\ (forall d, In (d, StartCounters) ts -> d = t0 + 200)
  end.

Definition schedule_invariant (s : state) : Prop :=
  schedule_ok (cardTrigger s) (timers s)
              (enter_times (log s)) (schedule_times (log s)).

(** ** Invariants of the reachable states *)

(** An [animate] closure the component can have built: it belongs to a stat
    record, runs 1200ms towards that record's number, and started at a
    finite time not after [bound]. *)
Definition anim_ok (bound : Q) (a : animation) : Prop :=
  exists st q,
    nth_error statsData (element a) = Some st
    /\ finalNumber a = of_Z (number st)
    /\ duration a = of_Z 1200
    /\ startTime a = Fin q
    /\ q <= bound.

(** The pending frame callbacks carry distinct handles, all issued already,
    and closures the component built; [animationFrameRef.current] is the
    handle issued last (empty while none was issued); no timer is overdue. *)
Definition frames_ok (s : state) : Prop :=
  Forall (fun cb => (fst cb < nextHandle s)%nat /\ anim_ok (now s) (snd cb))
         (frameCallbacks s)
  /\ NoDup (map fst (frameCallbacks s))
  /\ match animationFrameRef s with
     | Some h => S h = nextHandle s
     | None => frameCallbacks s = []
     end
  /\ Forall (fun tm => now s <= fst tm) (timers s).



(** The staggered starts: a pending start timer of counter [i] is due, and a
    pending closure of counter [i] started, 80ms times [i] after the one run
    of the counter-start schedule; and before that run nothing was written. *)
Definition stagger_ok (s : state) : Prop :=
  (forall d i, In (d, StartCounter i) (timers s) ->
     exists Ts, schedule_times (log s) = [Ts]
                /\ d = Ts + inject_Z (Z.of_nat i) * 80)
  /\ (forall h a, In (h, a) (frameCallbacks s) ->
        exists Ts, schedule_times (log s) = [Ts]
                   /\ startTime a = Fin (Ts + inject_Z (Z.of_nat (element a)) * 80))
  /\ (schedule_times (log s) = [] ->
        Forall (fun entry => is_write (snd entry) = false) (log s)).




(** An unmounted component on which no counter was started: no frame step
    and no start timer is pending, and nothing was written. *)
Definition unmounted_idle (s : state) : Prop :=
  mounted s = false
  /\ frameCallbacks s = []
  /\ (forall d i, ~ In (d, StartCounter i) (timers s))
  /\ Forall (fun entry => is_write (snd entry) = false) (log s).


(** ** Environments and runs used as examples *)

Definition desktop : environment :=
  {| prefers_reduced_motion := false; hover_hover := true;
     pointer_fine := true; viewport_width := 1280 |}.

Definition desktop_reduced_motion : environment :=
  {| prefers_reduced_motion := true; hover_hover := true;
     pointer_fine := true; viewport_width := 1280 |}.

Definition touch_phone : environment :=
  {| prefers_reduced_motion := false; hover_hover := false;
     pointer_fine := false; viewport_width := 390 |}.

(** The grid enters the viewport at time 0; the 200ms timer and the four
    staggered timers run (at 200, 200, 280, 360 and 440). *)
Definition enter_and_start : list event :=
  [ScrollEnter; TimerFire; TimerFire; TimerFire; TimerFire; TimerFire].

(** ** The interpolator in binary64 arithmetic

    The module [B64] embeds [animateCounter] a second time, with the numbers
    JavaScript computes with: IEEE 754 binary64 values.  A finite value is
    the rational it denotes; every operation rounds the exact result to the
    nearest value of 53 significant bits (ties to even, gradual underflow
    below [2^-1022], overflow to an infinity from [2^1024] on), and zero
    carries a sign. *)

Module B64.

Definition pow2 (k : Z) : Q := 2 ^ k.

(** The binary exponent of a positive rational: the [k] with
    [2^k <= q < 2^(k+1)]. *)
Definition ilog2 (q : Q) : Z :=
  let k := (Z.log2 (Qnum q) - Z.log2 (Zpos (Qden q)))%Z in
  if Qle_bool (pow2 k) q then k else (k - 1)%Z.

(** The nearest integer, a tie going to the even one. *)
Definition round_even (q : Q) : Z :=
  let f := Qfloor q in
  let r := q - inject_Z f in
  if Qlt_bool r (1 # 2) then f
  else if Qlt_bool (1 # 2) r then (f + 1)%Z
  else if Z.even f then f else (f + 1)%Z.

(** The exponent of the smallest subnormal, [2^-1074]. *)
Definition emin : Z := (-1074)%Z.

(** The exponent of the last place of the binary64 values around the
    positive rational [q]. *)
Definition expo (q : Q) : Z := Z.max (ilog2 q - 52) emin.

(** A positive rational rounded to 53 significant bits, the last place
    never below [2^-1074]. *)
Definition round_pos (q : Q) : Q :=
  inject_Z (round_even (q / pow2 (expo q))) * pow2 (expo q).

(** Rounding to nearest, before the test for overflow. *)
Definition rnd (q : Q) : Q :=
  if Qeq_bool q 0 then 0
  else if Qlt_bool 0 q then round_pos q
  else - round_pos (- q).

(** The rounded value as a reduced fraction. *)
Definition fl (q : Q) : Q := Qred (rnd q).

(** A binary64 value: a finite one ([Fin 0] is [+0], [NegZero] is [-0]),
    an infinity or [NaN]. *)
Inductive num : Type :=
| Fin (q : Q)
| NegZero
| PosInf
| NegInf
| NaN.

Definition of_Z (z : Z) : num := Fin (inject_Z z).

Definition overflows (r : Q) : bool := Qle_bool (pow2 1024) (Qabs r).

(** The binary64 result of an operation whose exact result is the nonzero
    rational [q]: a result that rounds to zero keeps the sign of [q]. *)
Definition round (q : Q) : num :=
  if overflows (rnd q) then (if Qlt_bool 0 q then PosInf else NegInf)
  else if Qeq_bool (rnd q) 0 then (if Qlt_bool q 0 then NegZero else Fin 0)
  else Fin (fl q).

Definition signed_zero (negative : bool) : num :=
  if negative then NegZero else Fin 0.

Definition signed_inf (negative : bool) : num :=
  if negative then NegInf else PosInf.

Definition sign_bit (x : num) : bool :=
  match x with
  | Fin q => Qlt_bool q 0
  | NegZero | NegInf => true
  | PosInf | NaN => false
  end.

(** The rational a finite value denotes. *)
Definition finite_value (x : num) : option Q :=
  match x with
  | Fin q => Some q
  | NegZero => Some 0
  | _ => None
  end.

(** [- x] *)
Definition num_neg (x : num) : num :=
  match x with
  | Fin q => if Qeq_bool q 0 then NegZero else Fin (- q)
  | NegZero => Fin 0
  | PosInf => NegInf
  | NegInf => PosInf
  | NaN => NaN
  end.

(** [x + y]: an exact sum of zero is [+0], unless both operands are [-0]. *)
Definition num_add (x y : num) : num :=
  match x, y with
  | NaN, _ | _, NaN => NaN
  | PosInf, NegInf | NegInf, PosInf => NaN
  | PosInf, _ | _, PosInf => PosInf
  | NegInf, _ | _, NegInf => NegInf
  | NegZero, NegZero => NegZero
  | NegZero, Fin b => if Qeq_bool b 0 then Fin 0 else round b
  | Fin a, NegZero => if Qeq_bool a 0 then Fin 0 else round a
  | Fin a, Fin b => if Qeq_bool (a + b) 0 then Fin 0 else round (a + b)
  end.

(** [x - y] *)
Definition num_sub (x y : num) : num := num_add x (num_neg y).

(** [x * y]: the sign of a zero or infinite result is the product of the
    signs. *)
Definition num_mul (x y : num) : num :=
  let negative := xorb (sign_bit x) (sign_bit y) in
  match finite_value x, finite_value y with
  | Some a, Some b =>
      if Qeq_bool (a * b) 0 then signed_zero negative else round (a * b)
  | Some a, None =>
      match y with
      | NaN => NaN
      | _ => if Qeq_bool a 0 then NaN else signed_inf negative
      end
  | None, Some b =>
      match x with
      | NaN => NaN
      | _ => if Qeq_bool b 0 then NaN else signed_inf negative
      end
  | None, None =>
      match x, y with
      | NaN, _ | _, NaN => NaN
      | _, _ => signed_inf negative
      end
  end.

(** [x / y]: a nonzero value divided by a zero is the infinity whose sign is
    the product of the signs; [0 / 0] and [Infinity / Infinity] are [NaN]. *)
Definition num_div (x y : num) : num :=
  let negative := xorb (sign_bit x) (sign_bit y) in
  match finite_value x, finite_value y with
  | Some a, Some b =>
      if Qeq_bool b 0
      then (if Qeq_bool a 0 then NaN else signed_inf negative)
      else if Qeq_bool a 0 then signed_zero negative
      else round (a / b)
  | Some a, None => match y with NaN => NaN | _ => signed_zero negative end
  | None, Some b => match x with NaN => NaN | _ => signed_inf negative end
  | None, None => NaN
  end.

(** [x < y]: false as soon as an operand is [NaN]; the zeros are equal. *)
Definition num_lt (x y : num) : bool :=
  match x, y with
  | NaN, _ | _, NaN => false
  | PosInf, _ | _, NegInf => false
  | NegInf, _ | _, PosInf => true
  | NegZero, NegZero => false
  | NegZero, Fin b => Qlt_bool 0 b
  | Fin a, NegZero => Qlt_bool a 0
  | Fin a, Fin b => Qlt_bool a b
  end.

(** [Math.min(x, y)]; [-0] counts as smaller than [+0]. *)
Definition Math_min (x y : num) : num :=
  match x, y with
  | NaN, _ | _, NaN => NaN
  | NegInf, _ | _, NegInf => NegInf
  | PosInf, z | z, PosInf => z
  | NegZero, NegZero => NegZero
  | NegZero, Fin b => if Qlt_bool b 0 then Fin b else NegZero
  | Fin a, NegZero => if Qlt_bool a 0 then Fin a else NegZero
  | Fin a, Fin b => Fin (if Qle_bool a b then a else b)
  end.

(** [Math.pow(x, 2)]: the engines' [pow] returns [x * x] for the exponent 2. *)
Definition Math_pow2 (x : num) : num := num_mul x x.

(** [Math.floor(x)] *)
Definition Math_floor (x : num) : num :=
  match x with
  | Fin q => of_Z (Qfloor q)
  | other => other
  end.

(** [Number.prototype.toLocaleString] with the [en-US] grouping. *)
Definition toLocaleString (x : num) : string :=
  match x with
  | NaN => "NaN"
  | PosInf => "∞"
  | NegInf => "-∞"
  | NegZero => "-0"
  | Fin q =>
      let z := Qfloor q in
      if (z <? 0)%Z
      then String "-"%char (grouped_string_of_N (Z.to_N (- z)))
      else grouped_string_of_N (Z.to_N z)
  end.

Record animation : Type := {
  element : nat;
  finalNumber : num;
  duration : num;
  startTime : num
}.

Definition startValue : num := of_Z 0.

Definition default_duration : num := of_Z 1500.

Definition animateCounter (now : num) (el : nat) (final : num)
    (dur : option num) : animation :=
  {| element := el;
     finalNumber := final;
     duration := match dur with Some d => d | None => default_duration end;
     startTime := now |}.

Definition progress_at (a : animation) (currentTime : num) : num :=
  let elapsed := num_sub currentTime (startTime a) in
  Math_min (num_div elapsed (duration a)) (of_Z 1).

Definition currentValue_at (a : animation) (currentTime : num) : num :=
  let progress := progress_at a currentTime in
  let easedProgress := num_sub (of_Z 1) (Math_pow2 (num_sub (of_Z 1) progress)) in
  Math_floor
    (num_add startValue
       (num_mul (num_sub (finalNumber a) startValue) easedProgress)).

(** One invocation of [animate(currentTime)]: the value written (before
    formatting) and whether the next step is requested. *)
Definition animate (a : animation) (currentTime : num) : num * bool :=
  (currentValue_at a currentTime, num_lt (progress_at a currentTime) (of_Z 1)).

(** The value [animate] writes, as a function of the progress. *)
Definition value_of_progress (finalNumber progress : num) : num :=
  let easedProgress := num_sub (of_Z 1) (Math_pow2 (num_sub (of_Z 1) progress)) in
  Math_floor
    (num_add startValue (num_mul (num_sub finalNumber startValue) easedProgress)).

(** The values one interpolator emits at the given frame times, up to the
    first step that does not reschedule. *)
Fixpoint emitted (a : animation) (times : list num) : list num :=
  match times with
  | [] => []
  | t :: rest =>
      let (v, again) := animate a t in
      v :: (if again then emitted a rest else [])
  end.

(** *** The same computation on rationals

    For a start time [t0], a duration [D > 0] and a final value
    [finalValue >= 0], the rationals the steps of [animate] go through at a
    time [t >= t0]. *)

Definition progress64 (D t0 t : Q) : Q :=
  let q := fl (fl (t - t0) / D) in if Qle_bool q 1 then q else 1.

Definition eased64 (p : Q) : Q :=
  let u := fl (1 - p) in fl (1 - fl (u * u)).

Definition value64 (finalValue : Z) (D t0 t : Q) : Z :=
  Qfloor (fl (0 + fl (fl (inject_Z finalValue - 0) * eased64 (progress64 D t0 t)))).

(** The frame times at which the interpolator runs a step: all of them up
    to the first one whose progress is 1. *)
Fixpoint steps64 (D t0 : Q) (times : list Q) : list Q :=
  match times with
  | [] => []
  | t :: rest =>
      t :: (if Qlt_bool (progress64 D t0 t) 1 then steps64 D t0 rest else [])
  end.

(** *** Ranges of values

    [non_positive]: [-0], [-Infinity] or a finite value that is at most 0;
    [at_least_one]: [+Infinity] or a finite value that is at least 1;
    [at_most_zero]: a whole number that is at most 0, [-Infinity] or [NaN]. *)

Definition non_positive (x : num) : Prop :=
  x = NegZero \/ x = NegInf \/ exists q, x = Fin q /\ q <= 0.

Definition at_least_one (x : num) : Prop :=
  x = PosInf \/ exists u, x = Fin u /\ 1 <= u.

Definition at_most_zero (x : num) : Prop :=
  (exists z : Z, (z <= 0)%Z /\ x = of_Z z) \/ x = NegInf \/ x = NaN.

(** A rational that is a binary64 value. *)
Definition representable (q : Q) : Prop :=
  rnd q == q /\ Qabs q < pow2 1024.

End B64.

(** * Properties *)

(** ** Arithmetic of the easing curve *)

Lemma Qle_bool_false_lt (a b : Q) : Qle_bool a b = false -> b < a.
Proof.
  intro H. apply Qnot_le_lt. intro Hle.
  apply Qle_bool_iff in Hle. congruence.
Qed.

Lemma Qlt_bool_true_iff (a b : Q) : Qlt_bool a b = true <-> a < b.
Proof.
  unfold Qlt_bool. split; intro H.
  - apply negb_true_iff in H. now apply Qle_bool_false_lt.
  - apply negb_true_iff. destruct (Qle_bool b a) eqn:E; [|reflexivity].
    apply Qle_bool_iff in E. exfalso. apply (Qlt_not_le _ _ H E).
Qed.

Lemma Qeq_bool_pos_false (d : Q) : 0 < d -> Qeq_bool d 0 = false.
Proof.
  intro H. destruct (Qeq_bool d 0) eqn:E; [|reflexivity].
  apply Qeq_bool_iff in E. rewrite E in H. exfalso. apply (Qlt_irrefl _ H).
Qed.

Lemma Qeq_bool_neg_false (d : Q) : d < 0 -> Qeq_bool d 0 = false.
Proof.
  intro H. destruct (Qeq_bool d 0) eqn:E; [|reflexivity].
  apply Qeq_bool_iff in E. rewrite E in H. exfalso. apply (Qlt_irrefl _ H).
Qed.

Lemma Qdiv_nonneg (a d : Q) : 0 <= a -> 0 < d -> 0 <= a / d.
Proof.
  intros Ha Hd. unfold Qdiv. apply Qmult_le_0_compat; [assumption|].
  apply Qlt_le_weak. now apply Qinv_lt_0_compat.
Qed.

Lemma Qdiv_le_mono (a b d : Q) : a <= b -> 0 < d -> a / d <= b / d.
Proof.
  intros Hab Hd. unfold Qdiv. apply Qmult_le_compat_r; [assumption|].
  apply Qlt_le_weak. now apply Qinv_lt_0_compat.
Qed.

Lemma Qdiv_ge_1 (a d : Q) : 0 < d -> d <= a -> 1 <= a / d.
Proof.
  intros Hd Hda. apply Qle_shift_div_l; [assumption|]. now rewrite Qmult_1_l.
Qed.

Lemma Qdiv_lt_1 (a d : Q) : 0 < d -> a < d -> a / d < 1.
Proof.
  intros Hd Hda. apply Qlt_shift_div_r; [assumption|]. now rewrite Qmult_1_l.
Qed.

Lemma code_progress_range (D t0 t : Q) :
  0 < D -> t0 <= t -> 0 <= code_progress D t0 t <= 1.
Proof.
  intros HD Ht. unfold code_progress. cbv zeta.
  assert (H0 : 0 <= (t + - t0) / D) by (apply Qdiv_nonneg; [lra|assumption]).
  destruct (Qle_bool ((t + - t0) / D) 1) eqn:E.
  - apply Qle_bool_iff in E. split; assumption.
  - split; lra.
Qed.

Lemma code_progress_mono (D t0 t t' : Q) :
  0 < D -> t <= t' -> code_progress D t0 t <= code_progress D t0 t'.
Proof.
  intros HD Ht. unfold code_progress. cbv zeta.
  assert (Hq : (t + - t0) / D <= (t' + - t0) / D)
    by (apply Qdiv_le_mono; [lra|assumption]).
  destruct (Qle_bool ((t + - t0) / D) 1) eqn:E;
    destruct (Qle_bool ((t' + - t0) / D) 1) eqn:E'.
  - assumption.
  - now apply Qle_bool_iff in E.
  - apply Qle_bool_false_lt in E. apply Qle_bool_iff in E'. lra.
  - lra.
Qed.

Lemma code_progress_done (D t0 t : Q) :
  0 < D -> t0 + D <= t -> code_progress D t0 t == 1.
Proof.
  intros HD Ht. unfold code_progress. cbv zeta.
  assert (H1 : 1 <= (t + - t0) / D) by (apply Qdiv_ge_1; [assumption|lra]).
  destruct (Qle_bool ((t + - t0) / D) 1) eqn:E.
  - apply Qle_bool_iff in E. lra.
  - reflexivity.
Qed.

Lemma code_progress_running (D t0 t : Q) :
  0 < D -> t < t0 + D -> code_progress D t0 t < 1.
Proof.
  intros HD Ht. unfold code_progress. cbv zeta.
  assert (H1 : (t + - t0) / D < 1) by (apply Qdiv_lt_1; [assumption|lra]).
  destruct (Qle_bool ((t + - t0) / D) 1) eqn:E.
  - assumption.
  - apply Qle_bool_false_lt in E. lra.
Qed.

Lemma eased_range (p : Q) : 0 <= p <= 1 -> 0 <= eased p <= 1.
Proof. intros [H0 H1]. unfold eased. simpl. split; nra. Qed.

Lemma eased_mono (p p' : Q) : 0 <= p -> p <= p' -> p' <= 1 -> eased p <= eased p'.
Proof. intros H0 H H1. unfold eased. simpl. nra. Qed.

Lemma eased_one (p : Q) : p == 1 -> eased p == 1.
Proof. intro H. unfold eased. simpl. rewrite H. reflexivity. Qed.

(** ** The interpolator on valid input *)

Lemma animate_finite (el : nat) (F : Z) (D t0 t : Q) :
  Qeq_bool D 0 = false ->
  animate (animateCounter (Fin t0) el (of_Z F) (Some (Fin D))) (Fin t)
  = (of_Z (code_value F D t0 t), Qlt_bool (code_progress D t0 t) 1).
Proof.
  intro HD.
  unfold animate, currentValue_at, progress_at, animateCounter.
  cbn [startTime duration finalNumber element].
  unfold num_sub, startValue, of_Z.
  cbn [num_neg num_add num_div]. rewrite HD.
  cbn [Math_min Math_pow num_neg num_add num_mul Math_floor num_lt].
  reflexivity.
Qed.

Lemma code_value_spec (F : Z) (D t0 t : Q) :
  0 < D -> t0 <= t -> code_value F D t0 t = spec_value F D t0 t.
Proof.
  intros HD Ht. unfold code_value, spec_value. apply Qfloor_comp.
  assert (Hp : code_progress D t0 t == clamp ((t - t0) / D) 0 1).
  { unfold code_progress, clamp. cbv zeta. unfold Qminus.
    assert (H0 : 0 <= (t + - t0) / D) by (apply Qdiv_nonneg; [lra|assumption]).
    destruct (Qle_bool ((t + - t0) / D) 1) eqn:E1;
      destruct (Qle_bool ((t + - t0) / D) 0) eqn:E0;
      destruct (Qle_bool 1 ((t + - t0) / D)) eqn:E2;
      try reflexivity;
      repeat match goal with
             | H : Qle_bool _ _ = true |- _ => apply Qle_bool_iff in H
             | H : Qle_bool _ _ = false |- _ => apply Qle_bool_false_lt in H
             end; lra. }
  unfold eased. simpl Qpow. rewrite Hp.
  change (inject_Z 0) with 0. ring.
Qed.

Lemma code_value_bounds (F : Z) (D t0 t : Q) :
  (0 <= F)%Z -> 0 < D -> t0 <= t -> (0 <= code_value F D t0 t <= F)%Z.
Proof.
  intros HF HD Ht. unfold code_value.
  pose proof (eased_range (code_progress_range HD Ht)) as [He0 He1].
  assert (HFq : 0 <= inject_Z F) by (change 0 with (inject_Z 0); now rewrite <- Zle_Qle).
  set (e := eased (code_progress D t0 t)) in *.
  split.
  - apply Z.le_trans with (Qfloor 0); [vm_compute; discriminate|].
    apply Qfloor_resp_le. nra.
  - rewrite <- (Qfloor_Z F) at 2. apply Qfloor_resp_le. nra.
Qed.

Lemma code_value_mono (F : Z) (D t0 t t' : Q) :
  (0 <= F)%Z -> 0 < D -> t0 <= t -> t <= t' ->
  (code_value F D t0 t <= code_value F D t0 t')%Z.
Proof.
  intros HF HD Ht Htt. unfold code_value. apply Qfloor_resp_le.
  assert (Ht' : t0 <= t') by lra.
  pose proof (code_progress_range HD Ht) as [Hp0 Hp1].
  pose proof (code_progress_range HD Ht') as [Hq0 Hq1].
  pose proof (eased_mono Hp0 (code_progress_mono t0 HD Htt) Hq1) as Hm.
  assert (HFq : 0 <= inject_Z F) by (change 0 with (inject_Z 0); now rewrite <- Zle_Qle).
  nra.
Qed.

Lemma code_value_done (F : Z) (D t0 t : Q) :
  0 < D -> t0 + D <= t -> code_value F D t0 t = F.
Proof.
  intros HD Ht. unfold code_value.
  rewrite <- (Qfloor_Z F) at 2. apply Qfloor_comp.
  rewrite (eased_one (code_progress_done HD Ht)). ring.
Qed.

Lemma again_iff_running (D t0 t : Q) :
  0 < D -> Qlt_bool (code_progress D t0 t) 1 = negb (Qle_bool (t0 + D) t).
Proof.
  intro HD. destruct (Qle_bool (t0 + D) t) eqn:E; cbn [negb].
  - apply Qle_bool_iff in E.
    destruct (Qlt_bool (code_progress D t0 t) 1) eqn:E'; [|reflexivity].
    apply Qlt_bool_true_iff in E'. rewrite (code_progress_done HD E) in E'.
    exfalso. apply (Qlt_irrefl _ E').
  - apply Qle_bool_false_lt in E. apply Qlt_bool_true_iff.
    now apply code_progress_running.
Qed.

Lemma emitted_code_value (el : nat) (F : Z) (D t0 : Q) (times : list Q) :
  0 < D ->
  emitted (animateCounter (Fin t0) el (of_Z F) (Some (Fin D))) (map Fin times)
  = map of_Z (map (code_value F D t0) (steps_until_done D t0 times)).
Proof.
  intro HD. induction times as [|t rest IH]; [reflexivity|].
  cbn [map emitted steps_until_done].
  rewrite (animate_finite el F D t0 t (Qeq_bool_pos_false HD)).
  rewrite (again_iff_running t0 t HD).
  destruct (Qle_bool (t0 + D) t); cbn [negb map]; [reflexivity|].
  now rewrite IH.
Qed.

Lemma steps_until_done_In (D t0 : Q) (times : list Q) (t : Q) :
  In t (steps_until_done D t0 times) -> In t times.
Proof.
  induction times as [|u rest IH]; cbn [steps_until_done]; [tauto|].
  intros [H|H]; [now left|].
  destruct (Qle_bool (t0 + D) u); [destruct H|]. right. now apply IH.
Qed.

Lemma steps_until_done_sorted (D t0 : Q) (times : list Q) :
  StronglySorted Qle times -> StronglySorted Qle (steps_until_done D t0 times).
Proof.
  induction 1 as [|u rest Hs IH Hall]; cbn [steps_until_done]; [constructor|].
  destruct (Qle_bool (t0 + D) u).
  - constructor; constructor.
  - constructor; [assumption|].
    rewrite Forall_forall in *. intros x Hx. apply Hall.
    now apply steps_until_done_In in Hx.
Qed.

Lemma steps_until_done_last (D t0 : Q) (times : list Q) :
  Exists (fun t => t0 + D <= t) times ->
  exists pre t, steps_until_done D t0 times = pre ++ [t] /\ t0 + D <= t.
Proof.
  induction times as [|u rest IH]; intro H; [inversion H|].
  cbn [steps_until_done].
  destruct (Qle_bool (t0 + D) u) eqn:E.
  - exists [], u. split; [reflexivity|now apply Qle_bool_iff].
  - inversion H as [? ? Hu|? ? Hr]; subst.
    + apply Qle_bool_iff in Hu. congruence.
    + destruct (IH Hr) as (pre & t & Heq & Ht).
      exists (u :: pre), t. rewrite Heq. split; [reflexivity|assumption].
Qed.

Lemma code_values_sorted (F : Z) (D t0 : Q) (ts : list Q) :
  (0 <= F)%Z -> 0 < D -> StronglySorted Qle (t0 :: ts) ->
  StronglySorted Z.le (map (code_value F D t0) ts).
Proof.
  intros HF HD Hs. inversion Hs as [|? ? Hts Hall]; subst. clear Hs.
  induction Hts as [|u rest Hrest IH Hu]; cbn [map]; [constructor|].
  inversion Hall as [|? ? Hu0 Hall']; subst.
  constructor; [now apply IH|].
  rewrite Forall_forall in *. intros v Hv.
  apply in_map_iff in Hv. destruct Hv as (t & <- & Hin).
  apply code_value_mono; try assumption. now apply Hu.
Qed.

(** In exact arithmetic the interpolator computes the formula of the
    specification.  For every integer [finalValue >= 0], every duration
    [D > 0] and every non-decreasing sequence of step times starting at
    [t0], the exact interpolator emits one integer per step up to the first
    step at or after [t0 + D]; each is the value of the specification's
    formula; the sequence is non-decreasing and lies in [[0, finalValue]];
    when the steps reach [t0 + D] the last emitted value is exactly
    [finalValue]; and for [finalValue = 0] every emitted value is 0.  (The
    sequence the binary64 interpolator emits is treated with the module
    [B64], further down.) *)
Theorem emitted_nondecreasing_bounded_exact
    (el : nat) (finalValue : Z) (D t0 : Q) (times : list Q) :
  (0 <= finalValue)%Z -> 0 < D -> StronglySorted Qle (t0 :: times) ->
  let vs := map (spec_value finalValue D t0) (steps_until_done D t0 times) in
  emitted (animateCounter (Fin t0) el (of_Z finalValue) (Some (Fin D)))
          (map Fin times) = map of_Z vs
  /\ StronglySorted Z.le vs
  /\ Forall (fun v => (0 <= v <= finalValue)%Z) vs
  /\ (Exists (fun t => t0 + D <= t) times -> exists pre, vs = pre ++ [finalValue])
  /\ (finalValue = 0%Z -> Forall (fun v => v = 0%Z) vs).
Proof.
  intros HF HD Hs vs.
  assert (Hge : forall t, In t (steps_until_done D t0 times) -> t0 <= t).
  { intros t Hin. apply steps_until_done_In in Hin.
    inversion Hs as [|? ? _ Hall]; subst.
    rewrite Forall_forall in Hall. now apply Hall. }
  assert (Hvs : vs = map (code_value finalValue D t0) (steps_until_done D t0 times)).
  { subst vs. apply map_ext_in. intros t Hin. symmetry.
    apply code_value_spec; [assumption|now apply Hge]. }
  assert (Hb : Forall (fun v => (0 <= v <= finalValue)%Z) vs).
  { rewrite Hvs. rewrite Forall_forall. intros v Hv.
    apply in_map_iff in Hv. destruct Hv as (t & <- & Hin).
    apply code_value_bounds; auto. }
  split; [|split; [|split; [|split]]].
  - rewrite Hvs. now apply emitted_code_value.
  - rewrite Hvs. apply code_values_sorted; try assumption.
    inversion Hs as [|? ? Hts Hall]; subst.
    constructor; [now apply steps_until_done_sorted|].
    rewrite Forall_forall in *. intros t Hin. apply Hall.
    now apply steps_until_done_In in Hin.
  - exact Hb.
  - intro Hex. destruct (steps_until_done_last Hex) as (pre & t & Heq & Ht).
    exists (map (code_value finalValue D t0) pre).
    rewrite Hvs, Heq, map_app. cbn [map].
    now rewrite (code_value_done finalValue HD Ht).
  - intros ->. revert Hb. apply Forall_impl. intros v Hv. lia.
Qed.

(** ** The interpolator on invalid input *)



(** With a negative duration the progress of a step at or after [t0] is not
    positive, so the eased progress is not positive either. *)
Lemma code_progress_negative_duration (D t0 t : Q) :
  D < 0 -> t0 <= t -> code_progress D t0 t <= 0.
Proof.
  intros HD Ht. unfold code_progress. cbv zeta.
  assert (Hq : (t + - t0) / D <= 0).
  { setoid_replace ((t + - t0) / D) with (- ((t + - t0) / - D)).
    - assert (0 <= (t + - t0) / - D) by (apply Qdiv_nonneg; lra). lra.
    - field. lra. }
  destruct (Qle_bool ((t + - t0) / D) 1) eqn:E; [assumption|].
  apply Qle_bool_false_lt in E. lra.
Qed.

Lemma eased_nonpositive (p : Q) : p <= 0 -> eased p <= 0.
Proof. intro H. unfold eased. simpl. nra. Qed.



(** C8, as the code has it.  The default duration of [animateCounter] is
    1500ms; the component's own invocation supplies 1200ms explicitly for
    each of its counters. *)
Theorem default_duration_is_1500 (t : num) (el : nat) (final : num) :
  duration (animateCounter t el final None) = of_Z 1500
  /\ forall (s : state) (index : nat),
       match nth_error statsData index with
       | Some st =>
           frameCallbacks (run_task (StartCounter index) s)
           = frameCallbacks s
             ++ [(nextHandle s,
                  {| element := index; finalNumber := of_Z (number st);
                     duration := of_Z 1200; startTime := Fin (now s) |})]
       | None => run_task (StartCounter index) s = s
       end.
Proof.
  split; [reflexivity|]. intros s index. cbn [run_task].
  destruct (nth_error statsData index); reflexivity.
Qed.

(** C8, refuted as stated: a call without a duration does not run with
    1200ms. *)
Lemma default_duration_is_not_1200 :
  duration (animateCounter (Fin 0) 0 (of_Z 500) None) <> of_Z 1200.
Proof. cbn. unfold default_duration, of_Z, inject_Z. intro H. discriminate H. Qed.

(** ** Hover state *)

(** C10. A pointer-leave on any card [i] clears the hover state whatever
    card is hovered: after a pointer-enter on card [j] followed by a
    pointer-leave on card [i] (equal to [j] or not), no card is hovered. *)
Theorem mouse_leave_clears_hover_unconditionally (s : state) (i j : nat) :
  mounted s = true ->
  (i < List.length statsData)%nat -> (j < List.length statsData)%nat ->
  hoveredCard (card_onMouseLeave i s) = None
  /\ exists s', run s [MouseEnter j; MouseLeave i] = Some s'
                /\ hoveredCard s' = None.
Proof.
  intros Hm Hi Hj. split; [reflexivity|].
  apply Nat.ltb_lt in Hi, Hj.
  cbn [run step]. rewrite Hm, Hj. cbn [andb].
  unfold card_onMouseEnter, handleMouseEnter, setHoveredCard at 1.
  cbn [mounted]. rewrite Hm, Hi. cbn [andb].
  eexists. split; reflexivity.
Qed.

(** *** The hover state is not read by the counters *)

Section HoverCommutes.
Variable h : option nat.

Lemma fold_left_commute (A : Type) (f : state -> A -> state) (g : state -> state) :
  (forall s a, f (g s) a = g (f s a)) ->
  forall l s, fold_left f l (g s) = g (fold_left f l s).
Proof.
  intros Hfg l. induction l as [|a l IH]; intro s; cbn [fold_left]; [reflexivity|].
  now rewrite Hfg, IH.
Qed.

Lemma setTimeout_hover tk d s :
  setTimeout tk d (setHoveredCard h s) = setHoveredCard h (setTimeout tk d s).
Proof. reflexivity. Qed.

Lemma cancel_current_frame_hover s :
  cancel_current_frame (setHoveredCard h s)
  = setHoveredCard h (cancel_current_frame s).
Proof.
  unfold cancel_current_frame. cbn [setHoveredCard animationFrameRef].
  destruct (animationFrameRef s); reflexivity.
Qed.

Lemma schedule_frame_hover a s :
  schedule_frame a (setHoveredCard h s) = setHoveredCard h (schedule_frame a s).
Proof. reflexivity. Qed.

Lemma call_animate_hover t s a :
  call_animate t (setHoveredCard h s) a = setHoveredCard h (call_animate t s a).
Proof.
  unfold call_animate. destruct (animate a (Fin t)) as [v again].
  destruct again; reflexivity.
Qed.

Lemma setHasAnimated_hover v s :
  setHasAnimated v (setHoveredCard h s) = setHoveredCard h (setHasAnimated v s).
Proof.
  unfold setHasAnimated. cbn [setHoveredCard mounted hasAnimated].
  destruct (mounted s); [|reflexivity].
  destruct (Bool.eqb (hasAnimated s) v); [reflexivity|].
  reflexivity.
Qed.

Lemma run_task_hover tk s :
  run_task tk (setHoveredCard h s) = setHoveredCard h (run_task tk s).
Proof.
  destruct tk as [|index]; cbn [run_task].
  - change (record CounterSchedule (setHoveredCard h s))
      with (setHoveredCard h (record CounterSchedule s)).
    change (querySelectorAll_counter_number (setHoveredCard h (record CounterSchedule s)))
      with (querySelectorAll_counter_number (record CounterSchedule s)).
    rewrite fold_left_commute by (intros; apply setTimeout_hover).
    apply setHasAnimated_hover.
  - destruct (nth_error statsData index); reflexivity.
Qed.

Lemma unmount_hover s :
  unmount (setHoveredCard h s) = setHoveredCard h (unmount s).
Proof.
  unfold unmount, unmount_cleanup, gsap_cleanup.
  change (set_cardTrigger None (setHoveredCard h s))
    with (setHoveredCard h (set_cardTrigger None s)).
  now rewrite !cancel_current_frame_hover.
Qed.

Lemma step_hover_commutes s ev :
  is_hover_event ev = false ->
  step (setHoveredCard h s) ev = option_map (setHoveredCard h) (step s ev).
Proof.
  intro Hev. destruct ev as [| |t|i|i|]; try discriminate Hev; cbn [step].
  - cbn [setHoveredCard cardTrigger].
    destruct (cardTrigger s) as [captured|]; [|reflexivity].
    destruct captured; reflexivity.
  - cbn [setHoveredCard timers].
    destruct (pop_earliest (timers s)) as [[[due tk] rest]|]; [|reflexivity].
    cbn [option_map]. f_equal.
    change (set_timers rest (set_now due (setHoveredCard h s)))
      with (setHoveredCard h (set_timers rest (set_now due s))).
    apply run_task_hover.
  - cbn [setHoveredCard now timers frameCallbacks nextHandle].
    destruct (Qle_bool (now s) t && forallb (fun tm => Qle_bool t (fst tm)) (timers s));
      [|reflexivity].
    cbn [option_map]. f_equal.
    change (set_frames [] (nextHandle s) (set_now t (setHoveredCard h s)))
      with (setHoveredCard h (set_frames [] (nextHandle s) (set_now t s))).
    apply fold_left_commute. intros s0 cb. apply call_animate_hover.
  - cbn [setHoveredCard mounted]. destruct (mounted s); [|reflexivity].
    cbn [option_map]. f_equal. apply unmount_hover.
Qed.
End HoverCommutes.

Lemma step_hover_only_hover (s s' : state) (ev : event) :
  is_hover_event ev = true -> step s ev = Some s' ->
  setHoveredCard None s' = setHoveredCard None s.
Proof.
  intros Hev Hstep. destruct ev as [| |t|i|i|]; try discriminate Hev;
    cbn [step] in Hstep;
    destruct (mounted s && (i <? List.length statsData)%nat); try discriminate Hstep;
    injection Hstep as <-; reflexivity.
Qed.

Lemma run_without_hover (tr : list event) :
  forall s s', run s tr = Some s' ->
  run (setHoveredCard None s) (without_hover tr) = Some (setHoveredCard None s').
Proof.
  induction tr as [|ev rest IH]; intros s s' Hrun.
  - injection Hrun as <-. reflexivity.
  - cbn [run] in Hrun. destruct (step s ev) as [s1|] eqn:Hstep; [|discriminate].
    unfold without_hover. cbn [filter]. fold (without_hover rest).
    destruct (is_hover_event ev) eqn:Hev; cbn [negb].
    + rewrite <- (step_hover_only_hover s ev Hev Hstep). now apply IH.
    + cbn [run]. rewrite (step_hover_commutes None s ev Hev), Hstep.
      cbn [option_map]. now apply IH.
Qed.

(** C9. Two runs of a mounted component that differ only in their pointer
    enter and leave events record the same text writes at the same times,
    and end with the same displayed texts, pending frame steps, pending
    timers and clock: the hover history affects neither the values nor the
    timing of the counters. *)
Theorem counters_independent_of_hover
    (e : environment) (tr1 tr2 : list event) (s1 s2 : state) :
  without_hover tr1 = without_hover tr2 ->
  run (init e) tr1 = Some s1 -> run (init e) tr2 = Some s2 ->
  log s1 = log s2
  /\ textContent s1 = textContent s2
  /\ frameCallbacks s1 = frameCallbacks s2
  /\ timers s1 = timers s2
  /\ now s1 = now s2.
Proof.
  intros Htr H1 H2.
  apply run_without_hover in H1, H2.
  change (setHoveredCard None (init e)) with (init e) in H1, H2.
  rewrite Htr in H1. rewrite H1 in H2.
  assert (Heq : setHoveredCard None s1 = setHoveredCard None s2) by congruence.
  repeat split.
  - exact (f_equal log Heq).
  - exact (f_equal textContent Heq).
  - exact (f_equal frameCallbacks Heq).
  - exact (f_equal timers Heq).
  - exact (f_equal now Heq).
Qed.

(** ** The counter-start schedule *)

Lemma schedule_times_app (l l' : list (Q * action)) :
  schedule_times (l ++ l') = schedule_times l ++ schedule_times l'.
Proof.
  induction l as [|[t a] l IH]; [reflexivity|].
  destruct a; cbn [app schedule_times]; now rewrite IH.
Qed.

Lemma enter_times_app (l l' : list (Q * action)) :
  enter_times (l ++ l') = enter_times l ++ enter_times l'.
Proof.
  induction l as [|[t a] l IH]; [reflexivity|].
  destruct a; cbn [app enter_times]; now rewrite IH.
Qed.

Lemma pending_schedules_app (ts ts' : list (Q * task)) :
  pending_schedules (ts ++ ts')
  = (pending_schedules ts + pending_schedules ts')%nat.
Proof. unfold pending_schedules. now rewrite filter_app, length_app. Qed.

Lemma pending_schedules_none (ts : list (Q * task)) (d : Q) :
  pending_schedules ts = O -> ~ In (d, StartCounters) ts.
Proof.
  unfold pending_schedules. intros H Hin.
  assert (Hf : In (d, StartCounters) (filter (fun tm => is_StartCounters (snd tm)) ts))
    by (apply filter_In; split; [assumption|reflexivity]).
  destruct (filter _ ts); [destruct Hf|discriminate H].
Qed.

Lemma pending_schedules_some (ts : list (Q * task)) :
  (0 < pending_schedules ts)%nat -> exists d, In (d, StartCounters) ts.
Proof.
  unfold pending_schedules. intro H.
  destruct (filter (fun tm => is_StartCounters (snd tm)) ts) as [|[d tk] l] eqn:E;
    [cbn in H; lia|].
  assert (Hin : In (d, tk) (filter (fun tm => is_StartCounters (snd tm)) ts))
    by (rewrite E; now left).
  apply filter_In in Hin. destruct Hin as [Hin Htk].
  destruct tk; [|discriminate Htk]. now exists d.
Qed.

Lemma pop_earliest_spec (ts : list (Q * task)) :
  forall x rest, pop_earliest ts = Some (x, rest) ->
  In x ts
  /\ (forall y, In y rest -> In y ts)
  /\ pending_schedules ts
     = ((if is_StartCounters (snd x) then 1 else 0) + pending_schedules rest)%nat.
Proof.
  induction ts as [|y ts IH]; intros x rest H; [discriminate H|].
  cbn [pop_earliest] in H.
  destruct (pop_earliest ts) as [[z rest']|] eqn:E.
  - destruct (IH z rest' eq_refl) as (Hin & Hsub & Hcount).
    destruct (Qle_bool (fst y) (fst z)); injection H as <- <-.
    + split; [now left|]. split; [intros w Hw; now right|].
      unfold pending_schedules. cbn [filter].
      destruct (is_StartCounters (snd y)); reflexivity.
    + split; [now right|]. split.
      * intros w [Hw|Hw]; [now left|right; now apply Hsub].
      * unfold pending_schedules in *. cbn [filter].
        destruct (is_StartCounters (snd y)); cbn [List.length]; rewrite Hcount; lia.
  - assert (Hts : ts = []).
    { destruct ts as [|w ts']; [reflexivity|]. cbn [pop_earliest] in E.
      destruct (pop_earliest ts') as [[? ?]|];
        [destruct (Qle_bool (fst w) (fst p))|]; discriminate E. }
    subst ts. injection H as <- <-. split; [now left|]. split; [intros w []|].
    unfold pending_schedules. cbn [filter].
    destruct (is_StartCounters (snd y)); reflexivity.
Qed.

(** The staggered start timers leave the trigger and the log alone and add no
    schedule timer. *)
Lemma stagger_timers (counters : list nat) :
  forall s,
    let s' := fold_left
                (fun st index =>
                   setTimeout (StartCounter index) (inject_Z (Z.of_nat index) * 80) st)
                counters s in
    cardTrigger s' = cardTrigger s /\ log s' = log s
    /\ pending_schedules (timers s') = pending_schedules (timers s)
    /\ (forall d, In (d, StartCounters) (timers s') -> In (d, StartCounters) (timers s)).
Proof.
  induction counters as [|c counters IH]; intro s; cbn [fold_left].
  - repeat split; auto.
  - destruct (IH (setTimeout (StartCounter c) (inject_Z (Z.of_nat c) * 80) s))
      as (Ht & Hl & Hp & Hin).
    cbv zeta. rewrite Ht, Hl, Hp. cbn [setTimeout set_timers cardTrigger log timers].
    repeat split.
    + rewrite pending_schedules_app. unfold pending_schedules at 2. cbn. lia.
    + intros d Hd. apply Hin in Hd. cbn [setTimeout set_timers timers] in Hd.
      apply in_app_or in Hd. destruct Hd as [Hd|[Hd|[]]]; [assumption|discriminate Hd].
Qed.

Lemma setHasAnimated_true_view (s : state) :
  (cardTrigger (setHasAnimated true s) = cardTrigger s
   \/ cardTrigger (setHasAnimated true s) = Some true)
  /\ timers (setHasAnimated true s) = timers s
  /\ log (setHasAnimated true s) = log s.
Proof.
  unfold setHasAnimated.
  destruct (mounted s); [|auto].
  destruct (hasAnimated s); cbn [Bool.eqb]; [auto|].
  unfold gsap_setup. cbn. auto.
Qed.

Lemma call_animate_view (t : Q) (s : state) (a : animation) :
  cardTrigger (call_animate t s a) = cardTrigger s
  /\ timers (call_animate t s a) = timers s
  /\ enter_times (log (call_animate t s a)) = enter_times (log s)
  /\ schedule_times (log (call_animate t s a)) = schedule_times (log s).
Proof.
  unfold call_animate. destruct (animate a (Fin t)) as [v again].
  destruct again; cbn; rewrite enter_times_app, schedule_times_app; cbn;
    rewrite !app_nil_r; auto.
Qed.

Lemma frame_callbacks_view (t : Q) (cbs : list (nat * animation)) :
  forall s,
    let s' := fold_left (fun st cb => call_animate t st (snd cb)) cbs s in
    cardTrigger s' = cardTrigger s
    /\ timers s' = timers s
    /\ enter_times (log s') = enter_times (log s)
    /\ schedule_times (log s') = schedule_times (log s).
Proof.
  induction cbs as [|cb cbs IH]; intro s; cbn [fold_left]; [auto|].
  destruct (IH (call_animate t s (snd cb))) as (H1 & H2 & H3 & H4).
  destruct (call_animate_view t s (snd cb)) as (G1 & G2 & G3 & G4).
  cbv zeta. rewrite H1, H2, H3, H4. auto.
Qed.

Lemma schedule_invariant_init (e : environment) : schedule_invariant (init e).
Proof. unfold schedule_invariant, schedule_ok. cbn. repeat split. discriminate. Qed.

Lemma schedule_invariant_step (s s' : state) (ev : event) :
  schedule_invariant s -> step s ev = Some s' -> schedule_invariant s'.
Proof.
  unfold schedule_invariant. intros Inv Hstep.
  destruct ev as [| |t|i|i|]; cbn [step] in Hstep.
  - (* ScrollEnter *)
    destruct (cardTrigger s) as [captured|] eqn:Htrig;
      [|injection Hstep as <-; now rewrite Htrig].
    injection Hstep as <-. unfold schedule_ok in *.
    destruct captured; cbn [onEnter negb].
    + (* a trigger created after the schedule ran *)
      cbn [record set_cardTrigger cardTrigger timers log now].
      rewrite enter_times_app, schedule_times_app. cbn [enter_times schedule_times].
      rewrite app_nil_r.
      destruct (enter_times (log s)) as [|t0 later].
      * destruct Inv as (_ & _ & Hne). now elim Hne.
      * cbn [app]. destruct Inv as (_ & Hc & Hs & Hd).
        repeat split; auto. discriminate.
    + (* the first firing *)
      cbn [setTimeout record set_cardTrigger set_timers cardTrigger timers log now].
      rewrite enter_times_app, schedule_times_app. cbn [enter_times schedule_times].
      rewrite app_nil_r.
      destruct (enter_times (log s)) as [|t0 later].
      * cbn [app]. destruct Inv as (Hsc & Hp & _). rewrite Hsc.
        repeat split; [discriminate| |intros t []|].
        -- rewrite pending_schedules_app, Hp. reflexivity.
        -- intros d Hd. apply in_app_or in Hd.
           destruct Hd as [Hd|[Hd|[]]];
             [elim (pending_schedules_none _ d Hp Hd)|now injection Hd as <-].
      * destruct Inv as (Hne & _). now elim Hne.
  - (* TimerFire *)
    destruct (pop_earliest (timers s)) as [[[due tk] rest]|] eqn:Hpop; [|discriminate].
    injection Hstep as <-.
    destruct (pop_earliest_spec _ Hpop) as (Hin & Hsub & Hcount). cbn [snd] in Hcount.
    destruct tk as [|index]; cbn [run_task is_StartCounters] in *.
    + (* the counter-start schedule runs *)
      set (s1 := record CounterSchedule (set_timers rest (set_now due s))).
      set (s2 := fold_left _ _ s1).
      destruct (stagger_timers (querySelectorAll_counter_number s1) s1)
        as (Ht & Hl & Hp & Hd).
      fold s2 in Ht, Hl, Hp, Hd.
      destruct (setHasAnimated_true_view s2) as (Htrig & Htimers & Hlog).
      rewrite Htimers, Hlog, Hl.
      assert (Htrig' : cardTrigger (setHasAnimated true s2) = cardTrigger s
                       \/ cardTrigger (setHasAnimated true s2) = Some true)
        by (rewrite Ht in Htrig; exact Htrig).
      subst s1. cbn [record set_timers set_now log timers now] in *.
      rewrite enter_times_app, schedule_times_app. cbn [enter_times schedule_times].
      rewrite app_nil_r. unfold schedule_ok in *.
      destruct (enter_times (log s)) as [|t0 later].
      * destruct Inv as (_ & Hp0 & _). elim (pending_schedules_none _ due Hp0 Hin).
      * destruct Inv as (Hne & Hc & Hs & Hdue).
        repeat split.
        -- destruct Htrig' as [-> | ->]; [assumption|discriminate].
        -- rewrite length_app, Hp. cbn [List.length]. lia.
        -- intros t Hin'. apply in_app_or in Hin'.
           destruct Hin' as [Hin'|[<-|[]]]; [now apply Hs|now apply Hdue].
        -- intros d Hd'. apply Hdue, Hsub. now apply Hd.
    + (* a counter starts *)
      assert (Hgoal : schedule_ok (cardTrigger s) rest
                        (enter_times (log s)) (schedule_times (log s))).
      { unfold schedule_ok.
        destruct (enter_times (log s)) as [|t0 later].
        - destruct Inv as (Hsc & Hp0 & Hne). repeat split; auto. lia.
        - destruct Inv as (Hne & Hc & Hs & Hdue). repeat split; auto. lia. }
      destruct (nth_error statsData index); exact Hgoal.
  - (* AnimationFrame *)
    destruct (Qle_bool (now s) t && forallb (fun tm => Qle_bool t (fst tm)) (timers s));
      [|discriminate].
    injection Hstep as <-.
    destruct (frame_callbacks_view t (frameCallbacks s)
                (set_frames [] (nextHandle s) (set_now t s))) as (H1 & H2 & H3 & H4).
    cbv zeta in H1, H2, H3, H4. rewrite H1, H2, H3, H4. exact Inv.
  - (* MouseEnter *)
    destruct (mounted s && (i <? List.length statsData)%nat); [|discriminate].
    injection Hstep as <-. exact Inv.
  - (* MouseLeave *)
    destruct (mounted s && (i <? List.length statsData)%nat); [|discriminate].
    injection Hstep as <-. exact Inv.
  - (* Unmount *)
    destruct (mounted s); [|discriminate]. injection Hstep as <-.
    assert (Hv : cardTrigger (unmount s) = None /\ timers (unmount s) = timers s
                 /\ log (unmount s) = log s ++ [(now s, Unmounted)]).
    { clear Inv. destruct s as [e0 t0 m ha hc ref trig ts fs nh txt lg].
      unfold unmount, unmount_cleanup, gsap_cleanup, cancel_current_frame.
      destruct ref; cbn; auto. }
    destruct Hv as (-> & -> & ->).
    rewrite enter_times_app, schedule_times_app. cbn [enter_times schedule_times].
    rewrite !app_nil_r. unfold schedule_ok in *.
    destruct (enter_times (log s)) as [|t0 later].
    + destruct Inv as (Hsc & Hp0 & _). repeat split; auto. discriminate.
    + destruct Inv as (_ & Hc & Hs & Hdue). repeat split; auto. discriminate.
Qed.

Lemma schedule_invariant_run (tr : list event) :
  forall s s', schedule_invariant s -> run s tr = Some s' -> schedule_invariant s'.
Proof.
  induction tr as [|ev rest IH]; intros s s' Inv Hrun; cbn [run] in Hrun.
  - now injection Hrun as <-.
  - destruct (step s ev) as [s1|] eqn:Hstep; [|discriminate].
    apply (IH s1 s'); [|assumption]. exact (schedule_invariant_step s ev Inv Hstep).
Qed.

(** C3. In every run of a mounted component the counter-start schedule runs
    at most once; when it runs, it runs exactly 200ms (on the timers' clock)
    after the first call of the card-group [onEnter]; until then that one
    timer stays pending, due at that time.  A later [onEnter] in the same
    mount (of the trigger created again when [hasAnimated] changed) adds no
    second schedule. *)
Theorem counter_schedule_runs_once_200ms_after_first_enter
    (e : environment) (tr : list event) (s : state) :
  run (init e) tr = Some s ->
  (List.length (schedule_times (log s)) <= 1)%nat
  /\ (forall t, In t (schedule_times (log s)) ->
        exists t0 later, enter_times (log s) = t0 :: later /\ t = t0 + 200)
  /\ (forall t0 later, enter_times (log s) = t0 :: later ->
        schedule_times (log s) = [] ->
        In (t0 + 200, StartCounters) (timers s)
        /\ pending_schedules (timers s) = 1%nat).
Proof.
  intro Hrun.
  pose proof (@schedule_invariant_run tr (init e) s (schedule_invariant_init e) Hrun)
    as Inv.
  unfold schedule_invariant, schedule_ok in Inv.
  destruct (enter_times (log s)) as [|t0 later].
  - destruct Inv as (-> & _ & _). cbn.
    split; [lia|]. split; [intros t []|intros ? ? H; discriminate H].
  - destruct Inv as (_ & Hc & Hs & Hdue).
    split; [lia|]. split.
    + intros t Hin. exists t0, later. split; [reflexivity|now apply Hs].
    + intros t1 later' Heq Hnil. injection Heq as <- <-.
      rewrite Hnil in Hc. cbn [List.length] in Hc.
      split; [|lia].
      destruct (pending_schedules_some (timers s)) as [d Hd]; [lia|].
      now rewrite <- (Hdue d Hd).
Qed.

(** ** Evaluation of the component on concrete runs *)

Ltac evaluate_each :=
  lazymatch goal with
  | |- _ /\ _ => split; [vm_compute; reflexivity | evaluate_each]
  | |- _ => vm_compute; reflexivity
  end.

(** ** Teardown *)

(** Both cleanups cancel the one handle [animationFrameRef.current] holds:
    unmount removes the frame callback registered under that handle and no
    other. *)
Lemma unmount_cancels_only_current_handle (s : state) :
  frameCallbacks (unmount s)
  = match animationFrameRef s with
    | Some h => filter (fun cb => negb (Nat.eqb (fst cb) h)) (frameCallbacks s)
    | None => frameCallbacks s
    end.
Proof.
  destruct s as [e0 t0 m ha hc ref trig ts fs nh txt lg].
  unfold unmount, unmount_cleanup, gsap_cleanup, cancel_current_frame.
  destruct ref as [h|]; cbn; [|reflexivity].
  induction fs as [|cb fs IH]; [reflexivity|].
  cbn [filter]. destruct (negb (Nat.eqb (fst cb) h)) eqn:E; cbn [filter].
  - rewrite E. f_equal. exact IH.
  - exact IH.
Qed.

(** C1, on the code.  With the four counters in flight (a frame at 800ms ran
    a step of each), unmount cancels only the handle stored last, that of
    the fourth counter: the frame at 816ms still runs a step of the first
    three counters, each writes its text after the unmount, and each
    requests a further step. *)
Theorem unmount_leaves_counters_running :
  exists s,
    run (init desktop) (enter_and_start ++ [AnimationFrame 800; Unmount; AnimationFrame 816])
    = Some s
    /\ mounted s = false
    /\ map snd (writes_after_unmount s)
       = [TextWrite 0 (of_Z 381) "381"; TextWrite 1 (of_Z 67) "67";
          TextWrite 2 (of_Z 4) "4"]
    /\ map (fun cb => element (snd cb)) (frameCallbacks s) = [0; 1; 2]%nat.
Proof. eexists. evaluate_each. Qed.

(** ** Reduced motion *)

(** No handler of the component reads the media environment: a run in
    another environment passes through the same states, environment apart. *)
Section EnvironmentCommutes.
Variable e' : environment.

Lemma cancel_current_frame_env s :
  cancel_current_frame (set_env e' s) = set_env e' (cancel_current_frame s).
Proof.
  unfold cancel_current_frame. cbn [set_env animationFrameRef].
  destruct (animationFrameRef s); reflexivity.
Qed.

Lemma call_animate_env t s a :
  call_animate t (set_env e' s) a = set_env e' (call_animate t s a).
Proof.
  unfold call_animate. destruct (animate a (Fin t)) as [v again].
  destruct again; reflexivity.
Qed.

Lemma setHasAnimated_env v s :
  setHasAnimated v (set_env e' s) = set_env e' (setHasAnimated v s).
Proof.
  unfold setHasAnimated. cbn [set_env mounted hasAnimated].
  destruct (mounted s); [|reflexivity].
  destruct (Bool.eqb (hasAnimated s) v); [reflexivity|].
  reflexivity.
Qed.

Lemma run_task_env tk s :
  run_task tk (set_env e' s) = set_env e' (run_task tk s).
Proof.
  destruct tk as [|index]; cbn [run_task].
  - change (record CounterSchedule (set_env e' s))
      with (set_env e' (record CounterSchedule s)).
    change (querySelectorAll_counter_number (set_env e' (record CounterSchedule s)))
      with (querySelectorAll_counter_number (record CounterSchedule s)).
    rewrite fold_left_commute by reflexivity.
    apply setHasAnimated_env.
  - destruct (nth_error statsData index); reflexivity.
Qed.

Lemma unmount_env s : unmount (set_env e' s) = set_env e' (unmount s).
Proof.
  unfold unmount, unmount_cleanup, gsap_cleanup.
  change (set_cardTrigger None (set_env e' s))
    with (set_env e' (set_cardTrigger None s)).
  now rewrite !cancel_current_frame_env.
Qed.

Lemma step_env s ev :
  step (set_env e' s) ev = option_map (set_env e') (step s ev).
Proof.
  destruct ev as [| |t|i|i|]; cbn [step].
  - cbn [set_env cardTrigger].
    destruct (cardTrigger s) as [captured|]; [|reflexivity].
    destruct captured; reflexivity.
  - cbn [set_env timers].
    destruct (pop_earliest (timers s)) as [[[due tk] rest]|]; [|reflexivity].
    cbn [option_map]. f_equal.
    change (set_timers rest (set_now due (set_env e' s)))
      with (set_env e' (set_timers rest (set_now due s))).
    apply run_task_env.
  - cbn [set_env now timers frameCallbacks nextHandle].
    destruct (Qle_bool (now s) t && forallb (fun tm => Qle_bool t (fst tm)) (timers s));
      [|reflexivity].
    cbn [option_map]. f_equal.
    change (set_frames [] (nextHandle s) (set_now t (set_env e' s)))
      with (set_env e' (set_frames [] (nextHandle s) (set_now t s))).
    apply fold_left_commute. intros s0 cb. apply call_animate_env.
  - cbn [set_env mounted].
    destruct (mounted s && (i <? List.length statsData)%nat); reflexivity.
  - cbn [set_env mounted].
    destruct (mounted s && (i <? List.length statsData)%nat); reflexivity.
  - cbn [set_env mounted]. destruct (mounted s); [|reflexivity].
    cbn [option_map]. f_equal. apply unmount_env.
Qed.

Lemma run_env (tr : list event) :
  forall s, run (set_env e' s) tr
            = option_map (set_env e') (run s tr).
Proof.
  induction tr as [|ev rest IH]; intro s; cbn [run]; [reflexivity|].
  rewrite step_env. destruct (step s ev) as [s1|]; cbn [option_map]; [|reflexivity].
  apply IH.
Qed.
End EnvironmentCommutes.

(** The counters write the same texts at the same times whatever the media
    environment answers, the reduced-motion preference included. *)
Lemma counters_ignore_environment (e1 e2 : environment) (tr : list event) (s : state) :
  run (init e1) tr = Some s ->
  run (init e2) tr = Some (set_env e2 s).
Proof.
  intro Hrun. change (init e2) with (set_env e2 (init e1)).
  now rewrite run_env, Hrun.
Qed.

(** C4, on the code.  With the reduced-motion preference set, the style
    block turns the transition of [.counter-number] off, but the counters
    run as without it: the frame at 800ms writes the intermediate values
    375, 65, 4 and 3 before the frame at 1640ms writes the final values. *)
Theorem reduced_motion_counters_still_animate :
  exists s,
    run (init desktop_reduced_motion)
        (enter_and_start ++ [AnimationFrame 800; AnimationFrame 1640])
    = Some s
    /\ style_transition desktop_reduced_motion "counter-number" = Some "none"
    /\ log s
       = [(0, CardTriggerEnter); (200, CounterSchedule);
          (800, TextWrite 0 (of_Z 375) "375"); (800, TextWrite 1 (of_Z 65) "65");
          (800, TextWrite 2 (of_Z 4) "4"); (800, TextWrite 3 (of_Z 3) "3");
          (1640, TextWrite 0 (of_Z 500) "500"); (1640, TextWrite 1 (of_Z 97) "97");
          (1640, TextWrite 2 (of_Z 8) "8"); (1640, TextWrite 3 (of_Z 7) "7")]
    /\ frameCallbacks s = [].
Proof. eexists. evaluate_each. Qed.

(** ** Hover styling on a touch device *)

(** C5, on the code.  On a phone (no hover, coarse pointer, 390px wide) the
    style block declares no elevation for [.stat-card:hover]
    ([transform: none]), but after a pointer-enter on the first card its
    icon, its number and its accent line carry the classes that scale them
    to 105 percent; the other cards carry none. *)
Theorem touch_hover_still_scales_icon_and_number :
  exists s,
    run (init touch_phone) [MouseEnter 0] = Some s
    /\ hoveredCard s = Some 0%nat
    /\ stat_card_hover_transform touch_phone = Some "none"
    /\ map (fun v => (scales_up (icon_class v), scales_up (counter_class v),
                      scales_up (accent_class v)))
           (render_cards (hoveredCard s))
       = [(true, true, true); (false, false, false);
          (false, false, false); (false, false, false)]
    /\ map (fun v => has_class "scale-105" (icon_class v))
           (render_cards (hoveredCard s))
       = [true; false; false; false].
Proof. eexists. evaluate_each. Qed.

(** ** Instances *)

Ltac sorted_Q :=
  repeat match goal with
         | |- StronglySorted _ _ => constructor
         | |- Forall _ _ => constructor
         | |- (_ <= _)%Q => discriminate
         end.

(** The first counter (500, started at 200ms, 1200ms long) stepped every
    300ms: it emits 0, 218, 375, 468 and 500, then stops. *)
Lemma emitted_nondecreasing_bounded_exact_instance :
  ((0 <= 500)%Z /\ 0 < 1200 /\ StronglySorted Qle [200; 200; 500; 800; 1100; 1400; 1700])
  /\ let vs := map (spec_value 500 1200 200)
                   (steps_until_done 1200 200 [200; 500; 800; 1100; 1400; 1700]) in
     emitted (animateCounter (Fin 200) 0 (of_Z 500) (Some (Fin 1200)))
             (map Fin [200; 500; 800; 1100; 1400; 1700]) = map of_Z vs
     /\ StronglySorted Z.le vs
     /\ Forall (fun v => (0 <= v <= 500)%Z) vs
     /\ (Exists (fun t => 200 + 1200 <= t) [200; 500; 800; 1100; 1400; 1700] ->
         exists pre, vs = pre ++ [500%Z])
     /\ (500%Z = 0%Z -> Forall (fun v => v = 0%Z) vs).
Proof.
  split.
  - split; [lia|]. split; [reflexivity|sorted_Q].
  - apply (@emitted_nondecreasing_bounded_exact 0 500 1200 200
             [200; 500; 800; 1100; 1400; 1700]);
      [lia|reflexivity|sorted_Q].
Defined.

(** The trigger fires at 0, the schedule runs at 200 and creates the trigger
    again, which fires at once: one schedule, two calls of [onEnter]. *)
Lemma counter_schedule_instance :
  exists s,
    run (init desktop) [ScrollEnter; TimerFire; ScrollEnter; TimerFire] = Some s
    /\ enter_times (log s) = [0; 200]
    /\ (List.length (schedule_times (log s)) <= 1)%nat
    /\ (forall t, In t (schedule_times (log s)) ->
          exists t0 later, enter_times (log s) = t0 :: later /\ t = t0 + 200)
    /\ (forall t0 later, enter_times (log s) = t0 :: later ->
          schedule_times (log s) = [] ->
          In (t0 + 200, StartCounters) (timers s)
          /\ pending_schedules (timers s) = 1%nat).
Proof.
  eexists. split; [vm_compute; reflexivity|]. split; [vm_compute; reflexivity|].
  apply (@counter_schedule_runs_once_200ms_after_first_enter desktop
           [ScrollEnter; TimerFire; ScrollEnter; TimerFire]).
  vm_compute. reflexivity.
Defined.


(** Two runs with the same scroll, timer and frame events, one with the
    pointer over the first card in between, one with the pointer entering
    the third card later. *)
Lemma counters_independent_of_hover_instance :
  exists s1 s2,
    run (init desktop)
        [ScrollEnter; MouseEnter 0; TimerFire; TimerFire; MouseLeave 0; AnimationFrame 250]
    = Some s1
    /\ run (init desktop)
           [ScrollEnter; TimerFire; TimerFire; MouseEnter 2; AnimationFrame 250]
       = Some s2
    /\ hoveredCard s1 <> hoveredCard s2
    /\ log s1 = log s2
    /\ textContent s1 = textContent s2
    /\ frameCallbacks s1 = frameCallbacks s2
    /\ timers s1 = timers s2
    /\ now s1 = now s2.
Proof.
  eexists. eexists.
  split; [vm_compute; reflexivity|]. split; [vm_compute; reflexivity|].
  split; [vm_compute; discriminate|].
  apply (@counters_independent_of_hover desktop
           [ScrollEnter; MouseEnter 0; TimerFire; TimerFire; MouseLeave 0; AnimationFrame 250]
           [ScrollEnter; TimerFire; TimerFire; MouseEnter 2; AnimationFrame 250]);
    vm_compute; reflexivity.
Defined.

Lemma mouse_leave_instance :
  (mounted (init desktop) = true
   /\ (1 < List.length statsData)%nat /\ (2 < List.length statsData)%nat)
  /\ exists s', run (init desktop) [MouseEnter 2; MouseLeave 1] = Some s'
                /\ hoveredCard s' = None.
Proof.
  split; [split; [reflexivity|split; cbn; lia]|].
  apply (@mouse_leave_clears_hover_unconditionally (init desktop) 1 2);
    [reflexivity|cbn; lia|cbn; lia].
Defined.

(** * Further properties of the component *)

(** ** Frame callbacks and the clock *)

Lemma anim_ok_later (b b' : Q) (a : animation) :
  b <= b' -> anim_ok b a -> anim_ok b' a.
Proof.
  intros Hb (st & q & H1 & H2 & H3 & H4 & H5).
  exists st, q. repeat split; try assumption. lra.
Qed.

Lemma stagger_delay_nonneg (index : nat) : 0 <= inject_Z (Z.of_nat index) * 80.
Proof.
  apply Qmult_le_0_compat; [|discriminate].
  change 0 with (inject_Z 0). rewrite <- Zle_Qle. lia.
Qed.

Lemma pop_earliest_members (ts : list (Q * task)) :
  forall x rest, pop_earliest ts = Some (x, rest) ->
  forall w, In w ts -> w = x \/ In w rest.
Proof.
  induction ts as [|y ts IH]; intros x rest H w Hw; [destruct Hw|].
  cbn [pop_earliest] in H.
  destruct (pop_earliest ts) as [[z rest']|] eqn:E.
  - destruct (Qle_bool (fst y) (fst z)); injection H as <- <-.
    + destruct Hw as [<-|Hw]; [now left|now right].
    + destruct Hw as [<-|Hw]; [right; now left|].
      destruct (IH z rest' eq_refl w Hw) as [->|Hin]; [now left|right; now right].
  - injection H as <- <-. destruct Hw as [<-|Hw]; [now left|].
    destruct ts as [|u ts']; [destruct Hw|].
    cbn [pop_earliest] in E.
    destruct (pop_earliest ts') as [[z r]|];
      [destruct (Qle_bool (fst u) (fst z))|]; discriminate E.
Qed.

Lemma pop_earliest_min (ts : list (Q * task)) :
  forall x rest, pop_earliest ts = Some (x, rest) ->
  Forall (fun y => fst x <= fst y) rest.
Proof.
  induction ts as [|y ts IH]; intros x rest H; [discriminate H|].
  cbn [pop_earliest] in H.
  destruct (pop_earliest ts) as [[z rest']|] eqn:E.
  - pose proof (IH z rest' eq_refl) as Hmin.
    destruct (Qle_bool (fst y) (fst z)) eqn:Ec; injection H as <- <-.
    + apply Qle_bool_iff in Ec. rewrite Forall_forall in *. intros w Hw.
      destruct (pop_earliest_members ts E w Hw) as [->|Hin]; [assumption|].
      specialize (Hmin w Hin). lra.
    + apply Qle_bool_false_lt in Ec. constructor; [lra|assumption].
  - injection H as <- <-. constructor.
Qed.

(** The compound operations, written with the setters. *)

Lemma stagger_timers_effect (counters : list nat) :
  forall s,
    fold_left
      (fun st index =>
         setTimeout (StartCounter index) (inject_Z (Z.of_nat index) * 80) st)
      counters s
    = set_timers
        (timers s
         ++ map (fun index => (now s + inject_Z (Z.of_nat index) * 80, StartCounter index))
                counters) s.
Proof.
  induction counters as [|c counters IH]; intro s; cbn [fold_left map].
  - rewrite app_nil_r. now destruct s.
  - rewrite IH. cbn [setTimeout set_timers timers now].
    rewrite <- app_assoc. reflexivity.
Qed.

Lemma cancel_current_frame_effect (s : state) :
  cancel_current_frame s
  = set_frames
      match animationFrameRef s with
      | Some h => filter (fun cb => negb (Nat.eqb (fst cb) h)) (frameCallbacks s)
      | None => frameCallbacks s
      end (nextHandle s) s.
Proof.
  unfold cancel_current_frame, cancelAnimationFrame.
  destruct (animationFrameRef s); [reflexivity|now destruct s].
Qed.

Lemma setHasAnimated_true_effect (s : state) :
  setHasAnimated true s
  = if mounted s && negb (hasAnimated s)
    then set_cardTrigger (Some true) (set_hasAnimated true s)
    else s.
Proof.
  unfold setHasAnimated. destruct (mounted s); [|reflexivity].
  destruct (hasAnimated s) eqn:E; cbn [Bool.eqb andb negb]; reflexivity.
Qed.

Lemma unmount_effect (s : state) :
  unmount s
  = record Unmounted
      (set_mounted false
         (set_frames
            match animationFrameRef s with
            | Some h => filter (fun cb => negb (Nat.eqb (fst cb) h)) (frameCallbacks s)
            | None => frameCallbacks s
            end (nextHandle s) (set_cardTrigger None s))).
Proof.
  unfold unmount, unmount_cleanup, gsap_cleanup.
  rewrite !cancel_current_frame_effect.
  cbn [set_cardTrigger set_frames animationFrameRef frameCallbacks nextHandle].
  destruct (animationFrameRef s) as [h|]; [|reflexivity].
  assert (Hf : forall l : list (nat * animation),
             filter (fun cb => negb (Nat.eqb (fst cb) h))
                    (filter (fun cb => negb (Nat.eqb (fst cb) h)) l)
             = filter (fun cb => negb (Nat.eqb (fst cb) h)) l).
  { induction l as [|cb l IH]; [reflexivity|]. cbn [filter].
    destruct (negb (Nat.eqb (fst cb) h)) eqn:E; cbn [filter]; [rewrite E|];
      now rewrite IH. }
  rewrite Hf. reflexivity.
Qed.

Lemma NoDup_map_fst_filter (A B : Type) (f : A * B -> bool) (l : list (A * B)) :
  NoDup (map fst l) -> NoDup (map fst (filter f l)).
Proof.
  induction l as [|x l IH]; intro H; [constructor|].
  cbn [map] in H. inversion H as [|? ? Hnotin Hnd]; subst.
  cbn [filter]. destruct (f x); [|now apply IH].
  cbn [map]. constructor; [|now apply IH].
  intro Hin. apply Hnotin. apply in_map_iff in Hin.
  destruct Hin as (y & Hy & Hyin). apply filter_In in Hyin.
  apply in_map_iff. exists y. tauto.
Qed.

Lemma Forall_filter (A : Type) (P : A -> Prop) (f : A -> bool) (l : list A) :
  Forall P l -> Forall P (filter f l).
Proof.
  rewrite !Forall_forall. intros H x Hx. apply filter_In in Hx. now apply H.
Qed.

(** [frames_ok] reads five fields, and survives the removal of callbacks. *)
Lemma frames_ok_filter (s s' : state) (f : nat * animation -> bool) :
  frames_ok s ->
  frameCallbacks s' = filter f (frameCallbacks s) ->
  nextHandle s' = nextHandle s -> now s' = now s ->
  animationFrameRef s' = animationFrameRef s -> timers s' = timers s ->
  frames_ok s'.
Proof.
  intros (HF & HN & HR & HT) Hfr Hn Hnow Href Ht. unfold frames_ok.
  rewrite Hfr, Hn, Hnow, Href, Ht. repeat split.
  - now apply Forall_filter.
  - now apply NoDup_map_fst_filter.
  - destruct (animationFrameRef s); [assumption|]. now rewrite HR.
  - assumption.
Qed.

Lemma frames_ok_same (s s' : state) :
  frames_ok s ->
  frameCallbacks s' = frameCallbacks s ->
  nextHandle s' = nextHandle s -> now s' = now s ->
  animationFrameRef s' = animationFrameRef s -> timers s' = timers s ->
  frames_ok s'.
Proof.
  intros (HF & HN & HR & HT) Hfr Hn Hnow Href Ht. unfold frames_ok.
  rewrite Hfr, Hn, Hnow, Href, Ht. repeat split; assumption.
Qed.

(** A request of a frame for a closure the component built. *)
Lemma frames_ok_schedule_frame (s : state) (a : animation) :
  frames_ok s -> anim_ok (now s) a -> frames_ok (schedule_frame a s).
Proof.
  intros (HF & HN & HR & HT) Ha. unfold frames_ok.
  cbn [schedule_frame requestAnimationFrame set_animationFrameRef set_frames
       frameCallbacks nextHandle now animationFrameRef timers].
  repeat split.
  - apply Forall_app. split.
    + revert HF. apply Forall_impl. intros cb [Hlt Hok]. split; [lia|assumption].
    + constructor; [|constructor]. cbn [fst snd]. split; [lia|assumption].
  - rewrite map_app. cbn [map fst]. apply NoDup_app; [assumption|repeat constructor; intros []|].
    intros h Hin [<-|[]]. apply in_map_iff in Hin. destruct Hin as (cb & Hcb & Hin).
    rewrite Forall_forall in HF. destruct (HF cb Hin) as [Hlt _]. lia.
  - assumption.
Qed.

Lemma frames_ok_call_animate (t : Q) (s : state) (a : animation) :
  frames_ok s -> anim_ok (now s) a -> frames_ok (call_animate t s a).
Proof.
  intros Hok Ha. unfold call_animate.
  destruct (animate a (Fin t)) as [v again].
  set (s1 := record _ (set_textContent _ s)).
  assert (H1 : frames_ok s1) by (apply (@frames_ok_same s s1 Hok); reflexivity).
  destruct again; [|exact H1]. now apply frames_ok_schedule_frame.
Qed.

Lemma call_animate_now (t : Q) (s : state) (a : animation) :
  now (call_animate t s a) = now s.
Proof.
  unfold call_animate. destruct (animate a (Fin t)) as [v again].
  destruct again; reflexivity.
Qed.

Lemma frames_ok_frame (t : Q) (cbs : list (nat * animation)) :
  forall s, frames_ok s -> Forall (fun cb => anim_ok (now s) (snd cb)) cbs ->
  frames_ok (fold_left (fun st cb => call_animate t st (snd cb)) cbs s).
Proof.
  induction cbs as [|cb cbs IH]; intros s Hok Hall; cbn [fold_left]; [assumption|].
  inversion Hall as [|? ? Hcb Hrest]; subst.
  apply IH; [now apply frames_ok_call_animate|].
  now rewrite call_animate_now.
Qed.

Lemma frames_ok_init (e : environment) : frames_ok (init e).
Proof. unfold frames_ok. cbn. repeat split; constructor. Qed.

Lemma frames_ok_step (s s' : state) (ev : event) :
  frames_ok s -> step s ev = Some s' -> frames_ok s'.
Proof.
  intros Hok Hstep. destruct ev as [| |t|i|i|]; cbn [step] in Hstep.
  - (* ScrollEnter *)
    destruct (cardTrigger s) as [captured|]; injection Hstep as <-; [|assumption].
    destruct captured; cbn [onEnter negb].
    + apply (@frames_ok_same s _ Hok); reflexivity.
    + destruct Hok as (HF & HN & HR & HT). unfold frames_ok.
      cbn [setTimeout record set_cardTrigger set_timers frameCallbacks nextHandle
           now animationFrameRef timers].
      repeat split; try assumption.
      apply Forall_app. split; [assumption|].
      constructor; [|constructor]. cbn [fst]. lra.
  - (* TimerFire *)
    destruct (pop_earliest (timers s)) as [[[due tk] rest]|] eqn:Hpop; [|discriminate].
    injection Hstep as <-.
    destruct (pop_earliest_spec _ Hpop) as (Hin & Hsub & _).
    pose proof (pop_earliest_min _ Hpop) as Hmin. cbn [fst] in Hmin.
    destruct Hok as (HF & HN & HR & HT).
    assert (Hdue : now s <= due).
    { rewrite Forall_forall in HT. exact (HT _ Hin). }
    assert (Hok1 : frames_ok (set_timers rest (set_now due s))).
    { unfold frames_ok.
      cbn [set_timers set_now frameCallbacks nextHandle now animationFrameRef timers].
      repeat split; try assumption.
      revert HF. apply Forall_impl. intros cb [Hlt Ha].
      split; [assumption|]. exact (anim_ok_later Hdue Ha). }
    destruct tk as [|index]; cbn [run_task].
    + rewrite stagger_timers_effect, setHasAnimated_true_effect.
      set (s1 := set_timers _ (record CounterSchedule _)).
      assert (Hok2 : frames_ok s1).
      { destruct Hok1 as (HF1 & HN1 & HR1 & HT1). unfold frames_ok. subst s1.
        cbn [set_timers set_now record frameCallbacks nextHandle now
             animationFrameRef timers] in *.
        repeat split; try assumption.
        apply Forall_app. split; [assumption|].
        rewrite Forall_forall. intros tm Htm. apply in_map_iff in Htm.
        destruct Htm as (index & <- & _). cbn [fst].
        pose proof (stagger_delay_nonneg index). lra. }
      clearbody s1.
      destruct (mounted s1 && negb (hasAnimated s1)); [|exact Hok2].
      apply (@frames_ok_same s1 _ Hok2); reflexivity.
    + destruct (nth_error statsData index) as [st|] eqn:Hst; [|exact Hok1].
      unfold call_animateCounter. apply frames_ok_schedule_frame; [exact Hok1|].
      exists st, due. cbn. repeat split; try assumption. lra.
  - (* AnimationFrame *)
    destruct (Qle_bool (now s) t) eqn:Hnow; [|discriminate].
    destruct (forallb (fun tm => Qle_bool t (fst tm)) (timers s)) eqn:Hts; [|discriminate].
    injection Hstep as <-. apply Qle_bool_iff in Hnow.
    destruct Hok as (HF & HN & HR & HT).
    apply frames_ok_frame.
    + unfold frames_ok.
      cbn [set_frames set_now frameCallbacks nextHandle now animationFrameRef timers].
      repeat split; try constructor.
      * destruct (animationFrameRef s); [assumption|reflexivity].
      * rewrite forallb_forall in Hts. rewrite Forall_forall. intros tm Htm.
        apply Qle_bool_iff. now apply Hts.
    + cbn [set_frames set_now now]. revert HF. apply Forall_impl.
      intros cb [_ Ha]. exact (anim_ok_later Hnow Ha).
  - destruct (mounted s && (i <? List.length statsData)%nat); [|discriminate].
    injection Hstep as <-. exact Hok.
  - destruct (mounted s && (i <? List.length statsData)%nat); [|discriminate].
    injection Hstep as <-. exact Hok.
  - (* Unmount *)
    destruct (mounted s); [|discriminate]. injection Hstep as <-.
    rewrite unmount_effect.
    destruct (animationFrameRef s) as [h|] eqn:Href.
    + apply (@frames_ok_filter s _ (fun cb => negb (Nat.eqb (fst cb) h)) Hok);
        cbn; rewrite ?Href; reflexivity.
    + apply (@frames_ok_same s _ Hok); cbn; rewrite ?Href; reflexivity.
Qed.

Lemma frames_ok_run (tr : list event) :
  forall s s', frames_ok s -> run s tr = Some s' -> frames_ok s'.
Proof.
  induction tr as [|ev rest IH]; intros s s' Hok Hrun; cbn [run] in Hrun.
  - now injection Hrun as <-.
  - destruct (step s ev) as [s1|] eqn:Hstep; [|discriminate].
    apply (IH s1 s'); [|assumption]. exact (@frames_ok_step s s1 ev Hok Hstep).
Qed.

Lemma filter_other_handles_length (h : nat) (l : list (nat * animation)) :
  NoDup (map fst l) ->
  (List.length l <= S (List.length (filter (fun cb => negb (Nat.eqb (fst cb) h)) l)))%nat.
Proof.
  induction l as [|cb l IH]; intro Hnd; cbn [filter List.length]; [lia|].
  cbn [map] in Hnd. inversion Hnd as [|? ? Hnotin Hnd']; subst.
  destruct (Nat.eqb (fst cb) h) eqn:E; cbn [negb List.length].
  - apply Nat.eqb_eq in E. subst h.
    assert (Hall : filter (fun cb0 => negb (Nat.eqb (fst cb0) (fst cb))) l = l).
    { apply forallb_filter_id. apply forallb_forall. intros x Hx.
      apply negb_true_iff, Nat.eqb_neq. intro Heq. apply Hnotin.
      rewrite <- Heq. now apply in_map. }
    rewrite Hall. lia.
  - specialize (IH Hnd'). lia.
Qed.

(** In every state a run reaches, [animationFrameRef.current] is the handle
    issued last, and unmount cancels at most one pending frame step: the
    steps requested under any other handle stay pending, so of [n] counters
    in flight at least [n - 1] keep running after unmount. *)
Theorem unmount_cancels_at_most_one_step
    (e : environment) (tr : list event) (s : state) :
  run (init e) tr = Some s ->
  match animationFrameRef s with
  | Some h => S h = nextHandle s
  | None => frameCallbacks s = []
  end
  /\ (forall cb, In cb (frameCallbacks s) ->
        animationFrameRef s <> Some (fst cb) ->
        In cb (frameCallbacks (unmount s)))
  /\ (List.length (frameCallbacks s) <= S (List.length (frameCallbacks (unmount s))))%nat.
Proof.
  intro Hrun.
  destruct (@frames_ok_run tr (init e) s (frames_ok_init e) Hrun) as (_ & HN & HR & _).
  split; [exact HR|].
  rewrite unmount_cancels_only_current_handle.
  destruct (animationFrameRef s) as [h|].
  - split.
    + intros cb Hin Hne. apply filter_In. split; [assumption|].
      apply negb_true_iff, Nat.eqb_neq. intro Heq. apply Hne. now rewrite Heq.
    + now apply filter_other_handles_length.
  - split; [auto|lia].
Qed.

(** ** What the counters write *)










(** ** The staggered starts *)

Lemma pending_schedules_in (ts : list (Q * task)) (d : Q) :
  In (d, StartCounters) ts -> (0 < pending_schedules ts)%nat.
Proof.
  intro Hin. destruct (pending_schedules ts) eqn:E; [|lia].
  elim (pending_schedules_none ts d E Hin).
Qed.

Lemma schedule_pending_not_run (s : state) (d : Q) :
  schedule_invariant s -> In (d, StartCounters) (timers s) ->
  schedule_times (log s) = [].
Proof.
  unfold schedule_invariant, schedule_ok. intros Inv Hin.
  pose proof (pending_schedules_in _ _ Hin) as Hp.
  destruct (enter_times (log s)).
  - tauto.
  - destruct Inv as (_ & Hc & _).
    destruct (schedule_times (log s)); [reflexivity|cbn [List.length] in Hc; lia].
Qed.

Lemma call_animate_frames (t : Q) (s : state) (a : animation) :
  frameCallbacks (call_animate t s a)
  = if snd (animate a (Fin t))
    then frameCallbacks s ++ [(nextHandle s, a)]
    else frameCallbacks s.
Proof.
  unfold call_animate. destruct (animate a (Fin t)) as [v again].
  destruct again; reflexivity.
Qed.

Lemma frame_callbacks_origin (t : Q) (cbs : list (nat * animation)) :
  forall s h a,
    In (h, a) (frameCallbacks (fold_left (fun st cb => call_animate t st (snd cb)) cbs s)) ->
    In (h, a) (frameCallbacks s) \/ exists h', In (h', a) cbs.
Proof.
  induction cbs as [|[h0 a0] cbs IH]; intros s h a Hin; cbn [fold_left] in Hin; [now left|].
  destruct (IH _ _ _ Hin) as [Hin'|[h' Hin']].
  - cbn [snd] in Hin'. rewrite call_animate_frames in Hin'.
    destruct (snd (animate a0 (Fin t))); [|now left].
    apply in_app_or in Hin'. destruct Hin' as [Hin'|[Heq|[]]]; [now left|].
    injection Heq as _ <-. right. exists h0. now left.
  - right. exists h'. now right.
Qed.

Lemma no_writes_app (l l' : list (Q * action)) :
  Forall (fun entry => is_write (snd entry) = false) l ->
  Forall (fun entry => is_write (snd entry) = false) l' ->
  Forall (fun entry => is_write (snd entry) = false) (l ++ l').
Proof. intros H H'. apply Forall_app. now split. Qed.

Lemma stagger_ok_init (e : environment) : stagger_ok (init e).
Proof.
  unfold stagger_ok. cbn. repeat split; try (intros; contradiction). constructor.
Qed.

Lemma stagger_ok_step (s s' : state) (ev : event) :
  schedule_invariant s -> stagger_ok s -> step s ev = Some s' -> stagger_ok s'.
Proof.
  intros Inv (HT & HF & HW) Hstep. destruct ev as [| |t|i|i|]; cbn [step] in Hstep.
  - (* ScrollEnter *)
    destruct (cardTrigger s) as [captured|]; injection Hstep as <-;
      [|unfold stagger_ok; auto].
    unfold stagger_ok.
    destruct captured; cbn [onEnter negb];
      cbn [setTimeout record set_cardTrigger set_timers frameCallbacks timers log now];
      rewrite schedule_times_app; cbn [schedule_times]; rewrite app_nil_r.
    + repeat split; auto. intro Hsc. apply no_writes_app; [auto|repeat constructor].
    + repeat split; auto.
      * intros d i Hin. apply in_app_or in Hin.
        destruct Hin as [Hin|[Hin|[]]]; [auto|discriminate Hin].
      * intro Hsc. apply no_writes_app; [auto|repeat constructor].
  - (* TimerFire *)
    destruct (pop_earliest (timers s)) as [[[due tk] rest]|] eqn:Hpop; [|discriminate].
    injection Hstep as <-.
    destruct (pop_earliest_spec _ Hpop) as (Hin & Hsub & _).
    destruct tk as [|index]; cbn [run_task].
    + (* the schedule runs: nothing was started before *)
      pose proof (schedule_pending_not_run s due Inv Hin) as Hsc.
      assert (Hnof : frameCallbacks s = []).
      { destruct (frameCallbacks s) as [|[h a] l] eqn:E; [reflexivity|].
        destruct (HF h a (or_introl eq_refl)) as (Ts & HTs & _). congruence. }
      rewrite stagger_timers_effect, setHasAnimated_true_effect.
      set (s1 := set_timers _ (record CounterSchedule _)).
      assert (H1 : stagger_ok s1).
      { unfold stagger_ok. subst s1.
        cbn [set_timers set_now record frameCallbacks timers log now].
        rewrite schedule_times_app, Hsc. cbn [schedule_times app].
        repeat split.
        - intros d i Hd. apply in_app_or in Hd. destruct Hd as [Hd|Hd].
          + destruct (HT d i (Hsub _ Hd)) as (Ts & HTs & _). congruence.
          + apply in_map_iff in Hd. destruct Hd as (j & Heq & _).
            injection Heq as <- <-. exists due. split; reflexivity.
        - rewrite Hnof. intros h a [].
        - discriminate. }
      assert (Hf1 : frameCallbacks s1 = []) by (subst s1; exact Hnof).
      clearbody s1.
      destruct (mounted s1 && negb (hasAnimated s1)); exact H1.
    + (* counter [index] starts at its due time *)
      destruct (nth_error statsData index) as [st|].
      * destruct (HT due index Hin) as (Ts & HTs & Hd). unfold stagger_ok.
        cbn [call_animateCounter schedule_frame requestAnimationFrame animateCounter
             set_animationFrameRef set_frames set_timers set_now
             frameCallbacks timers log now nextHandle].
        split; [intros d i Hi; apply HT; now apply Hsub|]. split; [|assumption].
        intros h a Hi. apply in_app_or in Hi.
        destruct Hi as [Hi|[Hi|[]]]; [exact (HF h a Hi)|].
        injection Hi as _ <-. exists Ts. cbn [startTime element].
        split; [assumption|now rewrite Hd].
      * unfold stagger_ok. cbn [set_timers set_now frameCallbacks timers log].
        split; [intros d i Hi; apply HT; now apply Hsub|]. split; assumption.
  - (* AnimationFrame *)
    destruct (Qle_bool (now s) t && forallb (fun tm => Qle_bool t (fst tm)) (timers s));
      [|discriminate].
    injection Hstep as <-.
    destruct (frame_callbacks_view t (frameCallbacks s)
                (set_frames [] (nextHandle s) (set_now t s))) as (_ & H2 & _ & H4).
    cbv zeta in H2, H4. unfold stagger_ok. rewrite H2, H4.
    cbn [set_frames set_now timers log]. repeat split; auto.
    + intros h a Hi. apply frame_callbacks_origin in Hi.
      destruct Hi as [[]|[h' Hi]]. eauto.
    + intro Hsc.
      assert (Hnof : frameCallbacks s = []).
      { destruct (frameCallbacks s) as [|[h a] l] eqn:E; [reflexivity|].
        destruct (HF h a (or_introl eq_refl)) as (Ts & HTs & _). congruence. }
      rewrite Hnof. cbn [fold_left set_frames set_now log]. auto.
  - destruct (mounted s && (i <? List.length statsData)%nat); [|discriminate].
    injection Hstep as <-. unfold stagger_ok. auto.
  - destruct (mounted s && (i <? List.length statsData)%nat); [|discriminate].
    injection Hstep as <-. unfold stagger_ok. auto.
  - (* Unmount *)
    destruct (mounted s); [|discriminate]. injection Hstep as <-.
    rewrite unmount_effect. unfold stagger_ok.
    cbn [record set_mounted set_frames set_cardTrigger frameCallbacks timers log].
    rewrite schedule_times_app. cbn [schedule_times]. rewrite app_nil_r.
    repeat split; auto.
    + intros h a Hi. apply (HF h a).
      destruct (animationFrameRef s); [apply filter_In in Hi; tauto|assumption].
    + intro Hsc. apply no_writes_app; [auto|repeat constructor].
Qed.

Lemma reachable_invariants (tr : list event) :
  forall s s',
    schedule_invariant s -> frames_ok s -> stagger_ok s -> run s tr = Some s' ->
    schedule_invariant s' /\ frames_ok s' /\ stagger_ok s'.
Proof.
  induction tr as [|ev rest IH]; intros s s' H1 H2 H3 Hrun; cbn [run] in Hrun.
  - injection Hrun as <-. auto.
  - destruct (step s ev) as [s1|] eqn:Hstep; [|discriminate].
    apply (IH s1 s'); [| | |assumption].
    + exact (@schedule_invariant_step s s1 ev H1 Hstep).
    + exact (@frames_ok_step s s1 ev H2 Hstep).
    + exact (@stagger_ok_step s s1 ev H1 H3 Hstep).
Qed.


(** In scheduled time (a timer callback runs exactly when it is due, so
    that is the time [performance.now()] returns to [animateCounter]), every
    counter in flight was started by the component's one invocation: its
    closure is the one [animateCounter] builds for its stat record with
    1200ms, started at the first fire of the card-group trigger plus 200ms
    plus 80ms times the index of the counter. *)
Theorem counters_in_flight_start_staggered
    (e : environment) (tr : list event) (s : state) :
  run (init e) tr = Some s ->
  forall h a, In (h, a) (frameCallbacks s) ->
  exists t0 later st,
    enter_times (log s) = t0 :: later
    /\ nth_error statsData (element a) = Some st
    /\ a = animateCounter
             (Fin (t0 + 200 + inject_Z (Z.of_nat (element a)) * 80))
             (element a) (of_Z (number st)) (Some (of_Z 1200)).
Proof.
  intros Hrun h a Hin.
  destruct (@reachable_invariants tr (init e) s (schedule_invariant_init e)
              (frames_ok_init e) (stagger_ok_init e) Hrun) as (Inv & (HF & _) & (_ & HS & _)).
  destruct (HS h a Hin) as (Ts & HTs & Hstart).
  rewrite Forall_forall in HF. destruct (HF _ Hin) as [_ Ha]. cbn [snd] in Ha.
  destruct Ha as (st & q & Hst & Hfin & Hdur & Hq & _).
  unfold schedule_invariant, schedule_ok in Inv. rewrite HTs in Inv.
  destruct (enter_times (log s)) as [|t0 later].
  - destruct Inv as (Hnil & _). discriminate Hnil.
  - destruct Inv as (_ & _ & Hs & _).
    exists t0, later, st. split; [reflexivity|]. split; [assumption|].
    rewrite (Hs Ts (or_introl eq_refl)) in Hstart.
    destruct a as [el fn du stt]. cbn in *. subst. reflexivity.
Qed.

(** ** What a frame leaves pending *)






(** ** Counters never stall while the component is mounted *)












(** ** Unmount before the counters start *)

Lemma unmounted_idle_step (s s' : state) (ev : event) :
  unmounted_idle s -> step s ev = Some s' -> unmounted_idle s'.
Proof.
  intros (Hm & Hf & Ht & Hw) Hstep. destruct ev as [| |t|i|i|]; cbn [step] in Hstep.
  - destruct (cardTrigger s) as [captured|]; injection Hstep as <-;
      [|unfold unmounted_idle; auto].
    unfold unmounted_idle.
    destruct captured; cbn [onEnter negb];
      cbn [setTimeout record set_cardTrigger set_timers mounted frameCallbacks timers log].
    + split; [assumption|]. split; [assumption|]. split; [assumption|].
      apply no_writes_app; [assumption|repeat constructor].
    + split; [assumption|]. split; [assumption|]. split.
      * intros d i Hin. apply in_app_or in Hin.
        destruct Hin as [Hin|[Hin|[]]]; [exact (Ht d i Hin)|discriminate Hin].
      * apply no_writes_app; [assumption|repeat constructor].
  - destruct (pop_earliest (timers s)) as [[[due tk] rest]|] eqn:Hpop; [|discriminate].
    injection Hstep as <-.
    destruct (pop_earliest_spec _ Hpop) as (Hin & Hsub & _).
    destruct tk as [|index]; [|elim (Ht due index Hin)].
    cbn [run_task]. unfold querySelectorAll_counter_number, setHasAnimated.
    cbn [record set_timers set_now mounted]. rewrite Hm. cbn [fold_left].
    cbn [record set_timers set_now mounted]. rewrite Hm.
    unfold unmounted_idle.
    cbn [record set_timers set_now mounted frameCallbacks timers log].
    split; [assumption|]. split; [assumption|]. split.
    + intros d i Hi. exact (Ht d i (Hsub _ Hi)).
    + apply no_writes_app; [assumption|repeat constructor].
  - destruct (Qle_bool (now s) t && forallb (fun tm => Qle_bool t (fst tm)) (timers s));
      [|discriminate].
    injection Hstep as <-. rewrite Hf. cbn [fold_left]. unfold unmounted_idle.
    cbn [set_frames set_now mounted frameCallbacks timers log]. auto.
  - rewrite Hm in Hstep. discriminate Hstep.
  - rewrite Hm in Hstep. discriminate Hstep.
  - rewrite Hm in Hstep. discriminate Hstep.
Qed.

Lemma unmounted_idle_run (tr : list event) :
  forall s s', unmounted_idle s -> run s tr = Some s' -> unmounted_idle s'.
Proof.
  induction tr as [|ev rest IH]; intros s s' H Hrun; cbn [run] in Hrun.
  - now injection Hrun as <-.
  - destruct (step s ev) as [s1|] eqn:Hstep; [|discriminate].
    apply (IH s1 s'); [|assumption]. exact (@unmounted_idle_step s s1 ev H Hstep).
Qed.

(** Unmounting before the counter-start schedule has run is clean, although
    unmount cancels no timer: whatever happens afterwards (the pending 200ms
    timer included, which then finds no counter element), no counter is ever
    started and no text is ever written. *)
Theorem unmount_before_schedule_is_clean
    (e : environment) (tr tr' : list event) (s s' : state) :
  run (init e) tr = Some s ->
  schedule_times (log s) = [] ->
  run s (Unmount :: tr') = Some s' ->
  timers (unmount s) = timers s
  /\ frameCallbacks s' = []
  /\ Forall (fun entry => is_write (snd entry) = false) (log s').
Proof.
  intros Hrun Hsc Hrun'.
  destruct (@reachable_invariants tr (init e) s (schedule_invariant_init e)
              (frames_ok_init e) (stagger_ok_init e) Hrun) as (_ & _ & (HT & HF & HW)).
  cbn [run step] in Hrun'. destruct (mounted s); [|discriminate].
  assert (Hnof : frameCallbacks s = []).
  { destruct (frameCallbacks s) as [|[h a] l] eqn:E; [reflexivity|].
    destruct (HF h a (or_introl eq_refl)) as (Ts & HTs & _). congruence. }
  assert (Hidle : unmounted_idle (unmount s)).
  { rewrite unmount_effect. unfold unmounted_idle.
    cbn [record set_mounted set_frames set_cardTrigger mounted frameCallbacks timers log].
    rewrite Hnof. split; [reflexivity|]. split; [|split].
    - now destruct (animationFrameRef s).
    - intros d i Hin. destruct (HT d i Hin) as (Ts & HTs & _). congruence.
    - apply no_writes_app; [auto|repeat constructor]. }
  split; [rewrite unmount_effect; reflexivity|].
  destruct (@unmounted_idle_run tr' (unmount s) s' Hidle Hrun') as (_ & Hf & _ & Hw).
  auto.
Qed.

(** ** What the elements show *)






(** ** Instances of the further properties *)



Lemma counters_in_flight_instance :
  exists s a,
    run (init desktop) (enter_and_start ++ [AnimationFrame 800]) = Some s
    /\ In (6%nat, a) (frameCallbacks s)
    /\ exists t0 later st,
         enter_times (log s) = t0 :: later
         /\ nth_error statsData (element a) = Some st
         /\ a = animateCounter
                  (Fin (t0 + 200 + inject_Z (Z.of_nat (element a)) * 80))
                  (element a) (of_Z (number st)) (Some (of_Z 1200)).
Proof.
  eexists. eexists. split; [vm_compute; reflexivity|].
  split; [vm_compute; right; left; reflexivity|].
  eapply (@counters_in_flight_start_staggered desktop
            (enter_and_start ++ [AnimationFrame 800]));
    [vm_compute; reflexivity|vm_compute; right; left; reflexivity].
Defined.

Lemma unmount_cancels_at_most_one_instance :
  exists s,
    run (init desktop) (enter_and_start ++ [AnimationFrame 800]) = Some s
    /\ List.length (frameCallbacks s) = 4%nat
    /\ (List.length (frameCallbacks s) <= S (List.length (frameCallbacks (unmount s))))%nat.
Proof.
  eexists. split; [vm_compute; reflexivity|]. split; [vm_compute; reflexivity|].
  eapply (@unmount_cancels_at_most_one_step desktop
            (enter_and_start ++ [AnimationFrame 800])).
  vm_compute. reflexivity.
Defined.



(** The trigger fires, the component unmounts 100ms later, and the 200ms
    timer still runs. *)
Lemma unmount_before_schedule_instance :
  exists s s',
    run (init desktop) [ScrollEnter; AnimationFrame 100] = Some s
    /\ schedule_times (log s) = []
    /\ run s [Unmount; TimerFire; AnimationFrame 300] = Some s'
    /\ schedule_times (log s') = [200]
    /\ timers (unmount s) = timers s
    /\ frameCallbacks s' = []
    /\ Forall (fun entry => is_write (snd entry) = false) (log s').
Proof.
  eexists. eexists. split; [vm_compute; reflexivity|].
  split; [vm_compute; reflexivity|]. split; [vm_compute; reflexivity|].
  split; [vm_compute; reflexivity|].
  eapply (@unmount_before_schedule_is_clean desktop
            [ScrollEnter; AnimationFrame 100] [TimerFire; AnimationFrame 300]);
    vm_compute; reflexivity.
Defined.

Lemma counters_ignore_environment_instance :
  exists s,
    run (init desktop) (enter_and_start ++ [AnimationFrame 800]) = Some s
    /\ run (init touch_phone) (enter_and_start ++ [AnimationFrame 800])
       = Some (set_env touch_phone s).
Proof.
  eexists. split; [vm_compute; reflexivity|].
  apply (@counters_ignore_environment desktop touch_phone
           (enter_and_start ++ [AnimationFrame 800])).
  vm_compute. reflexivity.
Defined.


(** * The interpolator in binary64 arithmetic *)

(** At 240ms into the first counter the formula evaluated exactly is 180,
    and binary64 arithmetic yields a value just below 180: the interpolator
    displays 179. *)
Lemma binary64_rounding_changes_a_displayed_value :
  animate (animateCounter (Fin 200) 0 (of_Z 500) (Some (of_Z 1200))) (Fin 440)
  = (of_Z 180, true)
  /\ B64.animate
       (B64.animateCounter (B64.Fin 200) 0 (B64.of_Z 500) (Some (B64.of_Z 1200)))
       (B64.Fin 440)
     = (B64.of_Z 179, true).
Proof. split; vm_compute; reflexivity. Qed.

Section Binary64.
Import B64.
Unset Implicit Arguments.

(** ** Comparisons *)

Lemma Qlt_bool_false_iff (a b : Q) : Qlt_bool a b = false <-> b <= a.
Proof.
  unfold Qlt_bool. rewrite negb_false_iff. apply Qle_bool_iff.
Qed.

(** ** Powers of two *)

Lemma pow2_pos (k : Z) : 0 < pow2 k.
Proof. apply Qpower_0_lt. reflexivity. Qed.

Lemma pow2_add (a b : Z) : pow2 (a + b) == pow2 a * pow2 b.
Proof. apply Qpower_plus. discriminate. Qed.

Lemma pow2_le (a b : Z) : (a <= b)%Z -> pow2 a <= pow2 b.
Proof. intro H. apply Qpower_le_compat_l; [assumption|discriminate]. Qed.

Lemma pow2_lt (a b : Z) : (a < b)%Z -> pow2 a < pow2 b.
Proof. intro H. apply Qpower_lt_compat_l; [assumption|reflexivity]. Qed.

Lemma pow2_lt_inv (a b : Z) : pow2 a < pow2 b -> (a < b)%Z.
Proof. intro H. apply (Qpower_lt_compat_l_inv 2); [assumption|reflexivity]. Qed.

Lemma pow2_Z (k : Z) : (0 <= k)%Z -> pow2 k == inject_Z (2 ^ k).
Proof. intro H. unfold pow2. now rewrite Zpower_Qpower. Qed.

Lemma pow2_succ (k : Z) : pow2 (k + 1) == 2 * pow2 k.
Proof. rewrite pow2_add. change (pow2 1) with 2. ring. Qed.

Lemma pow2_pred (k : Z) : 2 * pow2 (k - 1) == pow2 k.
Proof.
  replace k with ((k - 1) + 1)%Z at 2 by lia. now rewrite pow2_succ.
Qed.

Lemma pow2_sub (a b : Z) : pow2 (a - b) * pow2 b == pow2 a.
Proof. rewrite <- pow2_add. now replace (a - b + b)%Z with a by lia. Qed.

(** ** The binary exponent *)

Lemma ilog2_spec (q : Q) : 0 < q -> pow2 (ilog2 q) <= q < pow2 (ilog2 q + 1).
Proof.
  intro Hq. unfold ilog2. cbv zeta.
  destruct q as [n d]. cbn [Qnum Qden].
  assert (Hn : (0 < n)%Z).
  { unfold Qlt in Hq. cbn in Hq. lia. }
  set (ln := Z.log2 n). set (ld := Z.log2 (Zpos d)).
  assert (Hln : (0 <= ln)%Z) by apply Z.log2_nonneg.
  assert (Hld : (0 <= ld)%Z) by apply Z.log2_nonneg.
  destruct (Z.log2_spec n Hn) as [Hn1 Hn2]. fold ln in Hn1, Hn2.
  destruct (Z.log2_spec (Zpos d) eq_refl) as [Hd1 Hd2]. fold ld in Hd1, Hd2.
  assert (HA : pow2 ln == inject_Z (2 ^ ln)) by now apply pow2_Z.
  assert (HB : pow2 ld == inject_Z (2 ^ ld)) by now apply pow2_Z.
  assert (Hq' : n # d == inject_Z n / inject_Z (Zpos d)) by apply Qmake_Qdiv.
  assert (HN1 : pow2 ln <= inject_Z n) by (rewrite HA; now rewrite <- Zle_Qle).
  assert (HN2 : inject_Z n < 2 * pow2 ln).
  { rewrite HA. change 2 with (inject_Z 2). rewrite <- inject_Z_mult, <- Zlt_Qlt.
    replace (ln + 1)%Z with (Z.succ ln) in Hn2 by lia. rewrite Z.pow_succ_r in Hn2; lia. }
  assert (HD1 : pow2 ld <= inject_Z (Zpos d)) by (rewrite HB; now rewrite <- Zle_Qle).
  assert (HD2 : inject_Z (Zpos d) < 2 * pow2 ld).
  { rewrite HB. change 2 with (inject_Z 2). rewrite <- inject_Z_mult, <- Zlt_Qlt.
    replace (ld + 1)%Z with (Z.succ ld) in Hd2 by lia. rewrite Z.pow_succ_r in Hd2; lia. }
  pose proof (pow2_pos ln) as HAp. pose proof (pow2_pos ld) as HBp.
  pose proof (pow2_sub ln ld) as Hk.
  pose proof (pow2_pos (ln - ld)) as HKp.
  assert (HDp : 0 < inject_Z (Zpos d)) by lra.
  (* q * D = N *)
  assert (HqD : (n # d) * inject_Z (Zpos d) == inject_Z n).
  { rewrite Hq'. field. lra. }
  set (qq := n # d) in *. set (N := inject_Z n) in *. set (Dd := inject_Z (Zpos d)) in *.
  set (A := pow2 ln) in *. set (B := pow2 ld) in *. set (K := pow2 (ln - ld)) in *.
  destruct (Qle_bool K qq) eqn:E.
  - apply Qle_bool_iff in E. split; [assumption|].
    rewrite pow2_succ. fold K.
    (* qq < 2K : qq*Dd = N < 2A = 2 K B <= 2 K Dd *)
    apply Qnot_le_lt. intro Hc. nra.
  - apply Qle_bool_false_lt in E.
    replace (ln - ld - 1 + 1)%Z with (ln - ld)%Z by lia. fold K.
    split; [|assumption].
    pose proof (pow2_pred (ln - ld)) as Hp. fold K in Hp.
    pose proof (pow2_pos (ln - ld - 1)) as Hpp.
    set (K1 := pow2 (ln - ld - 1)) in *.
    apply Qnot_lt_le. intro Hc. nra.
Qed.

Lemma ilog2_unique (q : Q) (k : Z) :
  pow2 k <= q -> q < pow2 (k + 1) -> ilog2 q = k.
Proof.
  intros H1 H2.
  assert (Hq : 0 < q) by (pose proof (pow2_pos k); lra).
  destruct (ilog2_spec q Hq) as [G1 G2].
  assert (L1 : (ilog2 q < k + 1)%Z) by (apply pow2_lt_inv; lra).
  assert (L2 : (k < ilog2 q + 1)%Z) by (apply pow2_lt_inv; lra).
  lia.
Qed.

Lemma ilog2_mono (x y : Q) : 0 < x -> x <= y -> (ilog2 x <= ilog2 y)%Z.
Proof.
  intros Hx Hxy.
  destruct (ilog2_spec x Hx) as [G1 _].
  destruct (ilog2_spec y) as [_ G2]; [lra|].
  assert (L : (ilog2 x < ilog2 y + 1)%Z) by (apply pow2_lt_inv; lra).
  lia.
Qed.

Lemma ilog2_comp (x y : Q) : 0 < x -> x == y -> ilog2 x = ilog2 y.
Proof.
  intros Hx Hxy. symmetry. destruct (ilog2_spec x Hx) as [G1 G2].
  apply ilog2_unique; lra.
Qed.

(** ** Rounding to the nearest integer *)

Lemma round_even_bounds (q : Q) : (Qfloor q <= round_even q <= Qfloor q + 1)%Z.
Proof.
  unfold round_even. cbv zeta.
  destruct (Qlt_bool _ _); [lia|].
  destruct (Qlt_bool _ _); [lia|].
  destruct (Z.even _); lia.
Qed.

Lemma round_even_comp (x y : Q) : x == y -> round_even x = round_even y.
Proof.
  intro H. unfold round_even. cbv zeta.
  rewrite (Qfloor_comp _ _ H).
  assert (Hr : x - inject_Z (Qfloor y) == y - inject_Z (Qfloor y)) by now rewrite H.
  assert (E1 : Qlt_bool (x - inject_Z (Qfloor y)) (1 # 2)
               = Qlt_bool (y - inject_Z (Qfloor y)) (1 # 2)).
  { unfold Qlt_bool. f_equal.
    destruct (Qle_bool (1 # 2) (x - inject_Z (Qfloor y))) eqn:E;
      destruct (Qle_bool (1 # 2) (y - inject_Z (Qfloor y))) eqn:E'; try reflexivity;
      [apply Qle_bool_iff in E; apply Qle_bool_false_lt in E'
      |apply Qle_bool_iff in E'; apply Qle_bool_false_lt in E]; lra. }
  assert (E2 : Qlt_bool (1 # 2) (x - inject_Z (Qfloor y))
               = Qlt_bool (1 # 2) (y - inject_Z (Qfloor y))).
  { unfold Qlt_bool. f_equal.
    destruct (Qle_bool (x - inject_Z (Qfloor y)) (1 # 2)) eqn:E;
      destruct (Qle_bool (y - inject_Z (Qfloor y)) (1 # 2)) eqn:E'; try reflexivity;
      [apply Qle_bool_iff in E; apply Qle_bool_false_lt in E'
      |apply Qle_bool_iff in E'; apply Qle_bool_false_lt in E]; lra. }
  now rewrite E1, E2.
Qed.

Lemma round_even_Z (q : Q) (z : Z) : q == inject_Z z -> round_even q = z.
Proof.
  intro H. rewrite (round_even_comp _ _ H). unfold round_even. cbv zeta.
  rewrite Qfloor_Z.
  assert (E : Qlt_bool (inject_Z z - inject_Z z) (1 # 2) = true)
    by (apply Qlt_bool_true_iff; lra).
  now rewrite E.
Qed.

Lemma round_even_mono (x y : Q) : x <= y -> (round_even x <= round_even y)%Z.
Proof.
  intro H.
  pose proof (Qfloor_resp_le _ _ H) as Hf.
  pose proof (round_even_bounds x) as Bx. pose proof (round_even_bounds y) as By.
  destruct (Z.eq_dec (Qfloor x) (Qfloor y)) as [Heq|Hne]; [|lia].
  unfold round_even. cbv zeta. rewrite Heq.
  set (f := Qfloor y) in *.
  destruct (Qlt_bool (x - inject_Z f) (1 # 2)) eqn:E1;
    destruct (Qlt_bool (y - inject_Z f) (1 # 2)) eqn:E2;
    destruct (Qlt_bool (1 # 2) (x - inject_Z f)) eqn:E3;
    destruct (Qlt_bool (1 # 2) (y - inject_Z f)) eqn:E4;
    destruct (Z.even f); try lia;
    repeat match goal with
           | H : Qlt_bool _ _ = true |- _ => apply Qlt_bool_true_iff in H
           | H : Qlt_bool _ _ = false |- _ => apply Qlt_bool_false_iff in H
           end; lra.
Qed.

Lemma round_even_nonneg (q : Q) : 0 <= q -> (0 <= round_even q)%Z.
Proof.
  intro H. rewrite <- (round_even_Z 0 0%Z) by reflexivity.
  now apply round_even_mono.
Qed.

(** ** Rounding of positive rationals *)

Lemma round_pos_eq (q : Q) :
  round_pos q = inject_Z (round_even (q / pow2 (expo q))) * pow2 (expo q).
Proof. reflexivity. Qed.

Lemma expo_mono (x y : Q) : 0 < x -> x <= y -> (expo x <= expo y)%Z.
Proof. intros Hx Hxy. unfold expo. pose proof (ilog2_mono _ _ Hx Hxy). lia. Qed.

Lemma expo_comp (x y : Q) : 0 < x -> x == y -> expo x = expo y.
Proof. intros Hx Hxy. unfold expo. now rewrite (ilog2_comp _ _ Hx Hxy). Qed.

Lemma round_pos_comp (x y : Q) : 0 < x -> x == y -> round_pos x == round_pos y.
Proof.
  intros Hx Hxy. rewrite !round_pos_eq. rewrite (expo_comp _ _ Hx Hxy).
  rewrite (round_even_comp (x / pow2 (expo y)) (y / pow2 (expo y))); [reflexivity|].
  now rewrite Hxy.
Qed.

Lemma round_pos_nonneg (q : Q) : 0 < q -> 0 <= round_pos q.
Proof.
  intro Hq. rewrite round_pos_eq. pose proof (pow2_pos (expo q)) as Hp.
  apply Qmult_le_0_compat; [|lra].
  change 0 with (inject_Z 0). rewrite <- Zle_Qle. apply round_even_nonneg.
  apply Qle_shift_div_l; [assumption|]. lra.
Qed.

(** A multiple of the unit of its own binade is its own rounding. *)
Lemma round_pos_multiple (q : Q) (m : Z) :
  0 < q -> q == inject_Z m * pow2 (expo q) -> round_pos q == q.
Proof.
  intros Hq Hm. rewrite round_pos_eq. pose proof (pow2_pos (expo q)) as Hp.
  rewrite (round_even_Z _ m); [now rewrite <- Hm|].
  rewrite Hm at 1. field. lra.
Qed.

Lemma round_pos_mono (x y : Q) : 0 < x -> x <= y -> round_pos x <= round_pos y.
Proof.
  intros Hx Hxy. assert (Hy : 0 < y) by lra.
  pose proof (expo_mono _ _ Hx Hxy) as He.
  rewrite !round_pos_eq.
  pose proof (pow2_pos (expo x)) as Hpx. pose proof (pow2_pos (expo y)) as Hpy.
  destruct (Z.eq_dec (expo x) (expo y)) as [Heq|Hne].
  - rewrite Heq. apply Qmult_le_compat_r; [|lra].
    rewrite <- Zle_Qle. apply round_even_mono.
    apply Qmult_le_compat_r; [assumption|]. apply Qlt_le_weak. now apply Qinv_lt_0_compat.
  - (* different binades: the bottom of the binade of [y] lies between *)
    assert (Hlt : (expo x < expo y)%Z) by lia.
    assert (Hey : expo y = (ilog2 y - 52)%Z) by (unfold expo in *; lia).
    assert (Hk : (ilog2 x < ilog2 y)%Z) by (unfold expo in *; lia).
    destruct (ilog2_spec x Hx) as [_ Hx2]. destruct (ilog2_spec y Hy) as [Hy1 _].
    set (ky := ilog2 y) in *.
    (* round_pos y >= pow2 ky *)
    assert (Hlow : pow2 ky <= inject_Z (round_even (y / pow2 (expo y))) * pow2 (expo y)).
    { assert (H52 : pow2 ky == inject_Z (2 ^ 52) * pow2 (expo y)).
      { rewrite <- (pow2_Z 52) by lia. rewrite <- pow2_add. rewrite Hey.
        now replace (52 + (ky - 52))%Z with ky by lia. }
      rewrite H52. apply Qmult_le_compat_r; [|lra].
      rewrite <- Zle_Qle.
      apply Z.le_trans with (round_even (inject_Z (2 ^ 52)));
        [rewrite (round_even_Z _ (2 ^ 52)%Z) by reflexivity; apply Z.le_refl|].
      apply round_even_mono. apply Qle_shift_div_l; [assumption|]. rewrite <- H52. assumption. }
    (* round_pos x <= pow2 ky *)
    assert (Hup : inject_Z (round_even (x / pow2 (expo x))) * pow2 (expo x) <= pow2 ky).
    { assert (Hd : (0 <= ky - expo x)%Z) by (unfold expo in *; lia).
      assert (HN : pow2 ky == inject_Z (2 ^ (ky - expo x)) * pow2 (expo x)).
      { rewrite <- (pow2_Z _ Hd). rewrite <- pow2_add.
        now replace (ky - expo x + expo x)%Z with ky by lia. }
      rewrite HN. apply Qmult_le_compat_r; [|lra].
      rewrite <- Zle_Qle.
      apply Z.le_trans with (round_even (inject_Z (2 ^ (ky - expo x))));
        [|rewrite (round_even_Z _ (2 ^ (ky - expo x))%Z) by reflexivity; apply Z.le_refl].
      apply round_even_mono. apply Qle_shift_div_r; [assumption|]. rewrite <- HN.
      assert (pow2 (ilog2 x + 1) <= pow2 ky) by (apply pow2_le; lia). lra. }
    lra.
Qed.

(** ** Rounding of any rational *)

Lemma rnd_zero (q : Q) : q == 0 -> rnd q = 0.
Proof. intro H. unfold rnd. apply Qeq_bool_iff in H. now rewrite H. Qed.

Lemma rnd_pos (q : Q) : 0 < q -> rnd q = round_pos q.
Proof.
  intro H. unfold rnd.
  assert (E : Qeq_bool q 0 = false).
  { destruct (Qeq_bool q 0) eqn:E; [|reflexivity]. apply Qeq_bool_iff in E. lra. }
  rewrite E. apply Qlt_bool_true_iff in H. now rewrite H.
Qed.

Lemma rnd_neg (q : Q) : q < 0 -> rnd q = - round_pos (- q).
Proof.
  intro H. unfold rnd.
  assert (E : Qeq_bool q 0 = false).
  { destruct (Qeq_bool q 0) eqn:E; [|reflexivity]. apply Qeq_bool_iff in E. lra. }
  rewrite E.
  assert (E' : Qlt_bool 0 q = false) by (apply Qlt_bool_false_iff; lra).
  now rewrite E'.
Qed.

Lemma Q_sign_cases (q : Q) : q < 0 \/ q == 0 \/ 0 < q.
Proof.
  destruct (Qlt_le_dec q 0) as [H|H]; [now left|right].
  destruct (Qlt_le_dec 0 q) as [H'|H']; [now right|left; lra].
Qed.

Lemma rnd_nonneg (q : Q) : 0 <= q -> 0 <= rnd q.
Proof.
  intro H. destruct (Q_sign_cases q) as [Hc|[Hc|Hc]]; [lra| |].
  - rewrite (rnd_zero _ Hc). lra.
  - rewrite (rnd_pos _ Hc). now apply round_pos_nonneg.
Qed.

Lemma rnd_nonpos (q : Q) : q <= 0 -> rnd q <= 0.
Proof.
  intro H. destruct (Q_sign_cases q) as [Hc|[Hc|Hc]]; [| |lra].
  - rewrite (rnd_neg _ Hc). assert (0 <= round_pos (- q)) by (apply round_pos_nonneg; lra). lra.
  - rewrite (rnd_zero _ Hc). lra.
Qed.

Lemma rnd_mono (x y : Q) : x <= y -> rnd x <= rnd y.
Proof.
  intro H.
  destruct (Q_sign_cases x) as [Hx|[Hx|Hx]].
  - destruct (Q_sign_cases y) as [Hy|[Hy|Hy]].
    + rewrite (rnd_neg _ Hx), (rnd_neg _ Hy).
      assert (round_pos (- y) <= round_pos (- x)) by (apply round_pos_mono; lra). lra.
    + pose proof (rnd_nonpos x). rewrite (rnd_zero _ Hy). lra.
    + pose proof (rnd_nonpos x). pose proof (rnd_nonneg y). lra.
  - rewrite (rnd_zero _ Hx). apply rnd_nonneg. lra.
  - assert (Hy : 0 < y) by lra. rewrite (rnd_pos _ Hx), (rnd_pos _ Hy).
    now apply round_pos_mono.
Qed.

Lemma rnd_comp (x y : Q) : x == y -> rnd x == rnd y.
Proof.
  intro H. destruct (Q_sign_cases x) as [Hx|[Hx|Hx]].
  - assert (Hy : y < 0) by lra. rewrite (rnd_neg _ Hx), (rnd_neg _ Hy).
    rewrite (round_pos_comp (- x) (- y)); [reflexivity|lra|now rewrite H].
  - assert (Hy : y == 0) by lra. now rewrite (rnd_zero _ Hx), (rnd_zero _ Hy).
  - assert (Hy : 0 < y) by lra. rewrite (rnd_pos _ Hx), (rnd_pos _ Hy).
    now apply round_pos_comp.
Qed.

Lemma rnd_opp (q : Q) : rnd (- q) == - rnd q.
Proof.
  destruct (Q_sign_cases q) as [Hq|[Hq|Hq]].
  - rewrite (rnd_neg _ Hq). assert (H : 0 < - q) by lra. rewrite (rnd_pos _ H). ring.
  - rewrite (rnd_zero _ Hq). assert (H : - q == 0) by lra. rewrite (rnd_zero _ H). reflexivity.
  - rewrite (rnd_pos _ Hq). assert (H : - q < 0) by lra. rewrite (rnd_neg _ H).
    rewrite (round_pos_comp (- - q) q); [reflexivity|lra|ring].
Qed.

(** Whole numbers below 2^53 in magnitude are doubles. *)
Lemma rnd_Z (z : Z) : (Z.abs z < 2 ^ 53)%Z -> rnd (inject_Z z) == inject_Z z.
Proof.
  assert (Hpos : forall p : Z, (0 < p < 2 ^ 53)%Z -> rnd (inject_Z p) == inject_Z p).
  { intros p [Hp1 Hp2].
    assert (Hq : 0 < inject_Z p) by (change 0 with (inject_Z 0); now rewrite <- Zlt_Qlt).
    rewrite (rnd_pos _ Hq).
    assert (He : (expo (inject_Z p) <= 0)%Z).
    { unfold expo. destruct (ilog2_spec _ Hq) as [G1 _].
      assert (Hlt : pow2 (ilog2 (inject_Z p)) < pow2 53).
      { rewrite (pow2_Z 53) by lia. apply Qle_lt_trans with (inject_Z p); [assumption|].
        now rewrite <- Zlt_Qlt. }
      apply pow2_lt_inv in Hlt. unfold emin. lia. }
    apply (round_pos_multiple _ (p * 2 ^ (- expo (inject_Z p)))%Z); [assumption|].
    rewrite inject_Z_mult. rewrite <- (pow2_Z (- expo (inject_Z p))%Z) by lia.
    rewrite <- Qmult_assoc, <- pow2_add.
    replace (- expo (inject_Z p) + expo (inject_Z p))%Z with 0%Z by lia.
    change (pow2 0) with 1. ring. }
  intro H. destruct (Z.lt_trichotomy z 0) as [Hz|[Hz|Hz]].
  - assert (E : inject_Z z == - inject_Z (- z)) by (rewrite inject_Z_opp; ring).
    rewrite (rnd_comp _ _ E), rnd_opp, Hpos by lia. now rewrite E.
  - subst z. reflexivity.
  - apply Hpos. lia.
Qed.

(** ** Binary64 values are fixed by the rounding *)

(** A positive multiple of [2^e] with at most 53 significant bits. *)
Lemma round_pos_fix (x : Q) (m e : Z) :
  0 < x -> x == inject_Z m * pow2 e -> (emin <= e)%Z -> (m <= 2 ^ 53)%Z ->
  round_pos x == x.
Proof.
  intros Hx Hm He Hm53.
  pose proof (pow2_pos e) as Hpe.
  destruct (ilog2_spec x Hx) as [Hl Hu].
  assert (Hx53 : x <= pow2 (53 + e)).
  { rewrite Hm, pow2_add, (pow2_Z 53) by lia.
    apply Qmult_le_compat_r; [|lra]. now rewrite <- Zle_Qle. }
  assert (Hk : (ilog2 x <= 53 + e)%Z).
  { assert (pow2 (ilog2 x) < pow2 (53 + e + 1)).
    { apply Qle_lt_trans with x; [assumption|].
      apply Qle_lt_trans with (pow2 (53 + e)); [assumption|]. apply pow2_lt. lia. }
    apply pow2_lt_inv in H. lia. }
  destruct (Z_le_gt_dec (expo x) e) as [Hle|Hgt].
  - apply (round_pos_multiple x (m * 2 ^ (e - expo x))%Z); [assumption|].
    rewrite inject_Z_mult, <- (pow2_Z (e - expo x)) by lia.
    rewrite <- Qmult_assoc, <- pow2_add.
    now replace (e - expo x + expo x)%Z with e by lia.
  - assert (Hex : expo x = (e + 1)%Z) by (unfold expo in *; lia).
    assert (Hi : ilog2 x = (53 + e)%Z) by (unfold expo in *; lia).
    apply (round_pos_multiple x (2 ^ 52)%Z); [assumption|].
    rewrite Hex, <- (pow2_Z 52), <- pow2_add by lia.
    replace (52 + (e + 1))%Z with (53 + e)%Z by lia.
    rewrite Hi in Hl. lra.
Qed.

Lemma round_pos_significand (q : Q) :
  0 < q -> (round_even (q / pow2 (expo q)) <= 2 ^ 53)%Z.
Proof.
  intro Hq. pose proof (pow2_pos (expo q)) as Hp.
  destruct (ilog2_spec q Hq) as [_ Hu].
  rewrite <- (round_even_Z (inject_Z (2 ^ 53)) (2 ^ 53)%Z) by reflexivity.
  apply round_even_mono. apply Qle_shift_div_r; [assumption|].
  rewrite <- (pow2_Z 53), <- pow2_add by lia.
  apply Qlt_le_weak. apply Qlt_le_trans with (pow2 (ilog2 q + 1)); [assumption|].
  apply pow2_le. unfold expo. lia.
Qed.

Lemma round_pos_idem (q : Q) : 0 < q -> 0 < round_pos q ->
  round_pos (round_pos q) == round_pos q.
Proof.
  intros Hq Hr.
  apply (round_pos_fix _ (round_even (q / pow2 (expo q))) (expo q)).
  - assumption.
  - reflexivity.
  - unfold expo. lia.
  - now apply round_pos_significand.
Qed.

Lemma rnd_idem (q : Q) : rnd (rnd q) == rnd q.
Proof.
  assert (Hpos : forall x, 0 < x -> rnd (rnd x) == rnd x).
  { intros x Hx. rewrite (rnd_pos _ Hx).
    pose proof (round_pos_nonneg _ Hx) as Hr.
    destruct (Q_sign_cases (round_pos x)) as [Hc|[Hc|Hc]]; [lra| |].
    - rewrite (rnd_zero _ Hc). now rewrite Hc.
    - rewrite (rnd_pos _ Hc). now apply round_pos_idem. }
  destruct (Q_sign_cases q) as [Hq|[Hq|Hq]].
  - assert (Hn : 0 < - q) by lra.
    assert (E : rnd q == - rnd (- q)) by (rewrite rnd_opp; ring).
    rewrite (rnd_comp _ _ E), rnd_opp, (Hpos _ Hn). now rewrite E.
  - rewrite (rnd_zero _ Hq). reflexivity.
  - now apply Hpos.
Qed.

Lemma rnd_pow2 (k : Z) : (emin <= k)%Z -> rnd (pow2 k) == pow2 k.
Proof.
  intro Hk. pose proof (pow2_pos k) as Hp. rewrite (rnd_pos _ Hp).
  apply (round_pos_fix _ 1 k); [assumption| |assumption|lia].
  change (inject_Z 1) with 1. ring.
Qed.

Lemma rnd_one : rnd 1 == 1.
Proof. apply (rnd_Z 1). reflexivity. Qed.

(** Every value of the rounding is a multiple of the smallest subnormal. *)
Lemma rnd_grid (q : Q) : exists m : Z, rnd q == inject_Z m * pow2 emin.
Proof.
  assert (Hpos : forall x, 0 < x -> exists m : Z, round_pos x == inject_Z m * pow2 emin).
  { intros x Hx.
    exists (round_even (x / pow2 (expo x)) * 2 ^ (expo x - emin))%Z.
    assert (He : (0 <= expo x - emin)%Z) by (unfold expo; lia).
    rewrite round_pos_eq, inject_Z_mult, <- (pow2_Z _ He), <- Qmult_assoc, <- pow2_add.
    now replace (expo x - emin + emin)%Z with (expo x) by lia. }
  destruct (Q_sign_cases q) as [Hq|[Hq|Hq]].
  - assert (Hn : 0 < - q) by lra. destruct (Hpos _ Hn) as [m Hm].
    exists (- m)%Z. rewrite (rnd_neg _ Hq), Hm, inject_Z_opp. ring.
  - exists 0%Z. rewrite (rnd_zero _ Hq). change (inject_Z 0) with 0. ring.
  - destruct (Hpos _ Hq) as [m Hm]. exists m. now rewrite (rnd_pos _ Hq).
Qed.

(** Two binary64 values that differ do so by a binary64 value: their
    difference does not round to zero. *)
Lemma rnd_difference_pos (a b : Q) :
  rnd a == a -> rnd b == b -> b < a -> 0 < rnd (a - b).
Proof.
  intros Ha Hb Hlt.
  destruct (rnd_grid a) as [ma Hma]. destruct (rnd_grid b) as [mb Hmb].
  rewrite Ha in Hma. rewrite Hb in Hmb.
  pose proof (pow2_pos emin) as Hp.
  assert (Hz : (mb < ma)%Z).
  { destruct (Z_lt_ge_dec mb ma) as [H|H]; [assumption|exfalso].
    apply Z.ge_le in H. rewrite Zle_Qle in H.
    assert (inject_Z ma * pow2 emin <= inject_Z mb * pow2 emin)
      by (apply Qmult_le_compat_r; [assumption|lra]).
    lra. }
  assert (Hd : pow2 emin <= a - b).
  { rewrite Hma, Hmb.
    assert (E : inject_Z ma * pow2 emin - inject_Z mb * pow2 emin
                == inject_Z (ma - mb) * pow2 emin).
    { unfold Z.sub. rewrite inject_Z_plus, inject_Z_opp. ring. }
    rewrite E.
    assert (H1 : 1 <= inject_Z (ma - mb)).
    { change 1 with (inject_Z 1). rewrite <- Zle_Qle. lia. }
    assert (1 * pow2 emin <= inject_Z (ma - mb) * pow2 emin)
      by (apply Qmult_le_compat_r; [assumption|lra]).
    lra. }
  apply Qlt_le_trans with (rnd (pow2 emin)).
  - rewrite rnd_pow2 by lia. assumption.
  - now apply rnd_mono.
Qed.

(** ** The reduced rounding [fl] *)

Lemma fl_eq (q : Q) : fl q == rnd q.
Proof. apply Qred_correct. Qed.

Lemma fl_comp (x y : Q) : x == y -> fl x = fl y.
Proof. intro H. apply Qred_complete. now apply rnd_comp. Qed.

Lemma fl_zero (q : Q) : q == 0 -> fl q = 0.
Proof. intro H. unfold fl. now rewrite (rnd_zero _ H). Qed.

Lemma fl_mono (x y : Q) : x <= y -> fl x <= fl y.
Proof. intro H. rewrite !fl_eq. now apply rnd_mono. Qed.

Lemma fl_nonneg (q : Q) : 0 <= q -> 0 <= fl q.
Proof. intro H. rewrite fl_eq. now apply rnd_nonneg. Qed.

Lemma fl_one : fl 1 == 1.
Proof. rewrite fl_eq. apply rnd_one. Qed.

Lemma fl_le_one (q : Q) : q <= 1 -> fl q <= 1.
Proof. intro H. rewrite <- fl_one. now apply fl_mono. Qed.

Lemma fl_ge_one (q : Q) : 1 <= q -> 1 <= fl q.
Proof. intro H. rewrite <- fl_one. now apply fl_mono. Qed.

(** A reduced fraction equal to 1 is the fraction [1]. *)
Lemma fl_is_one (q : Q) : fl q == 1 -> fl q = 1.
Proof.
  intro H. unfold fl in *. rewrite Qred_correct in H.
  change 1 with (Qred 1). now apply Qred_complete.
Qed.

Lemma fl_idem (q : Q) : fl (fl q) == fl q.
Proof. rewrite fl_eq, (rnd_comp _ _ (fl_eq q)), rnd_idem. symmetry. apply fl_eq. Qed.

Lemma representable_Z (z : Z) : (Z.abs z < 2 ^ 53)%Z -> representable (inject_Z z).
Proof.
  intro H. split; [now apply rnd_Z|].
  apply Qlt_trans with (inject_Z (2 ^ 53)).
  - assert (E : Qabs (inject_Z z) == inject_Z (Z.abs z)).
    { unfold Qabs, inject_Z. reflexivity. }
    rewrite E. now rewrite <- Zlt_Qlt.
  - rewrite <- (pow2_Z 53) by lia. apply pow2_lt. lia.
Qed.

(** ** Comparisons respect the equality of rationals *)

Lemma Qle_bool_comp (a a' b b' : Q) :
  a == a' -> b == b' -> Qle_bool a b = Qle_bool a' b'.
Proof.
  intros Ha Hb.
  destruct (Qle_bool a b) eqn:E; destruct (Qle_bool a' b') eqn:E'; try reflexivity;
    [apply Qle_bool_iff in E; apply Qle_bool_false_lt in E'
    |apply Qle_bool_iff in E'; apply Qle_bool_false_lt in E]; lra.
Qed.

Lemma Qlt_bool_comp (a a' b b' : Q) :
  a == a' -> b == b' -> Qlt_bool a b = Qlt_bool a' b'.
Proof. intros Ha Hb. unfold Qlt_bool. f_equal. now apply Qle_bool_comp. Qed.

Lemma Qeq_bool_comp (a a' : Q) : a == a' -> Qeq_bool a 0 = Qeq_bool a' 0.
Proof.
  intro Ha.
  destruct (Qeq_bool a 0) eqn:E; destruct (Qeq_bool a' 0) eqn:E'; try reflexivity.
  - apply Qeq_bool_iff in E. apply Qeq_bool_neq in E'. exfalso. apply E'. lra.
  - apply Qeq_bool_iff in E'. apply Qeq_bool_neq in E. exfalso. apply E. lra.
Qed.

Lemma Qeq_bool_false (a : Q) : ~ a == 0 -> Qeq_bool a 0 = false.
Proof.
  intro H. destruct (Qeq_bool a 0) eqn:E; [|reflexivity].
  apply Qeq_bool_iff in E. contradiction.
Qed.

Lemma Qeq_bool_true (a : Q) : a == 0 -> Qeq_bool a 0 = true.
Proof. intro H. now apply Qeq_bool_iff. Qed.

(** ** The result of one operation *)

Lemma round_comp (x y : Q) : x == y -> round x = round y.
Proof.
  intro H. unfold round, overflows.
  pose proof (rnd_comp _ _ H) as Hr.
  rewrite (Qle_bool_comp (pow2 1024) (pow2 1024) (Qabs (rnd x)) (Qabs (rnd y)));
    [|reflexivity|now rewrite Hr].
  rewrite (Qlt_bool_comp 0 0 x y), (Qlt_bool_comp x y 0 0), (Qeq_bool_comp _ _ Hr);
    try reflexivity; try assumption.
  now rewrite (fl_comp _ _ H).
Qed.

Lemma overflows_false_nonneg (r : Q) : 0 <= r -> r < pow2 1024 -> overflows r = false.
Proof.
  intros H0 H. unfold overflows.
  destruct (Qle_bool (pow2 1024) (Qabs r)) eqn:E; [|reflexivity].
  apply Qle_bool_iff in E. rewrite Qabs_pos in E by assumption. lra.
Qed.

Lemma overflows_true_nonneg (r : Q) : pow2 1024 <= r -> overflows r = true.
Proof.
  intro H. unfold overflows. apply Qle_bool_iff.
  pose proof (pow2_pos 1024). rewrite Qabs_pos by lra. assumption.
Qed.

(** A non-negative exact result below the overflow threshold. *)
Lemma round_nonneg (q : Q) : 0 <= q -> rnd q < pow2 1024 -> round q = Fin (fl q).
Proof.
  intros Hq Hr. unfold round.
  rewrite (overflows_false_nonneg _ (rnd_nonneg _ Hq) Hr).
  destruct (Qeq_bool (rnd q) 0) eqn:E; [|reflexivity].
  apply Qeq_bool_iff in E.
  assert (E' : Qlt_bool q 0 = false) by now apply Qlt_bool_false_iff.
  rewrite E'. f_equal. unfold fl. change 0 with (Qred 0) at 1. symmetry.
  now apply Qred_complete.
Qed.

Lemma round_overflow (q : Q) : 0 < q -> pow2 1024 <= rnd q -> round q = PosInf.
Proof.
  intros Hq Hr. unfold round. rewrite (overflows_true_nonneg _ Hr).
  apply Qlt_bool_true_iff in Hq. now rewrite Hq.
Qed.

Lemma round_pos_cases (q : Q) : 0 < q ->
  round q = PosInf \/ (round q = Fin (fl q) /\ rnd q < pow2 1024).
Proof.
  intro Hq. destruct (Qlt_le_dec (rnd q) (pow2 1024)) as [H|H].
  - right. split; [apply round_nonneg; [lra|assumption]|assumption].
  - left. now apply round_overflow.
Qed.

(** A negative exact result: [-Infinity] on overflow, [-0] on underflow, a
    negative value otherwise. *)
Lemma round_neg_cases (q : Q) : q < 0 ->
  round q = NegInf \/ (round q = NegZero /\ rnd q == 0)
  \/ (round q = Fin (fl q) /\ fl q < 0).
Proof.
  intro Hq. unfold round.
  assert (E1 : Qlt_bool 0 q = false) by (apply Qlt_bool_false_iff; lra).
  assert (E2 : Qlt_bool q 0 = true) by now apply Qlt_bool_true_iff.
  rewrite E1, E2.
  destruct (overflows (rnd q)); [now left|right].
  destruct (Qeq_bool (rnd q) 0) eqn:E.
  - left. apply Qeq_bool_iff in E. now split.
  - right. split; [reflexivity|].
    apply Qeq_bool_neq in E. pose proof (rnd_nonpos q) as Hn.
    rewrite fl_eq. assert (rnd q <= 0) by (apply Hn; lra).
    destruct (Q_sign_cases (rnd q)) as [Hc|[Hc|Hc]]; [assumption|contradiction|lra].
Qed.

(** ** The operations on non-negative finite operands *)

Lemma sign_bit_nonneg (a : Q) : 0 <= a -> sign_bit (Fin a) = false.
Proof. intro H. now apply Qlt_bool_false_iff. Qed.

Lemma sign_bit_neg (a : Q) : a < 0 -> sign_bit (Fin a) = true.
Proof. intro H. now apply Qlt_bool_true_iff. Qed.

Lemma num_sub_nonneg (a b : Q) :
  b <= a -> rnd (a - b) < pow2 1024 -> num_sub (Fin a) (Fin b) = Fin (fl (a - b)).
Proof.
  intros Hab Hr. unfold num_sub, num_neg.
  destruct (Qeq_bool b 0) eqn:Eb.
  - apply Qeq_bool_iff in Eb. cbn [num_add].
    destruct (Qeq_bool a 0) eqn:Ea.
    + apply Qeq_bool_iff in Ea. rewrite fl_zero; [reflexivity|lra].
    + rewrite (round_comp a (a - b)) by lra. apply round_nonneg; [lra|assumption].
  - cbn [num_add].
    destruct (Qeq_bool (a + - b) 0) eqn:E.
    + apply Qeq_bool_iff in E. rewrite fl_zero; [reflexivity|lra].
    + apply round_nonneg; [lra|assumption].
Qed.

Lemma num_sub_overflow (a b : Q) :
  b < a -> pow2 1024 <= rnd (a - b) -> num_sub (Fin a) (Fin b) = PosInf.
Proof.
  intros Hab Hr. unfold num_sub, num_neg.
  destruct (Qeq_bool b 0) eqn:Eb.
  - apply Qeq_bool_iff in Eb. cbn [num_add].
    rewrite Qeq_bool_false by lra.
    rewrite (round_comp a (a - b)) by lra. apply round_overflow; [lra|assumption].
  - cbn [num_add]. rewrite Qeq_bool_false by lra.
    apply round_overflow; [lra|assumption].
Qed.

Lemma num_div_nonneg (a d : Q) :
  0 <= a -> 0 < d -> rnd (a / d) < pow2 1024 -> num_div (Fin a) (Fin d) = Fin (fl (a / d)).
Proof.
  intros Ha Hd Hr. unfold num_div. cbn [finite_value].
  rewrite (sign_bit_nonneg a Ha), (sign_bit_nonneg d) by lra. cbn [xorb signed_zero].
  rewrite (Qeq_bool_false d) by lra.
  assert (Hq : 0 <= a / d) by (apply Qle_shift_div_l; [assumption|lra]).
  destruct (Qeq_bool a 0) eqn:Ea.
  - apply Qeq_bool_iff in Ea. rewrite fl_zero; [reflexivity|].
    rewrite Ea. unfold Qdiv. ring.
  - now apply round_nonneg.
Qed.

Lemma num_div_overflow (a d : Q) :
  0 < a -> 0 < d -> pow2 1024 <= rnd (a / d) -> num_div (Fin a) (Fin d) = PosInf.
Proof.
  intros Ha Hd Hr. unfold num_div. cbn [finite_value].
  rewrite (Qeq_bool_false d), (Qeq_bool_false a) by lra.
  apply round_overflow; [|assumption].
  apply Qlt_shift_div_l; [assumption|lra].
Qed.

Lemma num_div_PosInf (d : Q) : 0 < d -> num_div PosInf (Fin d) = PosInf.
Proof.
  intro Hd. unfold num_div. cbn [finite_value sign_bit].
  assert (E : Qlt_bool d 0 = false) by (apply Qlt_bool_false_iff; lra).
  now rewrite E.
Qed.

Lemma num_mul_nonneg (a b : Q) :
  0 <= a -> 0 <= b -> rnd (a * b) < pow2 1024 -> num_mul (Fin a) (Fin b) = Fin (fl (a * b)).
Proof.
  intros Ha Hb Hr. unfold num_mul. cbn [finite_value].
  rewrite (sign_bit_nonneg a Ha), (sign_bit_nonneg b Hb). cbn [xorb signed_zero].
  destruct (Qeq_bool (a * b) 0) eqn:E.
  - apply Qeq_bool_iff in E. now rewrite fl_zero.
  - apply round_nonneg; [|assumption]. now apply Qmult_le_0_compat.
Qed.

Lemma num_add_nonneg (a b : Q) :
  0 <= a + b -> rnd (a + b) < pow2 1024 -> num_add (Fin a) (Fin b) = Fin (fl (a + b)).
Proof.
  intros Hab Hr. cbn [num_add].
  destruct (Qeq_bool (a + b) 0) eqn:E.
  - apply Qeq_bool_iff in E. now rewrite fl_zero.
  - now apply round_nonneg.
Qed.

Lemma pow2_1024_gt_1 : 1 < pow2 1024.
Proof. change 1 with (pow2 0). apply pow2_lt. lia. Qed.

Lemma rnd_small (q : Q) : q <= 1 -> rnd q < pow2 1024.
Proof.
  intro H. apply Qle_lt_trans with 1; [|apply pow2_1024_gt_1].
  rewrite <- rnd_one. now apply rnd_mono.
Qed.

(** ** The progress on valid input *)

Lemma progress64_range (D t0 t : Q) : 0 < D -> t0 <= t -> 0 <= progress64 D t0 t <= 1.
Proof.
  intros HD Ht. unfold progress64. cbv zeta.
  assert (H0 : 0 <= fl (fl (t - t0) / D)).
  { apply fl_nonneg. apply Qle_shift_div_l; [assumption|].
    assert (0 <= fl (t - t0)) by (apply fl_nonneg; lra). lra. }
  destruct (Qle_bool (fl (fl (t - t0) / D)) 1) eqn:E.
  - apply Qle_bool_iff in E. split; assumption.
  - split; lra.
Qed.

Lemma progress64_mono (D t0 t1 t2 : Q) :
  0 < D -> t1 <= t2 -> progress64 D t0 t1 <= progress64 D t0 t2.
Proof.
  intros HD Ht. unfold progress64. cbv zeta.
  assert (H : fl (fl (t1 - t0) / D) <= fl (fl (t2 - t0) / D)).
  { apply fl_mono. apply Qmult_le_compat_r.
    - apply fl_mono. lra.
    - apply Qlt_le_weak. now apply Qinv_lt_0_compat. }
  destruct (Qle_bool (fl (fl (t1 - t0) / D)) 1) eqn:E1;
    destruct (Qle_bool (fl (fl (t2 - t0) / D)) 1) eqn:E2;
    try (apply Qle_bool_iff in E1); try (apply Qle_bool_iff in E2);
    try (apply Qle_bool_false_lt in E1); try (apply Qle_bool_false_lt in E2); lra.
Qed.

(** At or after [t0 + D] the progress is 1. *)
Lemma progress64_done (D t0 t : Q) :
  0 < D -> rnd D == D -> t0 + D <= t -> progress64 D t0 t = 1.
Proof.
  intros HD HrD Ht. unfold progress64. cbv zeta.
  assert (H : 1 <= fl (fl (t - t0) / D)).
  { apply fl_ge_one. apply Qle_shift_div_l; [assumption|].
    assert (rnd D <= rnd (t - t0)) by (apply rnd_mono; lra).
    rewrite fl_eq. lra. }
  destruct (Qle_bool (fl (fl (t - t0) / D)) 1) eqn:E; [|reflexivity].
  apply Qle_bool_iff in E. apply fl_is_one. lra.
Qed.

Lemma Qle_bool_gt (a b : Q) : b < a -> Qle_bool a b = false.
Proof.
  intro H. destruct (Qle_bool a b) eqn:E; [|reflexivity].
  apply Qle_bool_iff in E. lra.
Qed.

Lemma progress_at_valid (el : nat) (F : num) (D t0 t : Q) :
  0 < D -> D < pow2 1024 -> t0 <= t ->
  progress_at {| element := el; finalNumber := F; duration := Fin D; startTime := Fin t0 |}
              (Fin t)
  = Fin (progress64 D t0 t).
Proof.
  intros HD HDmax Ht. unfold progress_at. cbn [startTime duration].
  pose proof pow2_1024_gt_1 as H1024.
  destruct (Qlt_le_dec (rnd (t - t0)) (pow2 1024)) as [He|He].
  - rewrite (num_sub_nonneg t t0 Ht He).
    assert (He0 : 0 <= fl (t - t0)) by (apply fl_nonneg; lra).
    destruct (Qlt_le_dec (rnd (fl (t - t0) / D)) (pow2 1024)) as [Hq|Hq].
    + rewrite (num_div_nonneg _ _ He0 HD Hq). reflexivity.
    + assert (Hpos : 0 < fl (t - t0)).
      { destruct (Q_sign_cases (fl (t - t0))) as [Hc|[Hc|Hc]]; [lra| |assumption].
        exfalso. assert (E : fl (t - t0) / D == 0) by (rewrite Hc; unfold Qdiv; ring).
        rewrite (rnd_zero _ E) in Hq. lra. }
      rewrite (num_div_overflow _ _ Hpos HD Hq). cbn [Math_min of_Z].
      unfold progress64. cbv zeta.
      rewrite Qle_bool_gt; [reflexivity|]. rewrite fl_eq. lra.
  - assert (Hlt : t0 < t).
    { destruct (Qlt_le_dec t0 t) as [H|H]; [assumption|exfalso].
      assert (E : t - t0 == 0) by lra. rewrite (rnd_zero _ E) in He. lra. }
    rewrite (num_sub_overflow t t0 Hlt He), (num_div_PosInf D HD). cbn [Math_min of_Z].
    unfold progress64. cbv zeta.
    assert (Hge : 1 <= fl (fl (t - t0) / D)).
    { apply fl_ge_one. apply Qle_shift_div_l; [assumption|]. rewrite fl_eq. lra. }
    destruct (Qle_bool (fl (fl (t - t0) / D)) 1) eqn:E; [|reflexivity].
    apply Qle_bool_iff in E. unfold of_Z. change (inject_Z 1) with 1.
    f_equal. symmetry. apply fl_is_one. lra.
Qed.

(** ** The eased progress and the value on valid input *)

Lemma eased64_range (p : Q) : 0 <= p <= 1 -> 0 <= eased64 p <= 1.
Proof.
  intros [Hp0 Hp1]. unfold eased64. cbv zeta.
  assert (Hu0 : 0 <= fl (1 - p)) by (apply fl_nonneg; lra).
  assert (Hu1 : fl (1 - p) <= 1) by (apply fl_le_one; lra).
  assert (Hs0 : 0 <= fl (fl (1 - p) * fl (1 - p)))
    by (apply fl_nonneg; now apply Qmult_le_0_compat).
  assert (Hs1 : fl (fl (1 - p) * fl (1 - p)) <= 1) by (apply fl_le_one; nra).
  split; [apply fl_nonneg|apply fl_le_one]; lra.
Qed.

Lemma eased64_mono (p1 p2 : Q) :
  0 <= p1 -> p1 <= p2 -> p2 <= 1 -> eased64 p1 <= eased64 p2.
Proof.
  intros H0 H12 H1. unfold eased64. cbv zeta.
  assert (Hu2 : 0 <= fl (1 - p2)) by (apply fl_nonneg; lra).
  assert (Hu : fl (1 - p2) <= fl (1 - p1)) by (apply fl_mono; lra).
  assert (Hs : fl (fl (1 - p2) * fl (1 - p2)) <= fl (fl (1 - p1) * fl (1 - p1)))
    by (apply fl_mono; nra).
  apply fl_mono. lra.
Qed.

Lemma eased64_one (p : Q) : p == 1 -> eased64 p == 1.
Proof.
  intro Hp. unfold eased64. cbv zeta.
  rewrite (fl_zero (1 - p)) by lra.
  rewrite (fl_zero (0 * 0)) by ring.
  rewrite (fl_comp (1 - 0) 1) by ring. apply fl_one.
Qed.

Lemma eased_valid (p : Q) : 0 <= p <= 1 ->
  num_sub (of_Z 1) (Math_pow2 (num_sub (of_Z 1) (Fin p))) = Fin (eased64 p).
Proof.
  intros [Hp0 Hp1]. unfold of_Z, Math_pow2. change (inject_Z 1) with 1.
  assert (Hu0 : 0 <= fl (1 - p)) by (apply fl_nonneg; lra).
  assert (Hu1 : fl (1 - p) <= 1) by (apply fl_le_one; lra).
  assert (Hs1 : fl (fl (1 - p) * fl (1 - p)) <= 1) by (apply fl_le_one; nra).
  rewrite (num_sub_nonneg 1 p Hp1) by (apply rnd_small; lra).
  rewrite (num_mul_nonneg _ _ Hu0 Hu0) by (apply rnd_small; nra).
  rewrite (num_sub_nonneg 1 _ Hs1); [reflexivity|].
  apply rnd_small.
  assert (0 <= fl (fl (1 - p) * fl (1 - p)))
    by (apply fl_nonneg; now apply Qmult_le_0_compat).
  lra.
Qed.

Lemma scaled64_range (F : Z) (g : Q) :
  (0 <= F)%Z -> rnd (inject_Z F) == inject_Z F -> 0 <= g <= 1 ->
  0 <= fl (fl (inject_Z F - 0) * g) <= inject_Z F
  /\ 0 <= fl (0 + fl (fl (inject_Z F - 0) * g)) <= inject_Z F.
Proof.
  intros HF HrF [Hg0 Hg1].
  assert (HFq : 0 <= inject_Z F) by (change 0 with (inject_Z 0); now rewrite <- Zle_Qle).
  assert (HF' : fl (inject_Z F - 0) == inject_Z F).
  { rewrite fl_eq, (rnd_comp (inject_Z F - 0) (inject_Z F)) by ring. assumption. }
  assert (Hm0 : 0 <= fl (fl (inject_Z F - 0) * g)).
  { apply fl_nonneg. rewrite HF'. now apply Qmult_le_0_compat. }
  assert (Hm1 : fl (fl (inject_Z F - 0) * g) <= inject_Z F).
  { rewrite <- HrF at 2. rewrite fl_eq. apply rnd_mono. rewrite HF'. nra. }
  split; [split; assumption|].
  split; [apply fl_nonneg; lra|].
  rewrite <- HrF at 2. rewrite fl_eq. apply rnd_mono. lra.
Qed.

Lemma inject_Z_nonneg (z : Z) : (0 <= z)%Z -> 0 <= inject_Z z.
Proof. intro H. change 0 with (inject_Z 0). now rewrite <- Zle_Qle. Qed.

Lemma currentValue_at_eq (a : animation) (t : num) :
  currentValue_at a t = value_of_progress (finalNumber a) (progress_at a t).
Proof. reflexivity. Qed.

(** With a progress between 0 and 1 the value stays finite. *)
Lemma value_of_progress_valid (F : Z) (p : Q) :
  (0 <= F)%Z -> representable (inject_Z F) -> 0 <= p <= 1 ->
  value_of_progress (of_Z F) (Fin p)
  = of_Z (Qfloor (fl (0 + fl (fl (inject_Z F - 0) * eased64 p)))).
Proof.
  intros HF [HrF HFmax] Hp. unfold value_of_progress. cbv zeta.
  rewrite (eased_valid _ Hp).
  pose proof (eased64_range _ Hp) as Hg.
  destruct (scaled64_range F _ HF HrF Hg) as [[Hm0 Hm1] [Hy0 Hy1]].
  pose proof (inject_Z_nonneg F HF) as HFq.
  rewrite Qabs_pos in HFmax by assumption.
  unfold startValue, of_Z. change (inject_Z 0) with 0.
  assert (HF' : fl (inject_Z F - 0) == inject_Z F).
  { rewrite fl_eq, (rnd_comp (inject_Z F - 0) (inject_Z F)) by ring. assumption. }
  rewrite (num_sub_nonneg (inject_Z F) 0 HFq)
    by (rewrite (rnd_comp (inject_Z F - 0) (inject_Z F)) by ring; lra).
  assert (B1 : rnd (fl (inject_Z F - 0) * eased64 p) < pow2 1024).
  { rewrite <- fl_eq. lra. }
  assert (HF0 : 0 <= fl (inject_Z F - 0)) by lra.
  rewrite (num_mul_nonneg _ _ HF0 (proj1 Hg) B1).
  assert (B2 : rnd (0 + fl (fl (inject_Z F - 0) * eased64 p)) < pow2 1024).
  { rewrite <- fl_eq. lra. }
  assert (B3 : 0 <= 0 + fl (fl (inject_Z F - 0) * eased64 p)) by lra.
  rewrite (num_add_nonneg 0 _ B3 B2).
  reflexivity.
Qed.

Lemma scaled64_done (F : Z) (p : Q) :
  rnd (inject_Z F) == inject_Z F -> p == 1 ->
  Qfloor (fl (0 + fl (fl (inject_Z F - 0) * eased64 p))) = F.
Proof.
  intros HrF Hp.
  rewrite <- (Qfloor_Z F) at 2. apply Qfloor_comp.
  assert (HF' : fl (inject_Z F - 0) == inject_Z F).
  { rewrite fl_eq, (rnd_comp (inject_Z F - 0) (inject_Z F)) by ring. assumption. }
  assert (E1 : fl (inject_Z F - 0) * eased64 p == inject_Z F).
  { rewrite HF', (eased64_one _ Hp). ring. }
  assert (E2 : fl (fl (inject_Z F - 0) * eased64 p) == inject_Z F).
  { rewrite fl_eq, (rnd_comp _ _ E1). assumption. }
  assert (E3 : 0 + fl (fl (inject_Z F - 0) * eased64 p) == inject_Z F).
  { rewrite E2. ring. }
  rewrite fl_eq, (rnd_comp _ _ E3). assumption.
Qed.

(** On valid input every step of [animate] stays finite: it writes the
    whole number [value64] and reschedules while [progress64] is below 1. *)
Lemma animate_valid (el : nat) (F : Z) (D t0 t : Q) :
  (0 <= F)%Z -> representable (inject_Z F) -> 0 < D -> D < pow2 1024 -> t0 <= t ->
  animate (animateCounter (Fin t0) el (of_Z F) (Some (Fin D))) (Fin t)
  = (of_Z (value64 F D t0 t), Qlt_bool (progress64 D t0 t) 1).
Proof.
  intros HF HrF HD HDmax Ht.
  unfold animate. rewrite currentValue_at_eq. unfold animateCounter.
  rewrite (progress_at_valid el (of_Z F) D t0 t HD HDmax Ht).
  cbn [finalNumber].
  rewrite (value_of_progress_valid F _ HF HrF (progress64_range D t0 t HD Ht)).
  reflexivity.
Qed.

Lemma value64_bounds (F : Z) (D t0 t : Q) :
  (0 <= F)%Z -> rnd (inject_Z F) == inject_Z F -> 0 < D -> t0 <= t ->
  (0 <= value64 F D t0 t <= F)%Z.
Proof.
  intros HF HrF HD Ht.
  pose proof (eased64_range _ (progress64_range D t0 t HD Ht)) as Hg.
  destruct (scaled64_range F _ HF HrF Hg) as [_ [Hy0 Hy1]].
  unfold value64. split.
  - apply Z.le_trans with (Qfloor 0); [vm_compute; discriminate|].
    now apply Qfloor_resp_le.
  - rewrite <- (Qfloor_Z F) at 2. now apply Qfloor_resp_le.
Qed.

Lemma value64_mono (F : Z) (D t0 t1 t2 : Q) :
  (0 <= F)%Z -> 0 < D -> t0 <= t1 -> t1 <= t2 ->
  (value64 F D t0 t1 <= value64 F D t0 t2)%Z.
Proof.
  intros HF HD H1 H2. unfold value64.
  pose proof (progress64_range D t0 t1 HD H1) as [Hp0 _].
  assert (H02 : t0 <= t2) by lra.
  pose proof (progress64_range D t0 t2 HD H02) as [_ Hp1].
  pose proof (progress64_mono D t0 t1 t2 HD H2) as Hp.
  pose proof (eased64_mono _ _ Hp0 Hp Hp1) as Hg.
  assert (HF' : 0 <= fl (inject_Z F - 0)).
  { apply fl_nonneg. pose proof (inject_Z_nonneg F HF). lra. }
  apply Qfloor_resp_le. apply fl_mono.
  assert (fl (fl (inject_Z F - 0) * eased64 (progress64 D t0 t1))
          <= fl (fl (inject_Z F - 0) * eased64 (progress64 D t0 t2)))
    by (apply fl_mono; nra).
  lra.
Qed.

Lemma value64_done (F : Z) (D t0 t : Q) :
  rnd (inject_Z F) == inject_Z F -> progress64 D t0 t == 1 -> value64 F D t0 t = F.
Proof. intros HrF Hp. unfold value64. now apply scaled64_done. Qed.

(** ** The emitted sequence *)

Lemma steps64_In (D t0 : Q) (times : list Q) (t : Q) :
  In t (steps64 D t0 times) -> In t times.
Proof.
  induction times as [|x rest IH]; cbn [steps64]; [tauto|].
  intros [H|H]; [now left|].
  destruct (Qlt_bool (progress64 D t0 x) 1); [right; now apply IH|destruct H].
Qed.

Lemma steps64_sorted (D t0 : Q) (times : list Q) :
  StronglySorted Qle times -> StronglySorted Qle (steps64 D t0 times).
Proof.
  induction 1 as [|x rest Hs IH Hall]; cbn [steps64]; [constructor|].
  constructor.
  - destruct (Qlt_bool (progress64 D t0 x) 1); [assumption|constructor].
  - rewrite Forall_forall in *. intros t Hin. apply Hall.
    destruct (Qlt_bool (progress64 D t0 x) 1); [now apply steps64_In in Hin|destruct Hin].
Qed.

(** When a frame time reaches [t0 + D], the steps end with one of progress 1. *)
Lemma steps64_last (D t0 : Q) (times : list Q) :
  0 < D -> rnd D == D -> Exists (fun t => t0 + D <= t) times ->
  exists pre t, steps64 D t0 times = pre ++ [t] /\ progress64 D t0 t == 1.
Proof.
  intros HD HrD. induction times as [|x rest IH]; intro Hex.
  - inversion Hex.
  - cbn [steps64]. destruct (Qlt_bool (progress64 D t0 x) 1) eqn:E.
    + apply Qlt_bool_true_iff in E.
      assert (Hrest : Exists (fun t => t0 + D <= t) rest).
      { inversion Hex as [? ? Hx|? ? Hr]; subst; [|assumption].
        rewrite (progress64_done D t0 x HD HrD Hx) in E. lra. }
      destruct (IH Hrest) as (pre & t & Heq & Ht).
      exists (x :: pre), t. rewrite Heq. now split.
    + apply Qlt_bool_false_iff in E. exists [], x. split; [reflexivity|].
      unfold progress64 in *. cbv zeta in *.
      destruct (Qle_bool (fl (fl (x - t0) / D)) 1) eqn:E1; [|reflexivity].
      apply Qle_bool_iff in E1. lra.
Qed.

Lemma emitted_valid (el : nat) (F : Z) (D t0 : Q) (times : list Q) :
  (0 <= F)%Z -> representable (inject_Z F) -> 0 < D -> D < pow2 1024 ->
  Forall (fun t => t0 <= t) times ->
  emitted (animateCounter (Fin t0) el (of_Z F) (Some (Fin D))) (map Fin times)
  = map of_Z (map (value64 F D t0) (steps64 D t0 times)).
Proof.
  intros HF HrF HD HDmax. induction times as [|x rest IH]; intro Hall; [reflexivity|].
  inversion Hall as [|? ? Hx Hrest]; subst.
  cbn [map emitted steps64].
  rewrite (animate_valid el F D t0 x HF HrF HD HDmax Hx).
  destruct (Qlt_bool (progress64 D t0 x) 1).
  - cbn [map]. f_equal. now apply IH.
  - reflexivity.
Qed.

Lemma values64_sorted (F : Z) (D t0 : Q) (ts : list Q) :
  (0 <= F)%Z -> 0 < D -> StronglySorted Qle (t0 :: ts) ->
  StronglySorted Z.le (map (value64 F D t0) ts).
Proof.
  intros HF HD Hs. inversion Hs as [|? ? Hts Hge]; subst. clear Hs.
  induction Hts as [|x rest Hr IH Hall]; cbn [map]; [constructor|].
  inversion Hge as [|? ? Hx Hge']; subst.
  constructor; [now apply IH|].
  rewrite Forall_forall in *. intros v Hv.
  apply in_map_iff in Hv. destruct Hv as (t & <- & Hin).
  apply value64_mono; auto.
Qed.

(** C2. For every whole [finalValue >= 0], every duration [D > 0] (both
    binary64 values) and every non-decreasing sequence of step times
    starting at [t0], the interpolator, computing in binary64 arithmetic,
    emits one whole number per step, up to the first step whose progress is
    1; the sequence is non-decreasing and lies in [[0, finalValue]]; a step
    that does not reschedule (progress 1) writes exactly [finalValue], and
    when the steps reach [t0 + D] that is the last value emitted; for
    [finalValue = 0] every emitted value is 0. *)
Theorem emitted_binary64_nondecreasing_bounded_exact
    (el : nat) (finalValue : Z) (D t0 : Q) (times : list Q) :
  (0 <= finalValue)%Z -> representable (inject_Z finalValue) ->
  0 < D -> representable D ->
  StronglySorted Qle (t0 :: times) ->
  let a := animateCounter (Fin t0) el (of_Z finalValue) (Some (Fin D)) in
  let vs := map (value64 finalValue D t0) (steps64 D t0 times) in
  emitted a (map Fin times) = map of_Z vs
  /\ StronglySorted Z.le vs
  /\ Forall (fun v => (0 <= v <= finalValue)%Z) vs
  /\ (forall t, In t times -> snd (animate a (Fin t)) = false ->
        fst (animate a (Fin t)) = of_Z finalValue)
  /\ (Exists (fun t => t0 + D <= t) times -> exists pre, vs = pre ++ [finalValue])
  /\ (finalValue = 0%Z -> Forall (fun v => v = 0%Z) vs).
Proof.
  intros HF HrF HD [HrD HDmax] Hs a vs.
  rewrite Qabs_pos in HDmax by lra.
  assert (Hge : Forall (fun t => t0 <= t) times) by now inversion Hs.
  assert (Hb : Forall (fun v => (0 <= v <= finalValue)%Z) vs).
  { subst vs. rewrite Forall_forall. intros v Hv.
    apply in_map_iff in Hv. destruct Hv as (t & <- & Hin).
    apply steps64_In in Hin. rewrite Forall_forall in Hge.
    apply value64_bounds; auto. apply (proj1 HrF). }
  split; [|split; [|split; [|split; [|split]]]].
  - subst a vs. now apply emitted_valid.
  - subst vs. apply values64_sorted; try assumption.
    inversion Hs as [|? ? Hts Hall]; subst.
    constructor; [now apply steps64_sorted|].
    rewrite Forall_forall in *. intros t Hin. apply Hall.
    now apply steps64_In in Hin.
  - exact Hb.
  - intros t Hin. rewrite Forall_forall in Hge. subst a.
    rewrite (animate_valid el finalValue D t0 t HF HrF HD HDmax (Hge t Hin)).
    cbn [fst snd]. intro E. apply Qlt_bool_false_iff in E.
    f_equal. apply value64_done; [apply (proj1 HrF)|].
    pose proof (progress64_range D t0 t HD (Hge t Hin)). lra.
  - intro Hex. destruct (steps64_last D t0 times HD HrD Hex) as (pre & t & Heq & Ht).
    exists (map (value64 finalValue D t0) pre).
    subst vs. rewrite Heq, map_app. cbn [map].
    now rewrite (value64_done finalValue D t0 t (proj1 HrF) Ht).
  - intros -> . rewrite Forall_forall in *. intros v Hv. specialize (Hb v Hv). lia.
Qed.

(** ** A progress that is not positive *)

Lemma one_minus_non_positive (p : num) :
  non_positive p -> at_least_one (num_sub (of_Z 1) p).
Proof.
  unfold of_Z. change (inject_Z 1) with 1.
  assert (H1 : round 1 = Fin (fl 1)) by (apply round_nonneg; [lra|apply rnd_small; lra]).
  assert (Hfl1 : 1 <= fl 1) by (apply fl_ge_one; lra).
  intros [->|[->|(q & -> & Hq)]]; unfold num_sub; cbn [num_neg].
  - cbn [num_add]. rewrite Qeq_bool_false by (intro H; vm_compute in H; discriminate).
    rewrite (round_comp (1 + 0) 1) by ring. rewrite H1. right. eauto.
  - left. reflexivity.
  - destruct (Qeq_bool q 0) eqn:E.
    + cbn [num_add]. rewrite Qeq_bool_false by (intro H; vm_compute in H; discriminate).
      rewrite H1. right. eauto.
    + cbn [num_add]. rewrite Qeq_bool_false by lra.
      destruct (round_pos_cases (1 + - q)) as [H|[H _]]; [lra|left; exact H|].
      right. exists (fl (1 + - q)). split; [assumption|]. apply fl_ge_one. lra.
Qed.

Lemma square_at_least_one (u : num) : at_least_one u -> at_least_one (Math_pow2 u).
Proof.
  intros [->|(q & -> & Hq)]; unfold Math_pow2, num_mul.
  - left. reflexivity.
  - cbn [finite_value]. rewrite Qeq_bool_false by nra.
    destruct (round_pos_cases (q * q)) as [H|[H _]]; [nra|left; exact H|].
    right. exists (fl (q * q)). split; [assumption|]. apply fl_ge_one. nra.
Qed.

Lemma one_minus_at_least_one (s : num) :
  at_least_one s -> non_positive (num_sub (of_Z 1) s).
Proof.
  unfold of_Z. change (inject_Z 1) with 1.
  intros [->|(q & -> & Hq)]; unfold num_sub; cbn [num_neg].
  - right. left. reflexivity.
  - rewrite Qeq_bool_false by lra. cbn [num_add].
    destruct (Qeq_bool (1 + - q) 0) eqn:E.
    + right. right. exists 0. split; [reflexivity|lra].
    + apply Qeq_bool_neq in E.
      destruct (round_neg_cases (1 + - q)) as [H|[[H _]|[H Hlt]]]; [lra| | |].
      * right. left. exact H.
      * left. exact H.
      * right. right. exists (fl (1 + - q)). split; [assumption|lra].
Qed.

(** The product of a non-negative finite value and a value that is not
    positive; a finite product is again a binary64 value. *)
Lemma scale_non_positive (f : Q) (g : num) :
  0 <= f -> non_positive g ->
  num_mul (Fin f) g = NegZero \/ num_mul (Fin f) g = NegInf \/ num_mul (Fin f) g = NaN
  \/ exists m, num_mul (Fin f) g = Fin m /\ m <= 0 /\ rnd m == m.
Proof.
  intros Hf [->|[->|(q & -> & Hq)]]; unfold num_mul; cbn [finite_value].
  - rewrite (sign_bit_nonneg f Hf). cbn [sign_bit xorb].
    rewrite Qeq_bool_true by ring. left. reflexivity.
  - rewrite (sign_bit_nonneg f Hf). cbn [sign_bit xorb signed_inf].
    destruct (Qeq_bool f 0); [right; right; left|right; left]; reflexivity.
  - rewrite (sign_bit_nonneg f Hf). cbn [xorb].
    destruct (Qeq_bool (f * q) 0) eqn:E.
    + unfold sign_bit. destruct (Qlt_bool q 0); cbn [signed_zero]; [now left|].
      right. right. right. exists 0. split; [reflexivity|]. split; [lra|reflexivity].
    + apply Qeq_bool_neq in E.
      assert (Hneg : f * q < 0).
      { destruct (Q_sign_cases (f * q)) as [Hc|[Hc|Hc]]; [assumption|contradiction|nra]. }
      destruct (round_neg_cases (f * q) Hneg) as [H|[[H _]|[H Hlt]]].
      * right. left. exact H.
      * left. exact H.
      * right. right. right. exists (fl (f * q)). split; [assumption|].
        split; [lra|]. rewrite <- fl_eq. apply fl_idem.
Qed.

Lemma floor_of_sum_at_most_zero (m : num) :
  m = NegZero \/ m = NegInf \/ m = NaN \/ (exists q, m = Fin q /\ q <= 0 /\ rnd q == q) ->
  at_most_zero (Math_floor (num_add startValue m)).
Proof.
  unfold startValue, of_Z. change (inject_Z 0) with 0.
  intros [->|[->|[->|(q & -> & Hq & Hr)]]].
  - left. exists 0%Z. split; [lia|reflexivity].
  - right. left. reflexivity.
  - right. right. reflexivity.
  - cbn [num_add]. destruct (Qeq_bool (0 + q) 0) eqn:E.
    + left. exists 0%Z. split; [lia|reflexivity].
    + apply Qeq_bool_neq in E.
      assert (Hneg : 0 + q < 0).
      { destruct (Q_sign_cases (0 + q)) as [Hc|[Hc|Hc]]; [assumption|contradiction|lra]. }
      destruct (round_neg_cases (0 + q) Hneg) as [H|[[_ H]|[H Hlt]]].
      * rewrite H. right. left. reflexivity.
      * exfalso. rewrite (rnd_comp (0 + q) q) in H by ring. lra.
      * rewrite H. left. exists (Qfloor (fl (0 + q))). split; [|reflexivity].
        apply Z.le_trans with (Qfloor 0); [|vm_compute; discriminate].
        apply Qfloor_resp_le. lra.
Qed.

(** With a progress that is not positive, [animate] writes a value that is
    at most zero and requests the next step. *)
Lemma non_positive_progress (F : Z) (p : num) :
  (0 <= F)%Z -> representable (inject_Z F) -> non_positive p ->
  at_most_zero (value_of_progress (of_Z F) p)
  /\ Math_min p (of_Z 1) = p
  /\ num_lt p (of_Z 1) = true.
Proof.
  intros HF [HrF HFmax] Hp. split; [|split].
  - unfold value_of_progress. cbv zeta.
    pose proof (inject_Z_nonneg F HF) as HFq.
    rewrite Qabs_pos in HFmax by assumption.
    assert (E : num_sub (of_Z F) startValue = Fin (fl (inject_Z F - 0))).
    { unfold startValue, of_Z. change (inject_Z 0) with 0.
      apply num_sub_nonneg; [assumption|].
      rewrite (rnd_comp (inject_Z F - 0) (inject_Z F)) by ring. lra. }
    rewrite E. apply floor_of_sum_at_most_zero.
    apply scale_non_positive; [apply fl_nonneg; lra|].
    apply one_minus_at_least_one, square_at_least_one, one_minus_non_positive.
    assumption.
  - destruct Hp as [->|[->|(q & -> & Hq)]]; [reflexivity|reflexivity|].
    unfold of_Z. change (inject_Z 1) with 1. cbn [Math_min].
    rewrite (proj2 (Qle_bool_iff q 1)) by lra. reflexivity.
  - destruct Hp as [->|[->|(q & -> & Hq)]]; [reflexivity|reflexivity|].
    unfold of_Z. change (inject_Z 1) with 1. cbn [num_lt].
    apply Qlt_bool_true_iff. lra.
Qed.

(** The elapsed time of a step at or after the start. *)
Lemma elapsed_nonneg (t0 t : Q) : t0 <= t ->
  num_sub (Fin t) (Fin t0) = PosInf
  \/ exists e, num_sub (Fin t) (Fin t0) = Fin e /\ 0 <= e /\ e == rnd (t - t0).
Proof.
  intro Ht. destruct (Qlt_le_dec (rnd (t - t0)) (pow2 1024)) as [He|He].
  - right. exists (fl (t - t0)). split; [now apply num_sub_nonneg|].
    split; [apply fl_nonneg; lra|apply fl_eq].
  - left. apply num_sub_overflow; [|assumption].
    destruct (Qlt_le_dec t0 t) as [H|H]; [assumption|exfalso].
    assert (E : t - t0 == 0) by lra. rewrite (rnd_zero _ E) in He.
    pose proof (pow2_pos 1024). lra.
Qed.

(** The elapsed time of a step before the start. *)
Lemma elapsed_negative (t0 t : Q) : t < t0 ->
  num_sub (Fin t) (Fin t0) = NegZero \/ num_sub (Fin t) (Fin t0) = NegInf
  \/ exists e, num_sub (Fin t) (Fin t0) = Fin e /\ e < 0.
Proof.
  intro Ht. unfold num_sub, num_neg.
  assert (Hc : forall q, q < 0 ->
            round q = NegZero \/ round q = NegInf \/ exists e, round q = Fin e /\ e < 0).
  { intros q Hq. destruct (round_neg_cases q Hq) as [H|[[H _]|[H Hlt]]];
      [right; left; exact H|left; exact H|right; right; eauto]. }
  destruct (Qeq_bool t0 0) eqn:E0.
  - apply Qeq_bool_iff in E0. cbn [num_add]. rewrite Qeq_bool_false by lra.
    apply Hc. lra.
  - cbn [num_add]. rewrite Qeq_bool_false by lra. apply Hc. lra.
Qed.

Lemma quotient_by_negative (e : num) (d : Q) :
  d < 0 -> (e = PosInf \/ exists q, e = Fin q /\ 0 <= q) ->
  non_positive (num_div e (Fin d)).
Proof.
  intros Hd [->|(q & -> & Hq)]; unfold num_div; cbn [finite_value].
  - cbn [sign_bit]. rewrite (proj2 (Qlt_bool_true_iff d 0) Hd). cbn [xorb signed_inf].
    right. left. reflexivity.
  - rewrite (sign_bit_nonneg q Hq), (sign_bit_neg d Hd). cbn [xorb signed_zero].
    rewrite (Qeq_bool_false d) by lra.
    destruct (Qeq_bool q 0) eqn:E; [left; reflexivity|].
    apply Qeq_bool_neq in E.
    assert (Hneg : q / d < 0).
    { assert (0 < q) by (destruct (Q_sign_cases q) as [Hc|[Hc|Hc]]; [lra|contradiction|lra]).
      assert (Hi : 0 < / - d) by (apply Qinv_lt_0_compat; lra).
      assert (Ei : q / d == - (q * / - d)) by (field; lra).
      rewrite Ei. nra. }
    destruct (round_neg_cases _ Hneg) as [H|[[H _]|[H Hlt]]].
    + right. left. exact H.
    + left. exact H.
    + right. right. exists (fl (q / d)). split; [assumption|lra].
Qed.

Lemma quotient_of_negative (e : num) (d : Q) :
  0 < d -> (e = NegZero \/ e = NegInf \/ exists q, e = Fin q /\ q < 0) ->
  non_positive (num_div e (Fin d)).
Proof.
  intros Hd He. unfold num_div.
  assert (Ed : sign_bit (Fin d) = false) by (apply sign_bit_nonneg; lra).
  destruct He as [->|[->|(q & -> & Hq)]]; cbn [finite_value]; rewrite Ed.
  - cbn [sign_bit xorb signed_zero]. rewrite (Qeq_bool_false d) by lra.
    rewrite Qeq_bool_true by reflexivity. left. reflexivity.
  - cbn [sign_bit xorb signed_inf]. right. left. reflexivity.
  - rewrite (sign_bit_neg q Hq). cbn [xorb].
    rewrite (Qeq_bool_false d), (Qeq_bool_false q) by lra.
    assert (Hneg : q / d < 0).
    { assert (Hi : 0 < / d) by now apply Qinv_lt_0_compat.
      unfold Qdiv. nra. }
    destruct (round_neg_cases _ Hneg) as [H|[[H _]|[H Hlt]]].
    + right. left. exact H.
    + left. exact H.
    + right. right. exists (fl (q / d)). split; [assumption|lra].
Qed.

(** ** The interpolator on a duration that is not positive *)

Lemma value_of_progress_one (F : Z) :
  (0 <= F)%Z -> representable (inject_Z F) ->
  value_of_progress (of_Z F) (of_Z 1) = of_Z F.
Proof.
  intros HF HrF. unfold of_Z at 2. change (inject_Z 1) with 1.
  rewrite (value_of_progress_valid F 1 HF HrF) by (split; lra).
  f_equal. apply scaled64_done; [apply (proj1 HrF)|reflexivity].
Qed.

Lemma value_of_progress_NaN (F : Z) :
  (0 <= F)%Z -> representable (inject_Z F) -> value_of_progress (of_Z F) NaN = NaN.
Proof.
  intros HF [HrF HFmax]. unfold value_of_progress. cbv zeta.
  pose proof (inject_Z_nonneg F HF) as HFq.
  rewrite Qabs_pos in HFmax by assumption.
  assert (E : num_sub (of_Z F) startValue = Fin (fl (inject_Z F - 0))).
  { unfold startValue, of_Z. change (inject_Z 0) with 0.
    apply num_sub_nonneg; [assumption|].
    rewrite (rnd_comp (inject_Z F - 0) (inject_Z F)) by ring. lra. }
  rewrite E. reflexivity.
Qed.

Lemma value_of_progress_NegInf (F : Z) :
  (0 <= F)%Z -> representable (inject_Z F) ->
  value_of_progress (of_Z F) NegInf = if (F =? 0)%Z then NaN else NegInf.
Proof.
  intros HF [HrF HFmax]. unfold value_of_progress. cbv zeta.
  pose proof (inject_Z_nonneg F HF) as HFq.
  rewrite Qabs_pos in HFmax by assumption.
  assert (E : num_sub (of_Z F) startValue = Fin (fl (inject_Z F - 0))).
  { unfold startValue, of_Z. change (inject_Z 0) with 0.
    apply num_sub_nonneg; [assumption|].
    rewrite (rnd_comp (inject_Z F - 0) (inject_Z F)) by ring. lra. }
  assert (HF' : fl (inject_Z F - 0) == inject_Z F).
  { rewrite fl_eq, (rnd_comp (inject_Z F - 0) (inject_Z F)) by ring. assumption. }
  rewrite E.
  change (num_sub (of_Z 1) (Math_pow2 (num_sub (of_Z 1) NegInf))) with NegInf.
  unfold num_mul. cbn [finite_value].
  rewrite (sign_bit_nonneg (fl (inject_Z F - 0))) by lra. cbn [sign_bit xorb signed_inf].
  destruct (Z.eqb_spec F 0) as [->|Hne].
  - rewrite Qeq_bool_true by exact HF'. reflexivity.
  - rewrite Qeq_bool_false; [reflexivity|].
    rewrite HF'. intro H0. apply Hne.
    unfold Qeq in H0. cbn in H0. lia.
Qed.

(** The elapsed time of a step strictly after the start: positive, or
    [+Infinity]. *)
Lemma elapsed_positive (t0 t : Q) :
  representable t0 -> representable t -> t0 < t ->
  num_sub (Fin t) (Fin t0) = PosInf
  \/ exists e, num_sub (Fin t) (Fin t0) = Fin e /\ 0 < e.
Proof.
  intros [H0 _] [H1 _] Hlt.
  destruct (elapsed_nonneg t0 t) as [H|(e & H & He0 & He)]; [lra|now left|right].
  exists e. split; [assumption|]. rewrite He. now apply rnd_difference_pos.
Qed.

Lemma elapsed_zero (t0 t : Q) : t == t0 -> num_sub (Fin t) (Fin t0) = Fin 0.
Proof.
  intro H. rewrite (num_sub_nonneg t t0).
  - rewrite fl_zero; [reflexivity|lra].
  - lra.
  - assert (E : t - t0 == 0) by lra. rewrite (rnd_zero _ E). apply pow2_pos.
Qed.

(** C7, as the code has it in binary64 arithmetic.  A finite duration that
    is a zero or negative is neither rejected nor guarded (final value a
    whole number [>= 0], step at [t >= t0]).  With the duration [+0], a step
    strictly after [t0] displays [finalValue] and requests no further step;
    with [-0] it displays [-Infinity] ([NaN] for the final value 0) and
    requests the next step; with either zero, a step exactly at [t0]
    computes [0 / 0], displays [NaN] and requests no further step.  With a
    negative duration, every step requests the next one and displays a whole
    number that is at most 0, or [-Infinity] or [NaN] when an intermediate
    result overflows. *)
Theorem nonpositive_duration_is_not_guarded_in_binary64
    (el : nat) (finalValue : Z) (t0 t : Q) :
  (0 <= finalValue)%Z -> representable (inject_Z finalValue) ->
  representable t0 -> representable t -> t0 <= t ->
  let a D := animateCounter (Fin t0) el (of_Z finalValue) (Some D) in
  (forall D, D == 0 -> t0 < t -> animate (a (Fin D)) (Fin t) = (of_Z finalValue, false))
  /\ (t0 < t ->
      animate (a NegZero) (Fin t) = (if (finalValue =? 0)%Z then NaN else NegInf, true))
  /\ (forall D, D == 0 -> t == t0 -> animate (a (Fin D)) (Fin t) = (NaN, false))
  /\ (t == t0 -> animate (a NegZero) (Fin t) = (NaN, false))
  /\ (forall D, D < 0 ->
        snd (animate (a (Fin D)) (Fin t)) = true
        /\ at_most_zero (fst (animate (a (Fin D)) (Fin t)))).
Proof.
  intros HF HrF Hr0 Hr1 Ht a. subst a. cbv beta.
  unfold animate, animateCounter. setoid_rewrite currentValue_at_eq.
  unfold progress_at. cbn [startTime duration finalNumber].
  split; [|split; [|split; [|split]]].
  - intros D HD Hlt.
    assert (Ed : Qeq_bool D 0 = true) by now apply Qeq_bool_true.
    assert (Es : sign_bit (Fin D) = false) by (apply sign_bit_nonneg; lra).
    assert (Eq : num_div (num_sub (Fin t) (Fin t0)) (Fin D) = PosInf).
    { destruct (elapsed_positive t0 t Hr0 Hr1 Hlt) as [->|(e & -> & He)];
        unfold num_div; cbn [finite_value]; rewrite Es.
      - reflexivity.
      - rewrite Ed, (Qeq_bool_false e), (sign_bit_nonneg e) by lra. reflexivity. }
    rewrite Eq. change (Math_min PosInf (of_Z 1)) with (of_Z 1).
    rewrite (value_of_progress_one finalValue HF HrF). reflexivity.
  - intro Hlt.
    assert (Eq : num_div (num_sub (Fin t) (Fin t0)) NegZero = NegInf).
    { destruct (elapsed_positive t0 t Hr0 Hr1 Hlt) as [->|(e & -> & He)];
        unfold num_div; cbn [finite_value].
      - reflexivity.
      - rewrite (Qeq_bool_false e), (sign_bit_nonneg e) by lra. reflexivity. }
    rewrite Eq. change (Math_min NegInf (of_Z 1)) with NegInf.
    rewrite (value_of_progress_NegInf finalValue HF HrF). reflexivity.
  - intros D HD Heq.
    assert (Ed : Qeq_bool D 0 = true) by now apply Qeq_bool_true.
    rewrite (elapsed_zero t0 t Heq). unfold num_div. cbn [finite_value].
    rewrite Ed. change (Qeq_bool 0 0) with true. cbv iota.
    change (Math_min NaN (of_Z 1)) with NaN.
    rewrite (value_of_progress_NaN finalValue HF HrF). reflexivity.
  - intro Heq. rewrite (elapsed_zero t0 t Heq).
    change (num_div (Fin 0) NegZero) with NaN.
    change (Math_min NaN (of_Z 1)) with NaN.
    rewrite (value_of_progress_NaN finalValue HF HrF). reflexivity.
  - intros D HD. cbn [fst snd].
    assert (Hq : non_positive (num_div (num_sub (Fin t) (Fin t0)) (Fin D))).
    { apply quotient_by_negative; [assumption|].
      destruct (elapsed_nonneg t0 t Ht) as [H|(e & H & He0 & _)]; [now left|right; eauto]. }
    destruct (non_positive_progress finalValue _ HF HrF Hq) as (Hv & Hmin & Hlt).
    rewrite Hmin. split; assumption.
Qed.

(** ** A step before the start time *)

(** [animate] has no lower clamp on the progress.  For a whole final value
    [>= 0] and a duration [D > 0], a step whose timestamp lies before the
    start time requests a further step and displays a value that is never
    positive: a whole number that is at most 0, or [-Infinity] or [NaN] when
    an intermediate result overflows. *)
Theorem step_before_start_is_never_positive
    (el : nat) (finalValue : Z) (D t0 t : Q) :
  (0 <= finalValue)%Z -> representable (inject_Z finalValue) -> 0 < D -> t < t0 ->
  let a := animateCounter (Fin t0) el (of_Z finalValue) (Some (Fin D)) in
  snd (animate a (Fin t)) = true /\ at_most_zero (fst (animate a (Fin t))).
Proof.
  intros HF HrF HD Ht a. subst a.
  unfold animate, animateCounter. rewrite currentValue_at_eq.
  unfold progress_at. cbn [startTime duration finalNumber fst snd].
  assert (Hq : non_positive (num_div (num_sub (Fin t) (Fin t0)) (Fin D))).
  { apply quotient_of_negative; [assumption|]. now apply elapsed_negative. }
  destruct (non_positive_progress finalValue _ HF HrF Hq) as (Hv & Hmin & Hlt).
  rewrite Hmin. split; assumption.
Qed.

(** ** Instances in binary64 arithmetic *)

Ltac representable_literal := split; vm_compute; reflexivity.

(** The first counter (500, started at 200ms, 1200ms long) stepped at 200,
    440, 800, 1100, 1400 and 1700ms: it emits 0, 179, 375, 468 and 500, then
    stops. *)
Lemma emitted_binary64_instance :
  ((0 <= 500)%Z /\ representable (inject_Z 500) /\ 0 < 1200 /\ representable 1200
   /\ StronglySorted Qle [200; 200; 440; 800; 1100; 1400; 1700])
  /\ emitted (animateCounter (Fin 200) 0 (of_Z 500) (Some (Fin 1200)))
             (map Fin [200; 440; 800; 1100; 1400; 1700])
     = map of_Z [0; 179; 375; 468; 500]%Z
  /\ let a := animateCounter (Fin 200) 0 (of_Z 500) (Some (Fin 1200)) in
     let vs := map (value64 500 1200 200)
                   (steps64 1200 200 [200; 440; 800; 1100; 1400; 1700]) in
     emitted a (map Fin [200; 440; 800; 1100; 1400; 1700]) = map of_Z vs
     /\ StronglySorted Z.le vs
     /\ Forall (fun v => (0 <= v <= 500)%Z) vs
     /\ (forall t, In t [200; 440; 800; 1100; 1400; 1700] ->
           snd (animate a (Fin t)) = false -> fst (animate a (Fin t)) = of_Z 500)
     /\ (Exists (fun t => 200 + 1200 <= t) [200; 440; 800; 1100; 1400; 1700] ->
         exists pre, vs = pre ++ [500%Z])
     /\ (500%Z = 0%Z -> Forall (fun v => v = 0%Z) vs).
Proof.
  split; [|split].
  - split; [lia|]. split; [representable_literal|]. split; [reflexivity|].
    split; [representable_literal|sorted_Q].
  - vm_compute. reflexivity.
  - apply (emitted_binary64_nondecreasing_bounded_exact 0 500 1200 200
             [200; 440; 800; 1100; 1400; 1700]);
      [lia|representable_literal|reflexivity|representable_literal|sorted_Q].
Defined.

(** C7, refuted as stated: with the duration -1200 the step at 16ms displays
    "-14", outside [[0, 500]], and requests a further step. *)
Lemma negative_duration_displays_negative_in_binary64 :
  animate (animateCounter (Fin 0) 0 (of_Z 500) (Some (of_Z (-1200)))) (Fin 16)
  = (of_Z (-14), true)
  /\ toLocaleString (of_Z (-14)) = "-14".
Proof. split; vm_compute; reflexivity. Qed.

(** With the duration [-0] the first counter shows "-∞" 16ms after its
    start and keeps requesting steps; with [+0] it shows "500" and stops. *)
Lemma nonpositive_duration_binary64_instance :
  ((0 <= 500)%Z /\ representable (inject_Z 500) /\ representable 0
   /\ representable 16 /\ 0 <= 16)
  /\ toLocaleString NegInf = "-∞"
  /\ let a D := animateCounter (Fin 0) 0 (of_Z 500) (Some D) in
     (forall D, D == 0 -> 0 < 16 -> animate (a (Fin D)) (Fin 16) = (of_Z 500, false))
     /\ (0 < 16 ->
         animate (a NegZero) (Fin 16) = (if (500 =? 0)%Z then NaN else NegInf, true))
     /\ (forall D, D == 0 -> 16 == 0 -> animate (a (Fin D)) (Fin 16) = (NaN, false))
     /\ (16 == 0 -> animate (a NegZero) (Fin 16) = (NaN, false))
     /\ (forall D, D < 0 ->
           snd (animate (a (Fin D)) (Fin 16)) = true
           /\ at_most_zero (fst (animate (a (Fin D)) (Fin 16)))).
Proof.
  split; [|split].
  - split; [lia|]. split; [representable_literal|]. split; [representable_literal|].
    split; [representable_literal|discriminate].
  - reflexivity.
  - apply (nonpositive_duration_is_not_guarded_in_binary64 0 500 0 16);
      [lia|representable_literal|representable_literal|representable_literal|discriminate].
Defined.

(** The first counter stepped 100ms before its start: it shows "-87" and
    requests a further step. *)
Lemma step_before_start_binary64_instance :
  ((0 <= 500)%Z /\ representable (inject_Z 500) /\ 0 < 1200 /\ 100 < 200)
  /\ animate (animateCounter (Fin 200) 0 (of_Z 500) (Some (Fin 1200))) (Fin 100)
     = (of_Z (-87), true)
  /\ let a := animateCounter (Fin 200) 0 (of_Z 500) (Some (Fin 1200)) in
     snd (animate a (Fin 100)) = true /\ at_most_zero (fst (animate a (Fin 100))).
Proof.
  split; [|split].
  - split; [lia|]. split; [representable_literal|]. split; reflexivity.
  - vm_compute. reflexivity.
  - apply (step_before_start_is_never_positive 0 500 1200 200 100);
      [lia|representable_literal|reflexivity|reflexivity].
Defined.

End Binary64.
